(** * nanotube: ingest listeners and per-host delivery

    A shallow embedding of the listener code (package main: [Listen],
    [listenUDP], [sendToMainQ], [scanForRecordsTCP]) and of the host
    delivery code (package target, host.go), with the properties of the
    written specification stated and settled against it.

    Conventions.
    - Go channels with a buffer are bounded FIFO queues.
    - Prometheus counters are natural numbers, a histogram is the list of
      its observations.
    - [uint32] values are integers in [Z] with the wrap-around of Go's
      arithmetic written out.
    - [time.Time] and [time.Duration] are integers counting nanoseconds.
    - The network is an oracle: the outcome of the k-th dial and of the
      k-th write on an open socket are read from functions of k.
    - The clock is an oracle too: every [time.Now()] and [time.Since()]
      is a new reading, later than the one before by a time read from a
      function of the number of readings made. *)

From Stdlib Require Import List ZArith Lia Bool Arith.
From Stdlib Require Import Strings.Byte.
From Stdlib Require Strings.String.
Import ListNotations.
Import String.StringSyntax.
Delimit Scope string_scope with string.

Set Implicit Arguments.

(* ================================================================== *)
(** * Byte strings *)

Definition bytes := list byte.

Definition LF : byte := x0a.
Definition CR : byte := x0d.

Definition is_LF (b : byte) : bool := Byte.eqb b LF.

(** [bytes.Split(s, []byte{'\n'})] of the Go standard library, with the
    separator fixed to the single byte LF as at its call site: the
    subslices between the separators; k separators give k+1 subslices, and
    the empty input gives one empty subslice. *)
Fixpoint bytes_Split (s : bytes) : list bytes :=
  match s with
  | [] => [[]]
  | b :: s' =>
      if is_LF b then [] :: bytes_Split s'
      else match bytes_Split s' with
           | [] => [[b]]
           | l :: ls => (b :: l) :: ls
           end
  end.

(** The wire form of a list of complete lines: each followed by LF. *)
Definition unlines (ls : list bytes) : bytes :=
  concat (map (fun l => l ++ [LF]) ls).

(* ================================================================== *)
(** * Bounded channels *)

Module Chan.

(** [make(chan A, cap)]: the buffered elements, oldest first, and the
    capacity.  Every send of the program happens before the channel is
    closed (the main queue is closed by [Listen] only after all listener
    goroutines returned, the host queues at shutdown once the workers
    that push to them are gone), so the closed state is not
    represented. *)
Record t (A : Type) := Make { buf : list A; cap : nat }.

Definition make (A : Type) (n : nat) : t A := Make [] n.

Definition full {A} (c : t A) : bool := cap c <=? length (buf c).

(** [select { case c <- x: ... default: ... }]: the send is taken when
    the buffer has room, the default branch otherwise. *)
Definition try_send {A} (c : t A) (x : A) : option (t A) :=
  if full c then None else Some (Make (buf c ++ [x]) (cap c)).

End Chan.

(* ================================================================== *)
(** * Listeners (package main) *)

Module Listener.

(** The counters of [metrics.Prom] the listeners touch. *)
Record Prom := MkProm {
  InRecs : nat;
  ThrottledRecs : nat
}.

(** What the listener goroutines share: the main queue and the metrics. *)
Record State := MkState {
  queue : Chan.t bytes;
  ms : Prom
}.

Definition Listen_queue (MainQueueSize : nat) : State :=
  MkState (Chan.make bytes MainQueueSize) (MkProm 0 0).

(** [sendToMainQ]. *)
Definition sendToMainQ (rec : bytes) (st : State) : State :=
  match Chan.try_send (queue st) rec with
  | Some q' => MkState q' (MkProm (S (InRecs (ms st))) (ThrottledRecs (ms st)))
  | None => MkState (queue st) (MkProm (InRecs (ms st)) (S (ThrottledRecs (ms st))))
  end.

(** The body of the read loop of [listenUDP] for one datagram
    [buf[:nRead]]:
    [lines := bytes.Split(...); for i := 0; i < len(lines)-1; i++]. *)
Definition listenUDP_datagram (d : bytes) (st : State) : State :=
  let lines := bytes_Split d in
  fold_left (fun s i => sendToMainQ (nth i lines []) s)
            (seq 0 (length lines - 1)) st.

(** What [conn.ReadFrom] returns. *)
Inductive ReadResult :=
| Datagram (d : bytes)
| ReadError (closed : bool).

(** The read loop of [listenUDP] over the successive results of
    [ReadFrom]: an error of a closed connection ends the loop, any other
    error is logged and skipped. *)
Fixpoint listenUDP (reads : list ReadResult) (st : State) : State :=
  match reads with
  | [] => st
  | Datagram d :: rest => listenUDP rest (listenUDP_datagram d st)
  | ReadError true :: _ => st
  | ReadError false :: rest => listenUDP rest st
  end.

(** ** The line scanner

    [bufio.NewScanner(conn)] with its defaults: the split function is
    [ScanLines] and the largest token is [MaxScanTokenSize]. *)
Definition MaxScanTokenSize : nat := 64 * 1024.

Inductive ScanEnd := ScanEOF | ErrTooLong.

(** [dropCR] of bufio: one trailing carriage return is removed. *)
Definition dropCR (l : bytes) : bytes :=
  match rev l with
  | b :: r => if Byte.eqb b CR then rev r else l
  | [] => l
  end.

(** The tokens [sc.Scan()] yields on the bytes read from the connection
    up to its end, and how the scan ends.  [cur] is the pending line
    read so far, last byte first, and [n] its length.  A line is a token
    when its LF arrives while the pending bytes fit the buffer; once
    [limit] bytes are pending with no LF among them the scanner stops
    with [ErrTooLong] and yields nothing more.  At the end of the input
    a pending non-empty line is the last token. *)
Fixpoint scan_lines (limit : nat) (cur : bytes) (n : nat) (input : bytes)
  : list bytes * ScanEnd :=
  match input with
  | [] => (match cur with [] => [] | _ => [dropCR (rev cur)] end, ScanEOF)
  | b :: rest =>
      if is_LF b then
        let (ts, e) := scan_lines limit [] 0 rest in
        (dropCR (rev cur) :: ts, e)
      else if limit <=? S n then ([], ErrTooLong)
      else scan_lines limit (b :: cur) (S n) rest
  end.

Definition Scanner_tokens (input : bytes) : list bytes :=
  fst (scan_lines MaxScanTokenSize [] 0 input).

(** [scanForRecordsTCP]: every token received from [scanin] is sent to
    the main queue; the loop ends when [scanin] is closed (the scan
    ended) or when [stop] fires, here after [stop_after] tokens
    ([None]: never). *)
Definition scanForRecordsTCP (input : bytes) (stop_after : option nat)
           (st : State) : State :=
  let toks := Scanner_tokens input in
  let seen := match stop_after with
              | Some k => firstn k toks
              | None => toks
              end in
  fold_left (fun s rec => sendToMainQ rec s) seen st.

End Listener.

(* ================================================================== *)
(** * Collaborators of package target *)

Module conf.

(** Modelled from the spec: package conf is not among the sources.  The
    options of the main configuration that [NewHost] reads, named as the
    code names them, with [HostReconnectPeriodDeltaMs] for the option
    [host_reconnect_period_delta_ms] of the configuration. *)
Record Main := MkMain {
  TargetPort : Z;
  HostQueueSize : nat;
  SendTimeoutSec : Z;
  OutConnTimeoutSec : Z;
  KeepAliveSec : Z;
  MaxHostReconnectPeriodMs : Z;
  HostReconnectPeriodDeltaMs : Z;
  ConnectionLossThresholdMs : Z;
  TCPOutBufFlushPeriodSec : Z;
  TCPOutConnectionRefreshPeriodSec : Z;
  TCPOutBufSize : Z
}.

(** Modelled from the spec: the entry of one host in the clusters file. *)
Record Host := MkHost {
  Name : String.string;
  Port : Z
}.

End conf.

Module rec.

(** Modelled from the spec: package rec is not among the sources.  A
    record is stood for by its serialized line ([path SP value SP
    timestamp LF]) and the instant it was received. *)
Record Rec := MkRec {
  Serialize : bytes;
  Received : Z
}.

End rec.

(* ================================================================== *)
(** * Time *)

Module time.
Definition Nanosecond : Z := 1.
Definition Millisecond : Z := 1000000.
Definition Second : Z := 1000000000.
End time.

(** Unsigned 32-bit wrap-around. *)
Definition u32 (x : Z) : Z := x mod 2 ^ 32.

(* ================================================================== *)
(** * The world outside the host: clock, sockets, network oracle *)

Module World.

(** A TCP connection once dialled: whether it is still open on our side
    and the bytes the peer has been sent through it. *)
Record Sock := MkSock { sopen : bool; delivered : bytes }.

(** The calls the host makes to the packages time, net and bufio, with
    their outcome, in the order they are made. *)
Inductive Event :=
| EvSleep (d : Z)
| EvDial (conn : option nat)
| EvClose (c : nat)
| EvSetWriteDeadline (c : nat) (t : Z)
| EvConnWrite (c : nat) (p : bytes) (n : nat) (err : bool)
| EvWrite (p : bytes) (err : bool)
| EvFlush (err : bool)
| EvNow (t : Z).

(** [now] is the last reading of the clock, [nclock] the number of
    readings made, and [lapse k] the time that has gone by, in
    nanoseconds, when reading number [k] is made: the clock of package
    time never goes back, and how far it moves between two readings is
    not in the program's hands. *)
Record t := Make {
  now : Z;
  socks : list Sock;
  ndial : nat;
  nwrite : nat;
  dial_ok : nat -> bool;
  write_res : nat -> option nat;
  trace : list Event;
  nclock : nat;
  lapse : nat -> N
}.

(** A world for the examples: every reading of the clock finds it one
    nanosecond later, unless [with_lapse] says otherwise. *)
Definition init (clock : Z) (dials : nat -> bool)
           (writes : nat -> option nat) : t :=
  Make clock [] 0 0 dials writes [] 0 (fun _ => 1%N).

Definition with_lapse (f : nat -> N) (w : t) : t :=
  Make (now w) (socks w) (ndial w) (nwrite w) (dial_ok w) (write_res w)
       (trace w) (nclock w) f.

Definition log (e : Event) (w : t) : t :=
  Make (now w) (socks w) (ndial w) (nwrite w) (dial_ok w) (write_res w)
       (trace w ++ [e]) (nclock w) (lapse w).

(** Time passing between two calls of the host's methods. *)
Definition elapse (d : Z) (w : t) : t :=
  Make (now w + d) (socks w) (ndial w) (nwrite w) (dial_ok w)
       (write_res w) (trace w) (nclock w) (lapse w).

(** [time.Sleep(d)]. *)
Definition Sleep (d : Z) (w : t) : t := log (EvSleep d) (elapse d w).

(** One reading of the clock: the world once it is made. *)
Definition tick (w : t) : t :=
  let t1 := (now w + Z.of_N (lapse w (nclock w)))%Z in
  log (EvNow t1)
      (Make t1 (socks w) (ndial w) (nwrite w) (dial_ok w) (write_res w)
            (trace w) (S (nclock w)) (lapse w)).

(** [time.Now()]. *)
Definition Now (w : t) : Z * t := (now (tick w), tick w).

(** The time from [t0] to the last reading of the clock;
    [time.Since(t0)] is [Since t0] of the world after one more
    reading. *)
Definition Since (t0 : Z) (w : t) : Z := now w - t0.

(** [dialer.Dial]: the oracle decides; a connection gets the next free
    identifier. *)
Definition Dial (w : t) : option nat * t :=
  if dial_ok w (ndial w) then
    let c := length (socks w) in
    (Some c,
     log (EvDial (Some c))
         (Make (now w) (socks w ++ [MkSock true []]) (S (ndial w))
               (nwrite w) (dial_ok w) (write_res w) (trace w)
               (nclock w) (lapse w)))
  else
    (None,
     log (EvDial None)
         (Make (now w) (socks w) (S (ndial w)) (nwrite w) (dial_ok w)
               (write_res w) (trace w) (nclock w) (lapse w))).

Definition is_open (c : nat) (w : t) : bool :=
  match nth_error (socks w) c with
  | Some s => sopen s
  | None => false
  end.

Fixpoint update (A : Type) (l : list A) (i : nat) (f : A -> A) : list A :=
  match l, i with
  | [], _ => []
  | x :: l', 0 => f x :: l'
  | x :: l', S i' => x :: update l' i' f
  end.

(** [conn.Close()]. *)
Definition Close (c : nat) (w : t) : t :=
  log (EvClose c)
      (Make (now w)
            (update (socks w) c (fun s => MkSock false (delivered s)))
            (ndial w) (nwrite w) (dial_ok w) (write_res w) (trace w)
            (nclock w) (lapse w)).

(** [conn.SetWriteDeadline(t)]; its error is only logged. *)
Definition SetWriteDeadline (c : nat) (t0 : Z) (w : t) : t :=
  log (EvSetWriteDeadline c t0) w.

(** [conn.Write(p)]: the number of bytes written and whether an error is
    returned.  A connection closed on our side refuses the write.  On an
    open one the oracle decides: [None] accepts all of [p], [Some n]
    fails after at most [n] bytes. *)
Definition ConnWrite (c : nat) (p : bytes) (w : t) : nat * bool * t :=
  if is_open c w then
    let n := match write_res w (nwrite w) with
             | None => length p
             | Some k => Nat.min k (length p)
             end in
    let err := match write_res w (nwrite w) with
               | None => false
               | Some _ => true
               end in
    (n, err,
     log (EvConnWrite c p n err)
         (Make (now w)
               (update (socks w) c
                  (fun s => MkSock (sopen s) (delivered s ++ firstn n p)))
               (ndial w) (S (nwrite w)) (dial_ok w) (write_res w)
               (trace w) (nclock w) (lapse w)))
  else (0, true, log (EvConnWrite c p 0 true) w).

End World.

(* ================================================================== *)
(** * bufio.Writer *)

Module bufio.

(** The writer's underlying connection, its buffered bytes, its size and
    its sticky error. *)
Record Writer := MkWriter {
  wr : nat;
  buf : bytes;
  size : nat;
  err : bool
}.

Definition defaultBufSize : nat := 4096.

(** [bufio.NewWriterSize(conn, size)]. *)
Definition NewWriterSize (c : nat) (sz : Z) : Writer :=
  MkWriter c [] (if (sz <=? 0)%Z then defaultBufSize else Z.to_nat sz) false.

Definition Buffered (b : Writer) : nat := length (buf b).
Definition Available (b : Writer) : nat := size b - length (buf b).

(** [b.Flush()], without the event. *)
Definition flush (b : Writer) (w : World.t) : Writer * bool * World.t :=
  if err b then (b, true, w)
  else match buf b with
       | [] => (b, false, w)
       | _ :: _ =>
           let '(n, e, w1) := World.ConnWrite (wr b) (buf b) w in
           if e then (MkWriter (wr b) (skipn n (buf b)) (size b) true, true, w1)
           else (MkWriter (wr b) [] (size b) false, false, w1)
       end.

(** The loop of [b.Write(p)]: while [p] does not fit, either write it
    through (empty buffer) or fill the buffer and flush.  Two rounds are
    the most the loop can take. *)
Fixpoint write_loop (rounds : nat) (b : Writer) (p : bytes) (w : World.t)
  : Writer * bytes * World.t :=
  match rounds with
  | 0 => (b, p, w)
  | S rounds' =>
      if (Available b <? length p) && negb (err b) then
        match buf b with
        | [] =>
            let '(n, e, w1) := World.ConnWrite (wr b) p w in
            write_loop rounds' (MkWriter (wr b) (buf b) (size b) e)
                       (skipn n p) w1
        | _ :: _ =>
            let n := Available b in
            let b1 := MkWriter (wr b) (buf b ++ firstn n p) (size b) (err b) in
            let '(b2, _, w1) := flush b1 w in
            write_loop rounds' b2 (skipn n p) w1
        end
      else (b, p, w)
  end.

(** [b.Write(p)]. *)
Definition Write (b : Writer) (p : bytes) (w : World.t)
  : Writer * bool * World.t :=
  let '(b1, p1, w1) := write_loop 3 b p w in
  if err b1 then (b1, true, World.log (World.EvWrite p true) w1)
  else (MkWriter (wr b1) (buf b1 ++ p1) (size b1) false, false,
        World.log (World.EvWrite p false) w1).

(** [b.Flush()]. *)
Definition Flush (b : Writer) (w : World.t) : Writer * bool * World.t :=
  let '(b1, e, w1) := flush b w in
  (b1, e, World.log (World.EvFlush e) w1).

End bufio.

(* ================================================================== *)
(** * Package target: host.go *)

Module Target.

(** Results of the host's methods: a loop that waits for the network
    may not come back within the steps granted ([OutOfFuel]), and a nil
    dereference ends the goroutine ([Panic]). *)
Inductive Res (A : Type) :=
| Ret (a : A)
| OutOfFuel
| Panic.
Arguments Ret {A} a.
Arguments OutOfFuel {A}.
Arguments Panic {A}.

Definition bind {A B} (m : Res A) (k : A -> Res B) : Res B :=
  match m with
  | Ret a => k a
  | OutOfFuel => OutOfFuel
  | Panic => Panic
  end.

Notation "' p <- m ;; k" := (bind m (fun x => let 'p := x in k))
  (at level 61, p pattern, m at next level, right associativity).

(** [Connection]; the mutex is left out: every method below runs with
    it held. *)
Record Connection := MkConnection {
  cConn : option nat;
  LastConnUse : Z;
  W : option bufio.Writer
}.

(** [Host]; the logger, the metrics handle and the stop channel are left
    out.  A counter field holds the value of the counter it points to. *)
Record Host := MkHost {
  Name : String.string;
  Port : Z;
  Ch : Chan.t rec.Rec;
  Available : bool;
  Conn : Connection;
  SendTimeoutSec : Z;
  ConnTimeoutSec : Z;
  KeepAliveSec : Z;
  MaxReconnectPeriodMs : Z;
  ReconnectPeriodDeltaMs : Z;
  ConnectionLossThresholdMs : Z;
  TCPOutBufFlushPeriodSec : Z;
  TCPOutConnectionRefreshPeriodSec : Z;
  outRecs : nat;
  outRecsTotal : nat;
  throttled : nat;
  throttledTotal : nat;
  stateChanges : nat;
  stateChangesTotal : nat;
  oldConnectionRefresh : nat;
  oldConnectionRefreshTotal : nat;
  processingDuration : list Z;
  bufSize : Z
}.

(** ** Field updates *)

Definition set_Ch (v : Chan.t rec.Rec) (h : Host) : Host :=
  let '(MkHost a b _ d e f g i j k l m n o p q r s t u x y z) := h in
  MkHost a b v d e f g i j k l m n o p q r s t u x y z.

Definition set_Available (v : bool) (h : Host) : Host :=
  let '(MkHost a b c _ e f g i j k l m n o p q r s t u x y z) := h in
  MkHost a b c v e f g i j k l m n o p q r s t u x y z.

Definition set_Conn (v : Connection) (h : Host) : Host :=
  let '(MkHost a b c d _ f g i j k l m n o p q r s t u x y z) := h in
  MkHost a b c d v f g i j k l m n o p q r s t u x y z.

Definition inc_outRecs (h : Host) : Host :=
  let '(MkHost a b c d e f g i j k l m n o p q r s t u x y z) := h in
  MkHost a b c d e f g i j k l m n (S o) p q r s t u x y z.

Definition inc_outRecsTotal (h : Host) : Host :=
  let '(MkHost a b c d e f g i j k l m n o p q r s t u x y z) := h in
  MkHost a b c d e f g i j k l m n o (S p) q r s t u x y z.

Definition inc_throttled (h : Host) : Host :=
  let '(MkHost a b c d e f g i j k l m n o p q r s t u x y z) := h in
  MkHost a b c d e f g i j k l m n o p (S q) r s t u x y z.

Definition inc_throttledTotal (h : Host) : Host :=
  let '(MkHost a b c d e f g i j k l m n o p q r s t u x y z) := h in
  MkHost a b c d e f g i j k l m n o p q (S r) s t u x y z.

Definition inc_stateChanges (h : Host) : Host :=
  let '(MkHost a b c d e f g i j k l m n o p q r s t u x y z) := h in
  MkHost a b c d e f g i j k l m n o p q r (S s) t u x y z.

Definition inc_stateChangesTotal (h : Host) : Host :=
  let '(MkHost a b c d e f g i j k l m n o p q r s t u x y z) := h in
  MkHost a b c d e f g i j k l m n o p q r s (S t) u x y z.

Definition inc_oldConnectionRefresh (h : Host) : Host :=
  let '(MkHost a b c d e f g i j k l m n o p q r s t u x y z) := h in
  MkHost a b c d e f g i j k l m n o p q r s t (S u) x y z.

Definition inc_oldConnectionRefreshTotal (h : Host) : Host :=
  let '(MkHost a b c d e f g i j k l m n o p q r s t u x y z) := h in
  MkHost a b c d e f g i j k l m n o p q r s t u (S x) y z.

Definition observe_processingDuration (v : Z) (h : Host) : Host :=
  let '(MkHost a b c d e f g i j k l m n o p q r s t u x y z) := h in
  MkHost a b c d e f g i j k l m n o p q r s t u x (y ++ [v]) z.

Definition set_cConn (v : option nat) (h : Host) : Host :=
  set_Conn (MkConnection v (LastConnUse (Conn h)) (W (Conn h))) h.

Definition set_LastConnUse (v : Z) (h : Host) : Host :=
  set_Conn (MkConnection (cConn (Conn h)) v (W (Conn h))) h.

Definition set_W (v : option bufio.Writer) (h : Host) : Host :=
  set_Conn (MkConnection (cConn (Conn h)) (LastConnUse (Conn h)) v) h.

(** ** The methods *)

(** [Connection.New]. *)
Definition Connection_New (conn : nat) (bufSize : Z) (now : Z) : Connection :=
  MkConnection (Some conn) now (Some (bufio.NewWriterSize conn bufSize)).

(** [NewHost].  The zero value of [Conn] has no connection and no
    writer. *)
Definition NewHost (clusterName : String.string) (mainCfg : conf.Main)
           (hostCfg : conf.Host) : Host :=
  let targetPort :=
    if (conf.Port hostCfg =? 0)%Z then conf.TargetPort mainCfg
    else conf.Port hostCfg in
  let h :=
    MkHost (conf.Name hostCfg) targetPort
           (Chan.make rec.Rec (conf.HostQueueSize mainCfg))
           false
           (MkConnection None 0 None)
           (conf.SendTimeoutSec mainCfg)
           (conf.OutConnTimeoutSec mainCfg)
           (conf.KeepAliveSec mainCfg)
           (conf.MaxHostReconnectPeriodMs mainCfg)
           (conf.MaxHostReconnectPeriodMs mainCfg)
           (conf.ConnectionLossThresholdMs mainCfg)
           (conf.TCPOutBufFlushPeriodSec mainCfg)
           (conf.TCPOutConnectionRefreshPeriodSec mainCfg)
           0 0 0 0 0 0 0 0 []
           (conf.TCPOutBufSize mainCfg) in
  set_Available true h.

(** [Push]. *)
Definition Push (r : rec.Rec) (h : Host) : Host :=
  match Chan.try_send (Ch h) r with
  | Some ch => set_Ch ch h
  | None => inc_throttledTotal (inc_throttled h)
  end.

(** [getConnectionToHost]. *)
Definition getConnectionToHost (h : Host) (w : World.t)
  : option nat * World.t :=
  World.Dial w.

(** [Available.CAS(old, new)] of go.uber.org/atomic: the flag is set to
    [new] when it holds [old]; the result tells whether it was. *)
Definition Available_CAS (old new : bool) (h : Host) : bool * Host :=
  if Bool.eqb (Available h) old then (true, set_Available new h)
  else (false, h).

(** [Connect]. *)
Definition Connect (attemptCount : Z) (h : Host) (w : World.t)
  : Host * World.t :=
  let '(conn, w1) := getConnectionToHost h w in
  match conn with
  | None =>
      let h1 := set_cConn None h in
      if (attemptCount =? 1)%Z then
        let '(swapped, h2) := Available_CAS true false h1 in
        if swapped then (inc_stateChangesTotal (inc_stateChanges h2), w1)
        else (h2, w1)
      else (h1, w1)
  | Some c =>
      let '(t, w2) := World.Now w1 in
      let h1 := set_Conn (Connection_New c (bufSize h) t) h in
      (set_Available true h1, w2)
  end.

(** One update of [reconnectWait] in [ensureConnection]. *)
Definition next_wait (h : Host) (reconnectWait : Z) : Z :=
  let w1 := if (reconnectWait <? MaxReconnectPeriodMs h)%Z
            then u32 (reconnectWait * 2 + ReconnectPeriodDeltaMs h)
            else reconnectWait in
  if (w1 >=? MaxReconnectPeriodMs h)%Z then MaxReconnectPeriodMs h else w1.

(** The loop of [ensureConnection]. *)
Fixpoint ensureConnection_loop (fuel : nat) (reconnectWait attemptCount : Z)
         (h : Host) (w : World.t) : Res (Host * World.t) :=
  match cConn (Conn h) with
  | Some _ => Ret (h, w)
  | None =>
      match fuel with
      | 0 => OutOfFuel
      | S fuel' =>
          let w1 := World.Sleep (reconnectWait * time.Millisecond) w in
          let reconnectWait' := next_wait h reconnectWait in
          let '(h1, w2) := Connect attemptCount h w1 in
          ensureConnection_loop fuel' reconnectWait' (attemptCount + 1) h1 w2
      end
  end.

(** [ensureConnection]. *)
Definition ensureConnection (fuel : nat) (h : Host) (w : World.t)
  : Res (Host * World.t) :=
  ensureConnection_loop fuel 0 1 h w.

(** [keepConnectionFresh].  The option is converted with
    [time.Duration(...)] alone, which counts nanoseconds.  The clock is
    read by [time.Since] only when the option is not 0 and there is a
    connection. *)
Definition keepConnectionFresh (fuel : nat) (h : Host) (w : World.t)
  : Res (Host * World.t) :=
  if negb (TCPOutConnectionRefreshPeriodSec h =? 0)%Z then
    match cConn (Conn h) with
    | Some c =>
        let '(_, w0) := World.Now w in
        if (World.Since (LastConnUse (Conn h)) w0
            >? TCPOutConnectionRefreshPeriodSec h)%Z
        then
          let h1 := inc_oldConnectionRefreshTotal (inc_oldConnectionRefresh h) in
          let w1 := World.Close c w0 in
          ensureConnection fuel h1 w1
        else Ret (h, w0)
    | None => Ret (h, w)
    end
  else Ret (h, w).

(** The retry loop of [tryToSend]; [n] bounds its rounds. *)
Fixpoint tryToSend_loop (fuel n : nat) (r : rec.Rec) (h : Host)
         (w : World.t) : Res (Host * World.t) :=
  match n with
  | 0 => OutOfFuel
  | S n' =>
      '(h1, w1) <- ensureConnection fuel h w ;;
      '(h2, w2) <- keepConnectionFresh fuel h1 w1 ;;
      match cConn (Conn h2), W (Conn h2) with
      | Some c, Some b =>
          let '(t0, w2') := World.Now w2 in
          let w3 := World.SetWriteDeadline c
                      (t0 + SendTimeoutSec h2 * time.Second) w2' in
          let '(b1, err, w4) := bufio.Write b (rec.Serialize r) w3 in
          let h3 := set_W (Some b1) h2 in
          if negb err then
            let h4 := inc_outRecsTotal (inc_outRecs h3) in
            let '(t1, w5) := World.Now w4 in
            let h5 := observe_processingDuration (t1 - rec.Received r) h4 in
            let '(t2, w6) := World.Now w5 in
            Ret (set_LastConnUse t2 h5, w6)
          else
            let w5 := World.Close c w4 in
            tryToSend_loop fuel n' r (set_cConn None h3) w5
      | _, _ => Panic
      end
  end.

(** [tryToSend]. *)
Definition tryToSend (fuel : nat) (r : rec.Rec) (h : Host) (w : World.t)
  : Res (Host * World.t) :=
  tryToSend_loop fuel fuel r h w.

(** [tryToFlushIfNecessary]. *)
Definition tryToFlushIfNecessary (fuel : nat) (h : Host) (w : World.t)
  : Res (Host * World.t) :=
  match W (Conn h) with
  | Some b =>
      if negb (bufio.Buffered b =? 0) then
        '(h1, w1) <- match cConn (Conn h) with
                     | None => ensureConnection fuel h w
                     | Some _ => keepConnectionFresh fuel h w
                     end ;;
        match W (Conn h1) with
        | Some b1 =>
            let '(b2, err, w2) := bufio.Flush b1 w1 in
            let h2 := set_W (Some b2) h1 in
            let h3 := if err then set_W None (set_cConn None h2) else h2 in
            let '(t, w3) := World.Now w2 in
            Ret (set_LastConnUse t h3, w3)
        | None => Panic
        end
      else Ret (h, w)
  | None => Ret (h, w)
  end.

(** [checkUpdateHostStatus]. *)
Definition checkUpdateHostStatus (h : Host) (w : World.t) : Host * World.t :=
  let '(conn, w1) := getConnectionToHost h w in
  match conn with
  | Some c => (set_Available true h, World.Close c w1)
  | None =>
      let '(swapped, h1) := Available_CAS true false h in
      if swapped then (inc_stateChangesTotal (inc_stateChanges h1), w1)
      else (h1, w1)
  end.

End Target.

(* ================================================================== *)
(** * The life of a host: Push, Stream and Flush together *)

Module HostRun.
Import Target.

(** What happens to a host, one thing at a time.  [Push] comes from the
    dispatching workers, a receive is one round of the [range h.Ch] loop
    of [Stream], a tick is one tick of the ticker of [Flush].  [tryToSend]
    and [tryToFlushIfNecessary] hold the connection mutex, so they do not
    overlap; [Push] touches the queue and its counters only.  A record is
    received and sent in one step: a tick or a push that falls between the
    receive and the send has the effect it has right before or right
    after. *)
Inductive Action :=
| APush (r : rec.Rec)
| ARecv
| ATick.

(** One round of [for r := range h.Ch { h.tryToSend(r) }]; on an empty
    queue the sender stays blocked. *)
Definition Stream_recv (fuel : nat) (h : Host) (w : World.t)
  : Res (Host * World.t) :=
  match Chan.buf (Ch h) with
  | [] => Ret (h, w)
  | r :: q => tryToSend fuel r (set_Ch (Chan.Make q (Chan.cap (Ch h))) h) w
  end.

(** One tick of [Flush]; [Stream] starts the flusher only when
    [TCPOutBufFlushPeriodSec] is not 0. *)
Definition Flush_on_tick (fuel : nat) (h : Host) (w : World.t)
  : Res (Host * World.t) :=
  if (TCPOutBufFlushPeriodSec h =? 0)%Z then Ret (h, w)
  else tryToFlushIfNecessary fuel h w.

Definition step (fuel : nat) (a : Action) (h : Host) (w : World.t)
  : Res (Host * World.t) :=
  match a with
  | APush r => Ret (Push r h, w)
  | ARecv => Stream_recv fuel h w
  | ATick => Flush_on_tick fuel h w
  end.

(** The rounds of the [range] loop over what is left in the queue. *)
Fixpoint send_each (fuel : nat) (rs : list rec.Rec) (h : Host) (w : World.t)
  : Res (Host * World.t) :=
  match rs with
  | [] => Ret (h, w)
  | r :: rs' => '(h1, w1) <- tryToSend fuel r h w ;; send_each fuel rs' h1 w1
  end.

(** The end of [Stream], once the queue is closed: the records left in it
    are sent, then comes the last [tryToFlushIfNecessary]. *)
Definition Stream_end (fuel : nat) (h : Host) (w : World.t)
  : Res (Host * World.t) :=
  '(h1, w1) <- send_each fuel (Chan.buf (Ch h))
                 (set_Ch (Chan.Make [] (Chan.cap (Ch h))) h) w ;;
  tryToFlushIfNecessary fuel h1 w1.

(** A host from the actions on it until its queue is closed, and then to
    the return of [Stream]. *)
Fixpoint run (fuel : nat) (acts : list Action) (h : Host) (w : World.t)
  : Res (Host * World.t) :=
  match acts with
  | [] => Stream_end fuel h w
  | a :: rest => '(h1, w1) <- step fuel a h w ;; run fuel rest h1 w1
  end.

End HostRun.

(* ================================================================== *)
(** * The calls that reach a host *)

Module HostCalls.
Import Target.

(** One call at a time: [Push] by the dispatching workers; a round of
    the [range] loop of [Stream], a tick of [Flush] and the end of
    [Stream] (module [HostRun]); the methods these and the cluster code
    call on the host, [tryToSend], [tryToFlushIfNecessary],
    [checkUpdateHostStatus], [keepConnectionFresh] and
    [ensureConnection]; and time going by between two calls. *)
Inductive Call :=
| CPush (r : rec.Rec)
| CRecv
| CTick
| CStreamEnd
| CSend (r : rec.Rec)
| CFlush
| CProbe
| CFresh
| CEnsure
| CWait (d : Z).

Definition call (fuel : nat) (c : Call) (h : Host) (w : World.t)
  : Res (Host * World.t) :=
  match c with
  | CPush r => Ret (Push r h, w)
  | CRecv => HostRun.Stream_recv fuel h w
  | CTick => HostRun.Flush_on_tick fuel h w
  | CStreamEnd => HostRun.Stream_end fuel h w
  | CSend r => tryToSend fuel r h w
  | CFlush => tryToFlushIfNecessary fuel h w
  | CProbe => Ret (checkUpdateHostStatus h w)
  | CFresh => keepConnectionFresh fuel h w
  | CEnsure => ensureConnection fuel h w
  | CWait d => Ret (h, World.elapse d w)
  end.

Fixpoint calls (fuel : nat) (cs : list Call) (h : Host) (w : World.t)
  : Res (Host * World.t) :=
  match cs with
  | [] => Ret (h, w)
  | c :: rest => '(h1, w1) <- call fuel c h w ;; calls fuel rest h1 w1
  end.

End HostCalls.

(* ================================================================== *)
(** * strconv.Atoi and parseListenOption *)

Module strconv.

Inductive NumError := ErrSyntax | ErrRange.

Definition digit (b : byte) : option Z :=
  let n := Z.of_N (Byte.to_N b) in
  if ((48 <=? n) && (n <=? 57))%Z then Some (n - 48)%Z else None.

(** The digit loop of [ParseUint] in base 10 on 64 bits: a byte that is
    no digit is a syntax error, a value past [2^64 - 1] a range error, in
    the order they are met. *)
Fixpoint ParseUint_loop (acc : Z) (s : bytes) : Z * option NumError :=
  match s with
  | [] => (acc, None)
  | b :: s' =>
      match digit b with
      | None => (0%Z, Some ErrSyntax)
      | Some d =>
          let n := (acc * 10 + d)%Z in
          if (2 ^ 64 <=? n)%Z then ((2 ^ 64 - 1)%Z, Some ErrRange)
          else ParseUint_loop n s'
      end
  end.

(** [strconv.Atoi] on a 64-bit platform: an optional sign, then at least
    one digit; the value and the error. *)
Definition Atoi (s : bytes) : Z * option NumError :=
  match s with
  | [] => (0%Z, Some ErrSyntax)
  | c :: rest =>
      let neg := Byte.eqb c x2d in
      let body := if neg || Byte.eqb c x2b then rest else s in
      match body with
      | [] => (0%Z, Some ErrSyntax)
      | _ :: _ =>
          match ParseUint_loop 0 body with
          | (_, Some ErrSyntax) => (0%Z, Some ErrSyntax)
          | (un, _) =>
              if negb neg && (2 ^ 63 <=? un)%Z
              then ((2 ^ 63 - 1)%Z, Some ErrRange)
              else if neg && (2 ^ 63 <? un)%Z
                   then ((- 2 ^ 63)%Z, Some ErrRange)
                   else ((if neg then - un else un)%Z, None)
          end
      end
  end.

End strconv.

Module ListenOption.

(** The errors [parseListenOption] returns. *)
Inductive Error :=
| SplitError
| AtoiError (e : strconv.NumError)
| InvalidPort
| InvalidIP.

Section WithNet.

(** [net.SplitHostPort] ([None]: an error) and [net.ParseIP] ([None]: the
    nil address) of the Go standard library. *)
Variable SplitHostPort : bytes -> option (bytes * bytes).
Variable ParseIP : bytes -> option bytes.

(** [parseListenOption]: the address (None is nil), the port and the
    error (None is nil). *)
Definition parseListenOption (listenOption : bytes)
  : option bytes * Z * option Error :=
  match SplitHostPort listenOption with
  | None => (None, 0%Z, Some SplitError)
  | Some (ipStr, portStr) =>
      match strconv.Atoi portStr with
      | (port, Some e) => (None, port, Some (AtoiError e))
      | (port, None) =>
          if ((port <? 0) || (port >? 65535))%Z
          then (None, port, Some InvalidPort)
          else match ipStr with
               | [] => (None, port, None)
               | _ :: _ =>
                   match ParseIP ipStr with
                   | None => (None, port, Some InvalidIP)
                   | Some ip => (Some ip, port, None)
                   end
               end
      end
  end.

End WithNet.

End ListenOption.

(* ================================================================== *)
(** * Definitions used to state the properties *)

Definition has_LF (l : bytes) : bool := existsb is_LF l.

Module ListenerSpec.
Import Listener.

(** Sending a list of lines to the main queue, in order. *)
Definition send_all (ls : list bytes) (st : State) : State :=
  fold_left (fun s l => sendToMainQ l s) ls st.

(** A line the scanner accepts: no LF inside and shorter than the
    largest token. *)
Definition short_line (l : bytes) : bool :=
  negb (has_LF l) && (length l <? MaxScanTokenSize).

End ListenerSpec.

Module TargetSpec.
Import Target.

(** The periodic flusher at one tick of [Flush]: lock,
    [tryToFlushIfNecessary], unlock. *)
Definition Flush_tick (fuel : nat) (h : Host) (w : World.t)
  : Res (Host * World.t) :=
  tryToFlushIfNecessary fuel h w.

(** All the counters of a host, and its histogram. *)
Definition counters (h : Host) :=
  (outRecs h, outRecsTotal h, throttled h, throttledTotal h,
   stateChanges h, stateChangesTotal h,
   oldConnectionRefresh h, oldConnectionRefreshTotal h,
   processingDuration h).

(** 1 when the flag goes from true to false, 0 otherwise. *)
Definition down_edge (before after : bool) : nat :=
  if before && negb after then 1 else 0.

(** The durations slept in a trace, in milliseconds. *)
Fixpoint sleeps_ms (tr : list World.Event) : list Z :=
  match tr with
  | [] => []
  | World.EvSleep d :: tr' => (d / time.Millisecond)%Z :: sleeps_ms tr'
  | _ :: tr' => sleeps_ms tr'
  end.

(** The backoff as the specification words it: the first [n] waits of
    [wait <- min(max, wait*2 + delta)], from [wait]. *)
Fixpoint spec_waits (max delta wait : Z) (n : nat) : list Z :=
  match n with
  | 0 => []
  | S n' => wait :: spec_waits max delta (Z.min max (wait * 2 + delta)) n'
  end.

(** The test of [keepConnectionFresh] on a host with a connection. *)
Definition refresh_due (h : Host) (w : World.t) : bool :=
  negb (TCPOutConnectionRefreshPeriodSec h =? 0)%Z
  && (World.Since (LastConnUse (Conn h)) w
      >? TCPOutConnectionRefreshPeriodSec h)%Z.

(** The calls of [W.Write] in a trace: what was written and whether it
    failed. *)
Fixpoint writes (tr : list World.Event) : list (bytes * bool) :=
  match tr with
  | [] => []
  | World.EvWrite p e :: tr' => (p, e) :: writes tr'
  | _ :: tr' => writes tr'
  end.

(** The retry discipline of the sender, read off a trace.  A failed
    [W.Write] must be followed at once by the close of the connection
    whose write deadline was set last, then by a dial after a sleep of
    zero: the connection was nil when a connection was ensured again. *)
Inductive RetryState :=
| Idle (c : option nat)
| Failed (c : option nat)
| Closed
| Slept.

Definition retry_step (q : RetryState) (e : World.Event)
  : option RetryState :=
  match q, e with
  | Idle _, World.EvSetWriteDeadline c _ => Some (Idle (Some c))
  | Idle c, World.EvWrite _ true => Some (Failed c)
  | Idle c, _ => Some (Idle c)
  | Failed (Some c), World.EvClose c' =>
      if c =? c' then Some Closed else None
  | Closed, World.EvSleep 0 => Some Slept
  | Slept, World.EvDial _ => Some (Idle None)
  | _, _ => None
  end.

Fixpoint retry_run (q : RetryState) (tr : list World.Event)
  : option RetryState :=
  match tr with
  | [] => Some q
  | e :: tr' =>
      match retry_step q e with
      | Some q' => retry_run q' tr'
      | None => None
      end
  end.

Definition retry_discipline (tr : list World.Event) : bool :=
  match retry_run (Idle None) tr with
  | Some (Idle _) => true
  | _ => false
  end.

(** The readings of the clock. *)
Definition is_now (e : World.Event) : bool :=
  match e with
  | World.EvNow _ => true
  | _ => false
  end.

(** The outcomes of the dials in a trace, in order. *)
Fixpoint dials (tr : list World.Event) : list bool :=
  match tr with
  | [] => []
  | World.EvDial (Some _) :: tr' => true :: dials tr'
  | World.EvDial None :: tr' => false :: dials tr'
  | _ :: tr' => dials tr'
  end.

(** The connections closed in a trace, in order. *)
Fixpoint closes (tr : list World.Event) : list nat :=
  match tr with
  | [] => []
  | World.EvClose c :: tr' => c :: closes tr'
  | _ :: tr' => closes tr'
  end.

(** The calls made from [w] to [w'], when [w'] comes after [w]. *)
Definition events_since (w w' : World.t) : list World.Event :=
  skipn (length (World.trace w)) (World.trace w').

(** The number of [W.Write] calls that failed in a trace. *)
Definition failed_writes (tr : list World.Event) : nat :=
  length (filter (fun x : bytes * bool => snd x) (writes tr)).






(** The options a host is built with. *)
Definition config (h : Host) :=
  (Name h, Port h, SendTimeoutSec h, ConnTimeoutSec h, KeepAliveSec h,
   MaxReconnectPeriodMs h, ReconnectPeriodDeltaMs h,
   ConnectionLossThresholdMs h, TCPOutBufFlushPeriodSec h,
   TCPOutConnectionRefreshPeriodSec h, bufSize h).

(** The counters of the refreshes. *)
Definition refresh_frame (h : Host) :=
  (oldConnectionRefresh h, oldConnectionRefreshTotal h).

(** The connection of the host, when it has one, has been dialled. *)
Definition dialled (h : Host) (w : World.t) : Prop :=
  forall c, cConn (Conn h) = Some c -> c < length (World.socks w).

(** [w'] comes after [w] by the calls [tr]: the dials made are the ones
    logged, no connection disappears, none that was closed is open
    again, and the oracles of the network and of the clock are the
    same. *)
Definition evolves (w w' : World.t) (tr : list World.Event) : Prop :=
  World.trace w' = World.trace w ++ tr
  /\ World.ndial w' = World.ndial w + length (dials tr)
  /\ length (World.socks w) <= length (World.socks w')
  /\ (forall c, c < length (World.socks w) ->
      World.is_open c w = false -> World.is_open c w' = false)
  /\ World.dial_ok w' = World.dial_ok w
  /\ World.write_res w' = World.write_res w
  /\ World.lapse w' = World.lapse w.

(** Events that are neither a [W.Write] nor a write deadline. *)
Definition quiet_event (e : World.Event) : bool :=
  match e with
  | World.EvWrite _ _ | World.EvSetWriteDeadline _ _ => false
  | _ => true
  end.

(** A network that accepts every dial and every write from now on. *)
Definition healthy (w : World.t) : Prop :=
  (forall k, World.ndial w <= k -> World.dial_ok w k = true)
  /\ (forall k, World.nwrite w <= k -> World.write_res w k = None).

(** A configuration for the examples: reconnect cap and delta in
    milliseconds, refresh period in seconds, size of the output buffer;
    the other options are fixed. *)
Definition sample_cfg (max delta refresh bufsz : Z) : conf.Main :=
  conf.MkMain 2004 4 5 5 1 max delta 3000 2 refresh bufsz.

Definition sample_host : conf.Host := conf.MkHost "h1"%string 0.

Definition sample_rec : rec.Rec :=
  rec.MkRec (String.list_byte_of_string "a.b 1 17"%string ++ [LF]) 0.

(** The outcomes of the successive dials or writes, from a list; the
    network follows [dflt] once the list is used up. *)
Definition script (A : Type) (l : list A) (dflt : A) : nat -> A :=
  fun k => nth k l dflt.

(** What the sender counts on a delivery. *)
Definition send_frame (h : Host) :=
  (outRecs h, outRecsTotal h, processingDuration h).

(** [w'] is [w] after the calls [tr]. *)
Definition extends (w w' : World.t) (tr : list World.Event) : Prop :=
  World.trace w' = World.trace w ++ tr.

Definition quiet (tr : list World.Event) : Prop :=
  forallb quiet_event tr = true.

(** The writer of a host goes with its connection: the two are nil
    together, and the writer writes to the connection in the field. *)
Definition paired (h : Host) : bool :=
  match cConn (Conn h), W (Conn h) with
  | None, None => true
  | Some c, Some b => bufio.wr b =? c
  | _, _ => false
  end.

End TargetSpec.

Module MoreSpec.
Import Target.

(** The room left in the main queue. *)
Definition room (st : Listener.State) : nat :=
  Chan.cap (Listener.queue st) - length (Chan.buf (Listener.queue st)).

(** The complete lines of the datagrams read before the connection is
    found closed, in the order they are received. *)
Fixpoint received_lines (reads : list Listener.ReadResult) : list bytes :=
  match reads with
  | [] => []
  | Listener.Datagram d :: rest =>
      removelast (bytes_Split d) ++ received_lines rest
  | Listener.ReadError true :: _ => []
  | Listener.ReadError false :: rest => received_lines rest
  end.

(** The bytes a connection has been sent; none for a connection that was
    never dialled. *)
Definition delivered_on (c : nat) (w : World.t) : bytes :=
  match nth_error (World.socks w) c with
  | Some s => World.delivered s
  | None => []
  end.

(** What the calls of [W.Write] that succeeded wrote, in order. *)
Fixpoint sent (tr : list World.Event) : list bytes :=
  match tr with
  | [] => []
  | World.EvWrite p false :: tr' => p :: sent tr'
  | _ :: tr' => sent tr'
  end.

(** The queue of a host taken alone: the records that the actions hand
    to the sender, in the order they are handed, from the queue [q] of
    capacity [cap]. *)
Fixpoint handed (acts : list HostRun.Action) (q : list rec.Rec) (cap : nat)
  : list rec.Rec :=
  match acts with
  | [] => q
  | HostRun.APush r :: rest =>
      if cap <=? length q then handed rest q cap
      else handed rest (q ++ [r]) cap
  | HostRun.ARecv :: rest =>
      match q with
      | [] => handed rest [] cap
      | r :: q' => r :: handed rest q' cap
      end
  | HostRun.ATick :: rest => handed rest q cap
  end.

(** The pushes that find the queue full. *)
Fixpoint refused (acts : list HostRun.Action) (q : list rec.Rec) (cap : nat)
  : nat :=
  match acts with
  | [] => 0
  | HostRun.APush r :: rest =>
      if cap <=? length q then S (refused rest q cap)
      else refused rest (q ++ [r]) cap
  | HostRun.ARecv :: rest => refused rest (tl q) cap
  | HostRun.ATick :: rest => refused rest q cap
  end.

(** The records pushed, in order. *)
Fixpoint pushed (acts : list HostRun.Action) : list rec.Rec :=
  match acts with
  | [] => []
  | HostRun.APush r :: rest => r :: pushed rest
  | _ :: rest => pushed rest
  end.

(** What [Push] and the actions leave alone in the sender's books, and
    what the sender leaves alone in the queue's. *)
Definition queue_frame (h : Host) := (Ch h, throttled h, throttledTotal h).


(** A made-up [net.SplitHostPort] for examples: the text is cut at its
    first colon. *)
Fixpoint split_at_colon (s : bytes) : option (bytes * bytes) :=
  match s with
  | [] => None
  | b :: s' =>
      if Byte.eqb b x3a then Some ([], s')
      else match split_at_colon s' with
           | Some (l, r) => Some (b :: l, r)
           | None => None
           end
  end.

End MoreSpec.

(* ================================================================== *)
(** * Properties of the listeners *)

Section SplitFacts.

Lemma bytes_Split_not_nil (s : bytes) : bytes_Split s <> [].
Proof.
  destruct s as [|b s]; simpl; [discriminate|].
  destruct (is_LF b); [discriminate|].
  destruct (bytes_Split s); discriminate.
Qed.

Lemma is_LF_true (b : byte) : is_LF b = true -> b = LF.
Proof. unfold is_LF. apply Byte.byte_dec_bl. Qed.

(** Putting the separators back gives the input. *)
Lemma bytes_Split_join (s : bytes) :
  unlines (removelast (bytes_Split s)) ++ last (bytes_Split s) [] = s.
Proof.
  induction s as [|b s IH]; [reflexivity|].
  simpl bytes_Split.
  destruct (is_LF b) eqn:E.
  - apply is_LF_true in E. subst b.
    pose proof (bytes_Split_not_nil s) as Hne.
    destruct (bytes_Split s) as [|l ls] eqn:Es; [congruence|].
    change (unlines (removelast ([] :: l :: ls)) ++ last ([] :: l :: ls) [])
      with (LF :: (unlines (removelast (l :: ls)) ++ last (l :: ls) [])).
    now rewrite IH.
  - pose proof (bytes_Split_not_nil s) as Hne.
    destruct (bytes_Split s) as [|l ls] eqn:Es; [congruence|].
    destruct ls as [|l' ls].
    + simpl in *. now rewrite IH.
    + change (unlines (removelast ((b :: l) :: l' :: ls))
              ++ last ((b :: l) :: l' :: ls) [])
        with (b :: (unlines (removelast (l :: l' :: ls))
                    ++ last (l :: l' :: ls) [])).
      now rewrite IH.
Qed.

(** No fragment contains the separator. *)
Lemma bytes_Split_no_LF (s : bytes) :
  forallb (fun l => negb (has_LF l)) (bytes_Split s) = true.
Proof.
  induction s as [|b s IH]; [reflexivity|].
  simpl bytes_Split.
  destruct (is_LF b) eqn:E.
  - simpl. exact IH.
  - destruct (bytes_Split s) as [|l ls]; simpl in *.
    + now rewrite E.
    + unfold has_LF in *. simpl. now rewrite E.
Qed.

Lemma bytes_Split_app_LF (s : bytes) :
  bytes_Split (s ++ [LF]) = bytes_Split s ++ [[]].
Proof.
  induction s as [|b s IH]; [reflexivity|].
  simpl. rewrite IH.
  destruct (is_LF b); [reflexivity|].
  pose proof (bytes_Split_not_nil s) as Hne.
  destruct (bytes_Split s); [congruence | reflexivity].
Qed.

End SplitFacts.

Section ListenerFacts.
Import Listener ListenerSpec.

(** Reading a prefix of a list by index is [firstn]. *)
Lemma map_nth_seq (A : Type) (d : A) (l : list A) :
  forall k, k <= length l ->
  map (fun i => nth i l d) (seq 0 k) = firstn k l.
Proof.
  induction l as [|a l IH]; intros [|k] Hk; simpl in *; try reflexivity; try lia.
  f_equal. rewrite <- seq_shift, map_map. apply IH. lia.
Qed.

Lemma send_all_app (l1 l2 : list bytes) (st : State) :
  send_all (l1 ++ l2) st = send_all l2 (send_all l1 st).
Proof. apply fold_left_app. Qed.

(** The loop over the indices sends the fragments but the last. *)
Lemma listenUDP_datagram_send_all (d : bytes) (st : State) :
  listenUDP_datagram d st = send_all (removelast (bytes_Split d)) st.
Proof.
  unfold listenUDP_datagram, send_all.
  rewrite removelast_firstn_len.
  replace (Nat.pred (length (bytes_Split d))) with (length (bytes_Split d) - 1)
    by lia.
  rewrite <- (@map_nth_seq bytes (@nil byte) (bytes_Split d)
                (length (bytes_Split d) - 1)) by lia.
  generalize (seq 0 (length (bytes_Split d) - 1)). intros idx. revert st.
  induction idx as [|i idx IH]; intros st; simpl; [reflexivity | apply IH].
Qed.

(** Every send moves exactly one of the two counters by one. *)
Lemma sendToMainQ_counts (rec : bytes) (st : State) :
  InRecs (ms (sendToMainQ rec st)) + ThrottledRecs (ms (sendToMainQ rec st))
  = S (InRecs (ms st) + ThrottledRecs (ms st)).
Proof.
  unfold sendToMainQ. destruct (Chan.try_send (queue st) rec); simpl; lia.
Qed.

Lemma send_all_counts (ls : list bytes) :
  forall st,
  InRecs (ms (send_all ls st)) + ThrottledRecs (ms (send_all ls st))
  = InRecs (ms st) + ThrottledRecs (ms st) + length ls.
Proof.
  induction ls as [|l ls IH]; intros st; simpl; [lia|].
  unfold send_all in *. simpl. rewrite IH, sendToMainQ_counts. lia.
Qed.

End ListenerFacts.

(** C6.  For every UDP datagram, the payload is split on LF and exactly the
    fragments before the last one are sent to the main queue, in order, one
    send each.  The fragments are LF-free and, with their LF put back and
    the trailing fragment appended, make up the datagram: the discarded
    trailing fragment is what follows the last LF (the whole datagram when
    it has no LF).  A datagram that ends in LF has an empty trailing
    fragment, so all of it is sent as lines. *)
Theorem listenUDP_pushes_complete_lines (d : bytes) (st : Listener.State) :
  let lines := bytes_Split d in
  let complete := removelast lines in
  let trailing := last lines [] in
  Listener.listenUDP_datagram d st = ListenerSpec.send_all complete st
  /\ lines = complete ++ [trailing]
  /\ d = unlines complete ++ trailing
  /\ forallb (fun l => negb (has_LF l)) complete = true
  /\ has_LF trailing = false
  /\ Listener.InRecs (Listener.ms (Listener.listenUDP_datagram d st))
     + Listener.ThrottledRecs (Listener.ms (Listener.listenUDP_datagram d st))
     = Listener.InRecs (Listener.ms st)
       + Listener.ThrottledRecs (Listener.ms st) + length complete
  /\ last (bytes_Split (d ++ [LF])) [] = []
  /\ unlines (removelast (bytes_Split (d ++ [LF]))) = d ++ [LF].
Proof.
  intros lines complete trailing.
  assert (Hsplit : lines = complete ++ [trailing]).
  { apply app_removelast_last, bytes_Split_not_nil. }
  pose proof (bytes_Split_no_LF d) as Hno.
  fold lines in Hno. rewrite Hsplit, forallb_app in Hno.
  apply andb_true_iff in Hno. destruct Hno as [Hc Ht].
  simpl in Ht. rewrite andb_true_r in Ht. apply negb_true_iff in Ht.
  repeat split; try assumption.
  - apply listenUDP_datagram_send_all.
  - symmetry. apply bytes_Split_join.
  - rewrite listenUDP_datagram_send_all. apply send_all_counts.
  - rewrite bytes_Split_app_LF. apply last_last.
  - rewrite bytes_Split_app_LF, removelast_last.
    pose proof (bytes_Split_join (d ++ [LF])) as Hj.
    rewrite bytes_Split_app_LF, removelast_last, last_last, app_nil_r in Hj.
    exact Hj.
Qed.

(** C7.  A send to the main queue never blocks and has exactly two
    outcomes.  On a full queue the line is dropped: the queue is unchanged
    and [throttled_in] ([ThrottledRecs]) grows by one, [in_recs] stays.
    Otherwise the line is appended to the queue and [in_recs] ([InRecs])
    grows by one, [throttled_in] stays. *)
Theorem sendToMainQ_nonblocking (rec : bytes) (st : Listener.State) :
  let st' := Listener.sendToMainQ rec st in
  (Chan.full (Listener.queue st) = true
   /\ Listener.queue st' = Listener.queue st
   /\ Listener.ThrottledRecs (Listener.ms st')
      = S (Listener.ThrottledRecs (Listener.ms st))
   /\ Listener.InRecs (Listener.ms st') = Listener.InRecs (Listener.ms st))
  \/
  (Chan.full (Listener.queue st) = false
   /\ Chan.buf (Listener.queue st') = Chan.buf (Listener.queue st) ++ [rec]
   /\ Chan.cap (Listener.queue st') = Chan.cap (Listener.queue st)
   /\ Listener.InRecs (Listener.ms st') = S (Listener.InRecs (Listener.ms st))
   /\ Listener.ThrottledRecs (Listener.ms st')
      = Listener.ThrottledRecs (Listener.ms st)).
Proof.
  unfold Listener.sendToMainQ, Chan.try_send. simpl.
  destruct (Chan.full (Listener.queue st)); simpl; [left | right]; auto.
Qed.

Section ScannerFacts.
Import Listener ListenerSpec.

Variable limit : nat.

(** A line that fits is a token, whatever was pending before it. *)
Lemma scan_lines_line (l : bytes) :
  forall cur n input,
  has_LF l = false -> n + length l < limit ->
  scan_lines limit cur n (l ++ LF :: input)
  = (dropCR (rev cur ++ l) :: fst (scan_lines limit [] 0 input),
     snd (scan_lines limit [] 0 input)).
Proof.
  induction l as [|b l IH]; intros cur n input Hl Hn.
  - simpl. rewrite app_nil_r.
    now destruct (scan_lines limit [] 0 input).
  - simpl in Hl. apply orb_false_iff in Hl. destruct Hl as [Hb Hl].
    simpl. rewrite Hb.
    assert (Hlim : (limit <=? S n) = false) by (apply Nat.leb_gt; simpl in Hn; lia).
    rewrite Hlim, IH by (simpl in *; auto; lia).
    simpl. now rewrite <- app_assoc.
Qed.

(** Lines that fit are scanned one after the other. *)
Lemma scan_lines_pre (pre : list bytes) (input : bytes) :
  forallb (fun l => negb (has_LF l) && (length l <? limit)) pre = true ->
  scan_lines limit [] 0 (unlines pre ++ input)
  = (map dropCR pre ++ fst (scan_lines limit [] 0 input),
     snd (scan_lines limit [] 0 input)).
Proof.
  induction pre as [|l pre IH]; intros Hpre.
  - simpl. now destruct (scan_lines limit [] 0 input).
  - simpl in Hpre. apply andb_true_iff in Hpre. destruct Hpre as [Hl Hpre].
    apply andb_true_iff in Hl. destruct Hl as [Hno Hlen].
    apply negb_true_iff in Hno. apply Nat.ltb_lt in Hlen.
    unfold unlines. simpl. rewrite <- !app_assoc. simpl.
    rewrite scan_lines_line by (auto; lia).
    fold (unlines pre). rewrite IH by assumption. reflexivity.
Qed.

(** [limit] pending bytes without LF end the scan, whatever follows. *)
Lemma scan_lines_long (long : bytes) :
  forall cur n rest,
  has_LF long = false -> n < limit -> limit <= n + length long ->
  scan_lines limit cur n (long ++ rest) = ([], ErrTooLong).
Proof.
  induction long as [|b long IH]; intros cur n rest Hl Hn Hlen.
  - simpl in Hlen. lia.
  - simpl in Hl. apply orb_false_iff in Hl. destruct Hl as [Hb Hl].
    simpl. rewrite Hb.
    destruct (limit <=? S n) eqn:E; [reflexivity|].
    apply Nat.leb_gt in E. apply IH; simpl in *; auto; lia.
Qed.

End ScannerFacts.

(** C9, as the code has it.  On the TCP ingest path a line of
    [MaxScanTokenSize] bytes or more ends the scan with [ErrTooLong]: the
    lines before it are sent to the main queue (those seen before [stop]
    fires), the over-length line and everything after it on the connection
    are not, and no counter moves for them. *)
Theorem scanForRecordsTCP_stops_at_overlength
        (pre : list bytes) (long rest : bytes) (stop_after : option nat)
        (st : Listener.State) :
  forallb ListenerSpec.short_line pre = true ->
  has_LF long = false ->
  Listener.MaxScanTokenSize <= length long ->
  let input := unlines pre ++ long ++ rest in
  snd (Listener.scan_lines Listener.MaxScanTokenSize [] 0 input)
  = Listener.ErrTooLong
  /\ Listener.scanForRecordsTCP input stop_after st
     = ListenerSpec.send_all
         (match stop_after with
          | Some k => firstn k (map Listener.dropCR pre)
          | None => map Listener.dropCR pre
          end) st.
Proof.
  intros Hpre Hlong Hlen input.
  assert (Hpos : 0 < Listener.MaxScanTokenSize).
  { apply Nat.ltb_lt. vm_compute. reflexivity. }
  assert (Hscan : Listener.scan_lines Listener.MaxScanTokenSize [] 0 input
                  = (map Listener.dropCR pre, Listener.ErrTooLong)).
  { unfold input. rewrite scan_lines_pre by exact Hpre.
    rewrite scan_lines_long by (auto; lia). simpl. now rewrite app_nil_r. }
  split.
  - now rewrite Hscan.
  - unfold Listener.scanForRecordsTCP, Listener.Scanner_tokens.
    rewrite Hscan. reflexivity.
Qed.

(** A run of one letter has no LF. *)
Lemma has_LF_repeat_a (n : nat) : has_LF (repeat x61 n) = false.
Proof. induction n as [|n IH]; [reflexivity | exact IH]. Qed.

(** The statement above on a connection that sends one short line, a
    line of [MaxScanTokenSize] letters and one more short line. *)
Lemma scanForRecordsTCP_stops_at_overlength_witness :
  let pre := [String.list_byte_of_string "a 1 1"%string] in
  let long := repeat x61 Listener.MaxScanTokenSize in
  let rest := LF :: String.list_byte_of_string "b 2 2"%string ++ [LF] in
  forallb ListenerSpec.short_line pre = true
  /\ Listener.scanForRecordsTCP (unlines pre ++ long ++ rest) None
       (Listener.Listen_queue 8)
     = ListenerSpec.send_all pre (Listener.Listen_queue 8).
Proof.
  intros pre long rest.
  split; [vm_compute; reflexivity|].
  apply (scanForRecordsTCP_stops_at_overlength pre long rest None
           (Listener.Listen_queue 8)).
  - vm_compute; reflexivity.
  - apply has_LF_repeat_a.
  - unfold long. rewrite repeat_length. apply Nat.le_refl.
Defined.

(** C9 as stated fails: an over-length line followed by a complete line,
    read into an empty queue with room.  Nothing is queued, the following
    line included, and no counter has moved; the following line alone is
    scanned as one token. *)
Lemma scanForRecordsTCP_overlength_counterexample :
  let long := repeat x61 Listener.MaxScanTokenSize in
  let next := String.list_byte_of_string "b 2 2"%string in
  let st' := Listener.scanForRecordsTCP (long ++ [LF] ++ next ++ [LF]) None
               (Listener.Listen_queue 8) in
  Chan.buf (Listener.queue st') = []
  /\ Listener.ms st' = Listener.MkProm 0 0
  /\ Listener.Scanner_tokens (next ++ [LF]) = [next].
Proof.
  intros long next st'.
  assert (Hscan : Listener.scan_lines Listener.MaxScanTokenSize [] 0
                    (long ++ [LF] ++ next ++ [LF])
                  = ([], Listener.ErrTooLong)).
  { apply scan_lines_long.
    - apply has_LF_repeat_a.
    - apply Nat.ltb_lt. vm_compute. reflexivity.
    - unfold long. rewrite repeat_length. apply Nat.le_refl. }
  unfold st', Listener.scanForRecordsTCP, Listener.Scanner_tokens.
  rewrite Hscan. simpl.
  split; [reflexivity|]. split; [reflexivity|].
  vm_compute. reflexivity.
Qed.

(* ================================================================== *)
(** * Properties of the host *)

(** C8.  [Push] never blocks and has exactly two outcomes.  On a full
    host queue the record is dropped: the queue is unchanged, the host's
    [throttled] counter ([throttled_out]) and its process-wide total grow
    by one, and nothing else moves.  Otherwise the record is appended to
    the queue as it is and no counter changes. *)
Theorem Push_nonblocking (r : rec.Rec) (h : Target.Host) :
  let h' := Target.Push r h in
  (Chan.full (Target.Ch h) = true
   /\ Target.Ch h' = Target.Ch h
   /\ Target.throttled h' = S (Target.throttled h)
   /\ TargetSpec.counters h'
      = (Target.outRecs h, Target.outRecsTotal h,
         S (Target.throttled h), S (Target.throttledTotal h),
         Target.stateChanges h, Target.stateChangesTotal h,
         Target.oldConnectionRefresh h, Target.oldConnectionRefreshTotal h,
         Target.processingDuration h))
  \/
  (Chan.full (Target.Ch h) = false
   /\ Chan.buf (Target.Ch h') = Chan.buf (Target.Ch h) ++ [r]
   /\ Chan.cap (Target.Ch h') = Chan.cap (Target.Ch h)
   /\ TargetSpec.counters h' = TargetSpec.counters h).
Proof.
  destruct h. unfold Target.Push, Chan.try_send. simpl.
  destruct (Chan.full Ch); simpl; [left | right]; auto.
Qed.

(** C10.  A host fresh from [NewHost] is available, with no connection
    and no state change counted, before any dial.  Its first dial attempt
    ([Connect] with attempt count 1) leaves the flag equal to the outcome
    of that dial: a failure flips it to false and counts one state
    change. *)
Theorem NewHost_available (clusterName : String.string) (mainCfg : conf.Main)
        (hostCfg : conf.Host) (w : World.t) :
  let h := Target.NewHost clusterName mainCfg hostCfg in
  let h1 := fst (Target.Connect 1 h w) in
  Target.Available h = true
  /\ Target.cConn (Target.Conn h) = None
  /\ Target.stateChanges h = 0
  /\ Target.Available h1 = World.dial_ok w (World.ndial w)
  /\ Target.stateChanges h1
     = (if World.dial_ok w (World.ndial w) then 0 else 1).
Proof.
  unfold Target.NewHost, Target.Connect, Target.getConnectionToHost, World.Dial.
  simpl. destruct (World.dial_ok w (World.ndial w)); simpl; auto.
Qed.



Section Backoff.
Import Target.

(** The update of the wait in [ensureConnection] is the formula of the
    specification on the host's own fields, as long as the 32-bit sum
    does not wrap. *)
Lemma next_wait_formula (h : Host) (wait : Z) :
  (0 <= wait <= MaxReconnectPeriodMs h)%Z ->
  (0 <= ReconnectPeriodDeltaMs h)%Z ->
  (wait * 2 + ReconnectPeriodDeltaMs h < 2 ^ 32)%Z ->
  next_wait h wait
  = Z.min (MaxReconnectPeriodMs h) (wait * 2 + ReconnectPeriodDeltaMs h).
Proof.
  intros Hw Hd Hs. unfold next_wait, u32.
  rewrite Z.mod_small by lia.
  destruct (wait <? MaxReconnectPeriodMs h)%Z eqn:E1.
  - destruct (wait * 2 + ReconnectPeriodDeltaMs h >=? MaxReconnectPeriodMs h)%Z
      eqn:E2; lia.
  - destruct (wait >=? MaxReconnectPeriodMs h)%Z eqn:E2; lia.
Qed.

(** [NewHost] fills the delta of the host with the cap of the
    configuration: the wait of such a host jumps from 0 to the cap and
    stays there. *)
Lemma NewHost_wait_jumps_to_max (cl : String.string) (m : conf.Main)
      (hc : conf.Host) :
  (0 <= conf.MaxHostReconnectPeriodMs m < 2 ^ 32)%Z ->
  let h := NewHost cl m hc in
  ReconnectPeriodDeltaMs h = conf.MaxHostReconnectPeriodMs m
  /\ next_wait h 0 = conf.MaxHostReconnectPeriodMs m
  /\ next_wait h (conf.MaxHostReconnectPeriodMs m)
     = conf.MaxHostReconnectPeriodMs m.
Proof.
  intros Hm. unfold NewHost, next_wait, u32. simpl.
  rewrite Z.mod_small by lia.
  repeat split.
  - destruct (0 <? conf.MaxHostReconnectPeriodMs m)%Z eqn:E1;
      destruct (_ >=? _)%Z eqn:E2; lia.
  - rewrite Z.ltb_irrefl.
    destruct (_ >=? _)%Z eqn:E2; lia.
Qed.

End Backoff.

(** C2 at the failing input: cap 1000 ms and delta 10 ms in the
    configuration, a target that refuses three dials.  The host built by
    [NewHost] has the cap as its delta, and [ensureConnection] sleeps 0,
    1000, 1000, 1000 ms where the formula of the claim with the
    configured delta gives 0, 10, 30, 70. *)
Theorem ensureConnection_backoff_uses_max_as_delta :
  let cfg := TargetSpec.sample_cfg 1000 10 0 4096 in
  let h := Target.NewHost "c1"%string cfg TargetSpec.sample_host in
  let w := World.init 0 (TargetSpec.script [false; false; false] true)
             (fun _ => None) in
  conf.HostReconnectPeriodDeltaMs cfg = 10%Z
  /\ Target.ReconnectPeriodDeltaMs h = 1000%Z
  /\ match Target.ensureConnection 4 h w with
     | Target.Ret (_, w') =>
         TargetSpec.sleeps_ms (World.trace w') = [0; 1000; 1000; 1000]%Z
     | _ => False
     end
  /\ TargetSpec.spec_waits (conf.MaxHostReconnectPeriodMs cfg)
       (conf.HostReconnectPeriodDeltaMs cfg) 0 4
     = [0; 10; 30; 70]%Z.
Proof. vm_compute. repeat split. Qed.

Section Refresh.
Import Target.

(** With the option at 0 [keepConnectionFresh] does nothing. *)
Lemma keepConnectionFresh_off (fuel : nat) (h : Host) (w : World.t) :
  TCPOutConnectionRefreshPeriodSec h = 0%Z ->
  keepConnectionFresh fuel h w = Ret (h, w).
Proof. intros E. unfold keepConnectionFresh. now rewrite E. Qed.

(** Without a connection [keepConnectionFresh] does nothing. *)
Lemma keepConnectionFresh_nil (fuel : nat) (h : Host) (w : World.t) :
  cConn (Conn h) = None ->
  keepConnectionFresh fuel h w = Ret (h, w).
Proof.
  intros E. unfold keepConnectionFresh. rewrite E.
  now destruct (negb (TCPOutConnectionRefreshPeriodSec h =? 0)%Z).
Qed.

(** With the option on and a connection, the clock is read; when the
    test fails at that reading nothing else happens. *)
Lemma keepConnectionFresh_not_due (fuel : nat) (h : Host) (w : World.t)
      (c : nat) :
  cConn (Conn h) = Some c ->
  TCPOutConnectionRefreshPeriodSec h <> 0%Z ->
  TargetSpec.refresh_due h (World.tick w) = false ->
  keepConnectionFresh fuel h w = Ret (h, World.tick w).
Proof.
  unfold TargetSpec.refresh_due, keepConnectionFresh. intros Hc Hp E.
  apply Z.eqb_neq in Hp. rewrite Hp in *. rewrite Hc.
  cbn [negb andb World.Now] in *. now rewrite E.
Qed.

(** When it succeeds on a host with a connection, the refresh is
    counted and the connection is closed; the connection field still
    holds it, so no new connection is dialled. *)
Lemma keepConnectionFresh_due (fuel : nat) (h : Host) (w : World.t) (c : nat) :
  cConn (Conn h) = Some c ->
  TargetSpec.refresh_due h (World.tick w) = true ->
  keepConnectionFresh fuel h w
  = Ret (inc_oldConnectionRefreshTotal (inc_oldConnectionRefresh h),
         World.Close c (World.tick w)).
Proof.
  unfold TargetSpec.refresh_due, keepConnectionFresh. intros Hc E.
  apply andb_true_iff in E. destruct E as [E1 E2].
  rewrite E1, Hc. cbn [World.Now]. rewrite E2. unfold ensureConnection.
  destruct h, fuel; simpl in *; now rewrite Hc.
Qed.

(** The three cases of [keepConnectionFresh] on a host with a
    connection. *)
Lemma keepConnectionFresh_cases (fuel : nat) (h : Host) (w : World.t)
      (c : nat) :
  cConn (Conn h) = Some c ->
  (TCPOutConnectionRefreshPeriodSec h = 0%Z
   /\ keepConnectionFresh fuel h w = Ret (h, w))
  \/ (TCPOutConnectionRefreshPeriodSec h <> 0%Z
      /\ TargetSpec.refresh_due h (World.tick w) = false
      /\ keepConnectionFresh fuel h w = Ret (h, World.tick w))
  \/ (TargetSpec.refresh_due h (World.tick w) = true
      /\ keepConnectionFresh fuel h w
         = Ret (inc_oldConnectionRefreshTotal (inc_oldConnectionRefresh h),
                World.Close c (World.tick w))).
Proof.
  intros Hc.
  destruct (Z.eq_dec (TCPOutConnectionRefreshPeriodSec h) 0) as [E|E].
  - left. split; [exact E | now apply keepConnectionFresh_off].
  - destruct (TargetSpec.refresh_due h (World.tick w)) eqn:Ed.
    + right. right. split; [reflexivity|].
      now apply keepConnectionFresh_due.
    + right. left. split; [exact E|]. split; [reflexivity|].
      now apply (@keepConnectionFresh_not_due fuel h w c).
Qed.

End Refresh.

(** C3 at the failing input: a refresh period of 10 seconds and a live
    connection last used one second ago.  [keepConnectionFresh] counts a
    refresh and closes the connection, the period being compared as 10
    nanoseconds; the connection field keeps the closed connection and no
    dial is made to reopen it. *)
Theorem keepConnectionFresh_compares_nanoseconds :
  let cfg := TargetSpec.sample_cfg 1000 10 10 4096 in
  let h0 := Target.NewHost "c1"%string cfg TargetSpec.sample_host in
  let w0 := World.init 0 (fun _ => true) (fun _ => None) in
  let h1 := fst (Target.Connect 1 h0 w0) in
  let w1 := snd (Target.Connect 1 h0 w0) in
  let w2 := World.elapse (1 * time.Second) w1 in
  Target.cConn (Target.Conn h1) = Some 0
  /\ World.is_open 0 w2 = true
  /\ World.Since (Target.LastConnUse (Target.Conn h1)) w2 = (1 * time.Second)%Z
  /\ (1 * time.Second
      <? Target.TCPOutConnectionRefreshPeriodSec h1 * time.Second)%Z = true
  /\ match Target.keepConnectionFresh 4 h1 w2 with
     | Target.Ret (h', w') =>
         Target.oldConnectionRefresh h' = 1
         /\ World.is_open 0 w' = false
         /\ Target.cConn (Target.Conn h') = Some 0
         /\ World.ndial w' = World.ndial w2
     | _ => False
     end.
Proof. vm_compute. repeat split. Qed.

(* ================================================================== *)
(** * Traces of the host's methods *)

Section Traces.
Import Target TargetSpec.

Lemma extends_refl (w : World.t) : extends w w [].
Proof. unfold extends. now rewrite app_nil_r. Qed.

Lemma extends_trans (w1 w2 w3 : World.t) (t1 t2 : list World.Event) :
  extends w1 w2 t1 -> extends w2 w3 t2 -> extends w1 w3 (t1 ++ t2).
Proof. unfold extends. intros H1 H2. now rewrite H2, H1, app_assoc. Qed.

Lemma extends_log (e : World.Event) (w : World.t) :
  extends w (World.log e w) [e].
Proof. reflexivity. Qed.

Lemma quiet_app (t1 t2 : list World.Event) :
  quiet t1 -> quiet t2 -> quiet (t1 ++ t2).
Proof. unfold quiet. intros H1 H2. now rewrite forallb_app, H1, H2. Qed.

Lemma retry_run_app (t1 t2 : list World.Event) :
  forall q,
  retry_run q (t1 ++ t2)
  = match retry_run q t1 with
    | Some q' => retry_run q' t2
    | None => None
    end.
Proof.
  induction t1 as [|e t1 IH]; intros q; simpl; [reflexivity|].
  destruct (retry_step q e); auto.
Qed.

Lemma retry_run_quiet (tr : list World.Event) :
  forall c, quiet tr -> retry_run (Idle c) tr = Some (Idle c).
Proof.
  unfold quiet.
  induction tr as [|e tr IH]; intros c H; simpl in *; [reflexivity|].
  apply andb_true_iff in H. destruct H as [He H].
  destruct e; simpl in *; try discriminate; auto.
Qed.

Lemma writes_app (t1 t2 : list World.Event) :
  writes (t1 ++ t2) = writes t1 ++ writes t2.
Proof.
  induction t1 as [|e t1 IH]; simpl; [reflexivity|].
  destruct e; simpl; now rewrite ?IH.
Qed.

Lemma writes_quiet (tr : list World.Event) : quiet tr -> writes tr = [].
Proof.
  unfold quiet.
  induction tr as [|e tr IH]; intros H; simpl in *; [reflexivity|].
  apply andb_true_iff in H. destruct H as [He H].
  destruct e; simpl in *; try discriminate; auto.
Qed.

(** *** The library calls *)

Lemma Dial_extends (w w' : World.t) (x : option nat) :
  World.Dial w = (x, w') -> extends w w' [World.EvDial x].
Proof.
  unfold World.Dial. destruct (World.dial_ok w (World.ndial w));
    intros H; inversion H; subst; reflexivity.
Qed.

Lemma ConnWrite_extends (c : nat) (p : bytes) (w w' : World.t)
      (n : nat) (e : bool) :
  World.ConnWrite c p w = (n, e, w') ->
  extends w w' [World.EvConnWrite c p n e].
Proof.
  unfold World.ConnWrite. destruct (World.is_open c w);
    intros H; inversion H; subst; reflexivity.
Qed.

Lemma flush_extends (b b' : bufio.Writer) (w w' : World.t) (e : bool) :
  bufio.flush b w = (b', e, w') ->
  exists tr, extends w w' tr /\ quiet tr.
Proof.
  unfold bufio.flush. destruct (bufio.err b).
  - intros H; inversion H; subst. exists []. split; [apply extends_refl | reflexivity].
  - destruct (bufio.buf b) as [|x l] eqn:Eb.
    + intros H; inversion H; subst. exists []. split; [apply extends_refl | reflexivity].
    + destruct (World.ConnWrite (bufio.wr b) (x :: l) w) as [[n e1] w1] eqn:Ew.
      apply ConnWrite_extends in Ew.
      destruct e1; intros H; inversion H; subst; eexists; split; eauto; reflexivity.
Qed.

Lemma write_loop_extends (rounds : nat) :
  forall b p w b' p' w',
  bufio.write_loop rounds b p w = (b', p', w') ->
  exists tr, extends w w' tr /\ quiet tr.
Proof.
  induction rounds as [|rounds IH]; intros b p w b' p' w' H; simpl in H.
  - inversion H; subst. exists []. split; [apply extends_refl | reflexivity].
  - destruct ((bufio.Available b <? length p) && negb (bufio.err b)).
    + destruct (bufio.buf b) as [|x l] eqn:Eb.
      * destruct (World.ConnWrite (bufio.wr b) p w) as [[n e1] w1] eqn:Ew.
        apply ConnWrite_extends in Ew.
        apply IH in H. destruct H as [tr [Ht Hq]].
        eexists. split; [eapply extends_trans; eauto|].
        apply quiet_app; [reflexivity | assumption].
      * destruct (bufio.flush _ w) as [[b2 e2] w1] eqn:Ef.
        apply flush_extends in Ef. destruct Ef as [t1 [Ht1 Hq1]].
        apply IH in H. destruct H as [tr [Ht Hq]].
        eexists. split; [eapply extends_trans; eauto|].
        now apply quiet_app.
    + inversion H; subst. exists []. split; [apply extends_refl | reflexivity].
Qed.

Lemma Write_extends (b b' : bufio.Writer) (p : bytes) (w w' : World.t)
      (e : bool) :
  bufio.Write b p w = (b', e, w') ->
  exists tr, extends w w' (tr ++ [World.EvWrite p e]) /\ quiet tr.
Proof.
  unfold bufio.Write.
  destruct (bufio.write_loop 3 b p w) as [[b1 p1] w1] eqn:El.
  apply write_loop_extends in El. destruct El as [tr [Ht Hq]].
  destruct (bufio.err b1); intros H; inversion H; subst;
    exists tr; (split; [|assumption]);
    (eapply extends_trans; [eassumption | apply extends_log]).
Qed.

End Traces.

(* ================================================================== *)
(** * How the world moves *)

Section WorldFacts.
Import Target TargetSpec MoreSpec.

Lemma nth_error_update_same (A : Type) (f : A -> A) (l : list A) :
  forall i, nth_error (World.update l i f) i = option_map f (nth_error l i).
Proof. induction l as [|x l IH]; intros [|i]; simpl; auto. Qed.

Lemma nth_error_update_other (A : Type) (f : A -> A) (l : list A) :
  forall i j, i <> j ->
  nth_error (World.update l i f) j = nth_error l j.
Proof.
  induction l as [|x l IH]; intros [|i] [|j] Hij; simpl; auto; try congruence.
Qed.

Lemma length_update (A : Type) (f : A -> A) (l : list A) :
  forall i, length (World.update l i f) = length l.
Proof. induction l as [|x l IH]; intros [|i]; simpl; auto. Qed.

Lemma dials_app (t1 t2 : list World.Event) :
  dials (t1 ++ t2) = dials t1 ++ dials t2.
Proof.
  induction t1 as [|e t1 IH]; simpl; [reflexivity|].
  destruct e as [| [c|] | | | | | |]; simpl; now rewrite ?IH.
Qed.

Lemma closes_app (t1 t2 : list World.Event) :
  closes (t1 ++ t2) = closes t1 ++ closes t2.
Proof.
  induction t1 as [|e t1 IH]; simpl; [reflexivity|].
  destruct e; simpl; now rewrite ?IH.
Qed.

Lemma quiet_dials_closes_of_now (tr : list World.Event) :
  forallb is_now tr = true -> closes tr = [].
Proof.
  induction tr as [|e tr IH]; simpl; [reflexivity|].
  destruct e; simpl; try discriminate. exact IH.
Qed.

(** The calls between two worlds are determined by the worlds. *)
Lemma events_since_extends (w w' : World.t) (tr : list World.Event) :
  extends w w' tr -> events_since w w' = tr.
Proof.
  unfold extends, events_since. intros ->.
  rewrite skipn_app, skipn_all, Nat.sub_diag. reflexivity.
Qed.

Lemma extends_inj (w w' : World.t) (t1 t2 : list World.Event) :
  extends w w' t1 -> extends w w' t2 -> t1 = t2.
Proof.
  intros H1 H2. apply events_since_extends in H1, H2. congruence.
Qed.

Lemma evolves_extends (w w' : World.t) (tr : list World.Event) :
  evolves w w' tr -> extends w w' tr.
Proof. intros [H _]. exact H. Qed.

Lemma evolves_refl (w : World.t) : evolves w w [].
Proof.
  unfold evolves. rewrite app_nil_r. simpl. repeat split; auto; lia.
Qed.

Lemma evolves_trans (w1 w2 w3 : World.t) (t1 t2 : list World.Event) :
  evolves w1 w2 t1 -> evolves w2 w3 t2 -> evolves w1 w3 (t1 ++ t2).
Proof.
  intros [A1 [B1 [C1 [D1 [E1 [F1 G1]]]]]] [A2 [B2 [C2 [D2 [E2 [F2 G2]]]]]].
  split; [rewrite A2, A1, app_assoc; reflexivity|].
  split; [rewrite dials_app, length_app; lia|].
  split; [lia|].
  split; [intros c Hc Ho; apply D2; [lia|]; now apply D1|].
  split; [congruence|]. split; congruence.
Qed.

(** A call that is no dial and leaves the connections as they are. *)
Lemma evolves_log (e : World.Event) (w : World.t) :
  dials [e] = [] -> evolves w (World.log e w) [e].
Proof.
  intros Hd. unfold evolves. rewrite Hd. simpl.
  repeat split; auto; lia.
Qed.

Lemma evolves_tick (w : World.t) :
  evolves w (World.tick w) [World.EvNow (World.now (World.tick w))].
Proof. unfold evolves. simpl. repeat split; auto; lia. Qed.

Lemma evolves_Sleep (d : Z) (w : World.t) :
  evolves w (World.Sleep d w) [World.EvSleep d].
Proof. unfold evolves. simpl. repeat split; auto; lia. Qed.

Lemma is_open_Close_same (c : nat) (w : World.t) :
  World.is_open c (World.Close c w) = false.
Proof.
  unfold World.is_open, World.Close. simpl.
  rewrite nth_error_update_same.
  destruct (nth_error (World.socks w) c); reflexivity.
Qed.

Lemma is_open_Close_other (c x : nat) (w : World.t) :
  c <> x -> World.is_open x (World.Close c w) = World.is_open x w.
Proof.
  intros Hne. unfold World.is_open, World.Close. simpl.
  now rewrite nth_error_update_other.
Qed.

Lemma is_open_Close_false (c x : nat) (w : World.t) :
  World.is_open x w = false -> World.is_open x (World.Close c w) = false.
Proof.
  intros H. destruct (Nat.eq_dec c x) as [->|Hne].
  - apply is_open_Close_same.
  - now rewrite is_open_Close_other.
Qed.

Lemma delivered_on_Close (c x : nat) (w : World.t) :
  delivered_on x (World.Close c w) = delivered_on x w.
Proof.
  unfold delivered_on, World.Close. simpl.
  destruct (Nat.eq_dec c x) as [->|Hne].
  - rewrite nth_error_update_same.
    destruct (nth_error (World.socks w) x); reflexivity.
  - now rewrite nth_error_update_other.
Qed.

Lemma evolves_Close (c : nat) (w : World.t) :
  evolves w (World.Close c w) [World.EvClose c].
Proof.
  unfold evolves. split; [reflexivity|]. split; [simpl; lia|].
  split; [simpl; rewrite length_update; lia|].
  split; [intros x _ Hx; now apply is_open_Close_false|].
  repeat split.
Qed.

Lemma evolves_Dial (w w' : World.t) (x : option nat) :
  World.Dial w = (x, w') -> evolves w w' [World.EvDial x].
Proof.
  unfold World.Dial. destruct (World.dial_ok w (World.ndial w));
    intros H; inversion H; subst; clear H; unfold evolves; simpl.
  - split; [reflexivity|]. split; [lia|].
    split; [rewrite length_app; simpl; lia|].
    split; [|repeat split].
    intros c Hc Ho. unfold World.is_open in *. simpl.
    now rewrite nth_error_app1.
  - repeat split; auto; lia.
Qed.

(** A write to a connection opens and closes nothing. *)
Lemma ConnWrite_socks (c : nat) (p : bytes) (w w' : World.t)
      (n : nat) (e : bool) :
  World.ConnWrite c p w = (n, e, w') ->
  length (World.socks w') = length (World.socks w)
  /\ World.ndial w' = World.ndial w
  /\ forall x, World.is_open x w' = World.is_open x w.
Proof.
  unfold World.ConnWrite. destruct (World.is_open c w) eqn:Ho;
    intros H; inversion H; subst; clear H; simpl; [|auto].
  split; [apply length_update|]. split; [reflexivity|].
  intros x. unfold World.is_open. simpl.
  destruct (Nat.eq_dec c x) as [->|Hne].
  - rewrite nth_error_update_same.
    destruct (nth_error (World.socks w) x); reflexivity.
  - now rewrite nth_error_update_other.
Qed.

Lemma evolves_ConnWrite (c : nat) (p : bytes) (w w' : World.t)
      (n : nat) (e : bool) :
  World.ConnWrite c p w = (n, e, w') ->
  evolves w w' [World.EvConnWrite c p n e].
Proof.
  intros H. pose proof (ConnWrite_extends _ _ _ H) as Ht.
  pose proof (ConnWrite_socks _ _ _ H) as [Hl [Hn Ho]].
  unfold evolves. split; [exact Ht|]. split; [simpl; lia|].
  split; [lia|]. split; [intros x _ Hx; now rewrite Ho|].
  revert H. unfold World.ConnWrite.
  destruct (World.is_open c w); intros H; inversion H; subst;
    repeat split.
Qed.

(** What a write to a connection delivers. *)
Lemma ConnWrite_conserves (c : nat) (p : bytes) (w w' : World.t)
      (n : nat) (e : bool) :
  World.ConnWrite c p w = (n, e, w') ->
  delivered_on c w' = delivered_on c w ++ firstn n p
  /\ (forall x, x <> c -> delivered_on x w' = delivered_on x w)
  /\ (e = false -> n = length p).
Proof.
  unfold World.ConnWrite. destruct (World.is_open c w) eqn:Ho;
    intros H; inversion H; subst; clear H.
  - unfold delivered_on, World.is_open in *. simpl.
    split; [|split].
    + rewrite nth_error_update_same.
      destruct (nth_error (World.socks w) c); [reflexivity | discriminate].
    + intros x Hx. rewrite nth_error_update_other by congruence. reflexivity.
    + destruct (World.write_res w (World.nwrite w)); [discriminate | auto].
  - unfold delivered_on. simpl. rewrite app_nil_r.
    split; [reflexivity|]. split; [reflexivity | discriminate].
Qed.

(** The writer: the bytes it was given are on the connection or in its
    buffer, whatever the network does; it opens and closes nothing. *)
Lemma flush_conserves (b b' : bufio.Writer) (w w' : World.t) (e : bool) :
  bufio.flush b w = (b', e, w') ->
  bufio.wr b' = bufio.wr b /\ bufio.size b' = bufio.size b
  /\ bufio.err b' = e
  /\ delivered_on (bufio.wr b) w' ++ bufio.buf b'
     = delivered_on (bufio.wr b) w ++ bufio.buf b
  /\ (forall x, x <> bufio.wr b -> delivered_on x w' = delivered_on x w)
  /\ (e = false -> bufio.buf b' = [])
  /\ (forall x, World.is_open x w' = World.is_open x w)
  /\ exists tr, evolves w w' tr /\ closes tr = [] /\ quiet tr.
Proof.
  unfold bufio.flush. destruct (bufio.err b) eqn:Ee.
  - intros H; inversion H; subst.
    split; [reflexivity|]. split; [reflexivity|]. split; [exact Ee|].
    split; [reflexivity|]. split; [reflexivity|]. split; [discriminate|].
    split; [reflexivity|].
    exists []. split; [apply evolves_refl|]. split; reflexivity.
  - destruct (bufio.buf b) as [|x l] eqn:Eb.
    + intros H; inversion H; subst. rewrite Eb.
      split; [reflexivity|]. split; [reflexivity|]. split; [exact Ee|].
      split; [reflexivity|]. split; [reflexivity|]. split; [reflexivity|].
      split; [reflexivity|].
      exists []. split; [apply evolves_refl|]. split; reflexivity.
    + destruct (World.ConnWrite (bufio.wr b) (x :: l) w) as [[n e1] w1] eqn:Ew.
      pose proof (ConnWrite_conserves _ _ _ Ew) as [Hd [Ho Hn]].
      pose proof (evolves_ConnWrite _ _ _ Ew) as Hev.
      pose proof (ConnWrite_socks _ _ _ Ew) as [_ [_ Hop]].
      destruct e1; intros H; inversion H; subst; clear H; simpl.
      * split; [reflexivity|]. split; [reflexivity|]. split; [reflexivity|].
        split; [rewrite Hd, <- app_assoc, firstn_skipn; reflexivity|].
        split; [exact Ho|]. split; [discriminate|]. split; [exact Hop|].
        eexists. split; [exact Hev|]. split; reflexivity.
      * split; [reflexivity|]. split; [reflexivity|]. split; [reflexivity|].
        split; [rewrite Hd, (Hn eq_refl), firstn_all, app_nil_r; reflexivity|].
        split; [exact Ho|]. split; [reflexivity|]. split; [exact Hop|].
        eexists. split; [exact Hev|]. split; reflexivity.
Qed.

Lemma write_loop_conserves (rounds : nat) :
  forall b p w b' p' w',
  bufio.write_loop rounds b p w = (b', p', w') ->
  bufio.wr b' = bufio.wr b /\ bufio.size b' = bufio.size b
  /\ delivered_on (bufio.wr b) w' ++ bufio.buf b' ++ p'
     = delivered_on (bufio.wr b) w ++ bufio.buf b ++ p
  /\ (forall x, x <> bufio.wr b -> delivered_on x w' = delivered_on x w)
  /\ (forall x, World.is_open x w' = World.is_open x w)
  /\ exists tr, evolves w w' tr /\ closes tr = [] /\ quiet tr.
Proof.
  induction rounds as [|rounds IH]; intros b p w b' p' w' H; simpl in H.
  - inversion H; subst. repeat split; auto.
    exists []. split; [apply evolves_refl|]. split; reflexivity.
  - destruct ((bufio.Available b <? length p) && negb (bufio.err b)).
    + destruct (bufio.buf b) as [|x l] eqn:Eb.
      * destruct (World.ConnWrite (bufio.wr b) p w) as [[n e1] w1] eqn:Ew.
        pose proof (ConnWrite_conserves _ _ _ Ew) as [Hd [Ho Hn]].
        pose proof (evolves_ConnWrite _ _ _ Ew) as Hev.
        pose proof (ConnWrite_socks _ _ _ Ew) as [_ [_ Hop]].
        apply IH in H. simpl in H.
        destruct H as [Hw [Hs [Hc [Hx [Hop' [tr [Ht [Hcl Hq]]]]]]]].
        split; [exact Hw|]. split; [exact Hs|].
        split; [rewrite Hc, Hd, <- app_assoc; simpl;
                rewrite firstn_skipn; reflexivity|].
        split; [intros y Hy; rewrite Hx, Ho by exact Hy; reflexivity|].
        split; [intros y; rewrite Hop', Hop; reflexivity|].
        eexists. split; [exact (evolves_trans Hev Ht)|].
        split; [exact Hcl|].
        apply (@quiet_app [_] tr); [reflexivity | exact Hq].
      * destruct (bufio.flush _ w) as [[b2 e2] w1] eqn:Ef.
        apply flush_conserves in Ef. simpl in Ef.
        destruct Ef as [Fw [Fs [_ [Fc [Fx [_ [Fop [t1 [Ft1 [Fcl Fq]]]]]]]]]].
        apply IH in H.
        destruct H as [Hw [Hs [Hc [Hx [Hop' [tr [Ht [Hcl Hq]]]]]]]].
        rewrite Fw in *.
        split; [exact Hw|]. split; [congruence|].
        split; [rewrite Hc, app_assoc, Fc, <- !app_assoc;
                f_equal; simpl; f_equal;
                rewrite <- app_assoc, firstn_skipn; reflexivity|].
        split; [intros y Hy; rewrite Hx, Fx by exact Hy; reflexivity|].
        split; [intros y; rewrite Hop', Fop; reflexivity|].
        exists (t1 ++ tr). split; [exact (evolves_trans Ft1 Ht)|].
        split; [rewrite closes_app, Fcl, Hcl; reflexivity|].
        now apply quiet_app.
    + inversion H; subst. repeat split; auto.
      exists []. split; [apply evolves_refl|]. split; reflexivity.
Qed.

(** [W.Write]: when it reports no error, the bytes the connection has
    got followed by the ones in the buffer have grown by the text. *)
Lemma Write_conserves (b b' : bufio.Writer) (p : bytes) (w w' : World.t)
      (e : bool) :
  bufio.Write b p w = (b', e, w') ->
  bufio.wr b' = bufio.wr b /\ bufio.size b' = bufio.size b
  /\ bufio.err b' = e
  /\ (e = false ->
      delivered_on (bufio.wr b) w' ++ bufio.buf b'
      = delivered_on (bufio.wr b) w ++ bufio.buf b ++ p)
  /\ (forall x, x <> bufio.wr b -> delivered_on x w' = delivered_on x w)
  /\ (forall x, World.is_open x w' = World.is_open x w)
  /\ exists tr,
       evolves w w' (tr ++ [World.EvWrite p e]) /\ closes tr = []
       /\ quiet tr.
Proof.
  unfold bufio.Write.
  destruct (bufio.write_loop 3 b p w) as [[b1 p1] w1] eqn:El.
  apply write_loop_conserves in El.
  destruct El as [Hw [Hs [Hc [Hx [Hop [tr [Ht [Hcl Hq]]]]]]]].
  destruct (bufio.err b1) eqn:Ee; intros H; inversion H; subst; clear H; simpl.
  - split; [exact Hw|]. split; [exact Hs|]. split; [exact Ee|].
    split; [discriminate|]. split; [exact Hx|]. split; [exact Hop|].
    exists tr. split; [|split; [exact Hcl | exact Hq]].
    apply (evolves_trans Ht). now apply evolves_log.
  - split; [exact Hw|]. split; [exact Hs|]. split; [reflexivity|].
    split; [intros _; rewrite <- Hc; reflexivity|]. split; [exact Hx|].
    split; [exact Hop|].
    exists tr. split; [|split; [exact Hcl | exact Hq]].
    apply (evolves_trans Ht). now apply evolves_log.
Qed.

End WorldFacts.

Section SenderFacts.
Import Target TargetSpec.

(** Clock readings are quiet, and are no sleep, dial, close or write. *)
Lemma now_quiet (tr : list World.Event) :
  forallb is_now tr = true -> quiet tr.
Proof.
  unfold quiet. induction tr as [|e tr IH]; simpl; [reflexivity|].
  destruct e; simpl; try discriminate. exact IH.
Qed.

Lemma now_sleeps_ms (tr : list World.Event) :
  forallb is_now tr = true -> sleeps_ms tr = [].
Proof.
  induction tr as [|e tr IH]; simpl; [reflexivity|].
  destruct e; simpl; try discriminate. exact IH.
Qed.

Lemma now_dials (tr : list World.Event) :
  forallb is_now tr = true -> dials tr = [].
Proof.
  induction tr as [|e tr IH]; simpl; [reflexivity|].
  destruct e; simpl; try discriminate. exact IH.
Qed.

Lemma tick_extends (w : World.t) :
  extends w (World.tick w) [World.EvNow (World.now (World.tick w))].
Proof. reflexivity. Qed.

(** [Connect] makes one dial and, when it succeeds, one reading of the
    clock. *)
Lemma Connect_spec (a : Z) (h h' : Host) (w w' : World.t) :
  Connect a h w = (h', w') ->
  send_frame h' = send_frame h
  /\ exists x tr',
       extends w w' (World.EvDial x :: tr') /\ forallb is_now tr' = true.
Proof.
  unfold Connect, getConnectionToHost.
  destruct (World.Dial w) as [x w1] eqn:Ed.
  apply Dial_extends in Ed.
  destruct h. unfold Available_CAS. simpl. intros H.
  destruct x as [c|].
  - inversion H; subst. split; [reflexivity|].
    exists (Some c), [World.EvNow (World.now (World.tick w1))].
    split; [|reflexivity].
    apply (extends_trans Ed (tick_extends w1)).
  - destruct (a =? 1)%Z; [destruct Available0|]; simpl in H;
      inversion H; subst; (split; [reflexivity|]);
      exists None, []; (split; [exact Ed | reflexivity]).
Qed.

(** A run of [ensureConnection] that returns leaves a connection, makes
    only sleeps and dials, and starts with the sleep of the current wait
    and a dial when there was no connection. *)
Lemma ensureConnection_loop_spec (fuel : nat) :
  forall wait a h w h' w',
  ensureConnection_loop fuel wait a h w = Ret (h', w') ->
  send_frame h' = send_frame h
  /\ cConn (Conn h') <> None
  /\ exists tr,
       extends w w' tr /\ quiet tr
       /\ (cConn (Conn h) = None ->
           exists x tr',
             tr = World.EvSleep (wait * time.Millisecond) :: World.EvDial x :: tr').
Proof.
  induction fuel as [|fuel IH]; intros wait a h w h' w' H; simpl in H.
  - destruct (cConn (Conn h)) eqn:Ec; [|discriminate].
    inversion H; subst. split; [reflexivity|]. split; [congruence|].
    exists []. split; [apply extends_refl|]. split; [reflexivity|].
    congruence.
  - destruct (cConn (Conn h)) eqn:Ec.
    + inversion H; subst. split; [reflexivity|]. split; [congruence|].
      exists []. split; [apply extends_refl|]. split; [reflexivity|].
      congruence.
    + destruct (Connect a h (World.Sleep (wait * time.Millisecond) w))
        as [h1 w2] eqn:Econ.
      apply Connect_spec in Econ. destruct Econ as [Hf [x [tn [Hx Hn]]]].
      apply IH in H. destruct H as [Hf' [Hc [tr [Ht [Hq _]]]]].
      split; [congruence|]. split; [assumption|].
      exists (World.EvSleep (wait * time.Millisecond) :: World.EvDial x
              :: tn ++ tr).
      split; [|split].
      * unfold extends in *. rewrite Ht, Hx. simpl.
        rewrite <- !app_assoc. reflexivity.
      * apply (@quiet_app (_ :: _ :: tn) tr); [|exact Hq].
        apply (@quiet_app [_; _] tn); [reflexivity | now apply now_quiet].
      * intros _. eauto.
Qed.

Lemma keepConnectionFresh_spec (fuel : nat) (h h' : Host) (w w' : World.t) :
  cConn (Conn h) <> None ->
  keepConnectionFresh fuel h w = Ret (h', w') ->
  send_frame h' = send_frame h
  /\ cConn (Conn h') = cConn (Conn h)
  /\ W (Conn h') = W (Conn h)
  /\ exists tr, extends w w' tr /\ quiet tr.
Proof.
  intros Hc.
  destruct (cConn (Conn h)) as [c|] eqn:Ec; [|congruence].
  destruct (@keepConnectionFresh_cases fuel h w c Ec)
    as [[_ E] | [[_ [_ E]] | [_ E]]]; rewrite E;
    intros H; inversion H; subst.
  - repeat split; try congruence.
    exists []. split; [apply extends_refl | reflexivity].
  - repeat split; try congruence.
    eexists. split; [apply tick_extends | reflexivity].
  - split; [destruct h; reflexivity|]. split; [destruct h; exact Ec|].
    split; [destruct h; reflexivity|].
    exists [World.EvNow (World.now (World.tick w)); World.EvClose c].
    split; [|reflexivity].
    apply (extends_trans (tick_extends w)
             (extends_log (World.EvClose c) (World.tick w))).
Qed.

(** What a returning [ensureConnection] does to the retry automaton:
    from rest, or right after the close that follows a failed write, it
    comes to rest. *)
Lemma ensureConnection_retry (fuel : nat) (h h' : Host) (w w' : World.t)
      (q : RetryState) :
  q = Idle None \/ (q = Closed /\ cConn (Conn h) = None) ->
  ensureConnection fuel h w = Ret (h', w') ->
  send_frame h' = send_frame h
  /\ cConn (Conn h') <> None
  /\ exists tr,
       extends w w' tr /\ writes tr = []
       /\ retry_run q tr = Some (Idle None).
Proof.
  intros Hq H. unfold ensureConnection in H.
  apply ensureConnection_loop_spec in H.
  destruct H as [Hf [Hc [tr [Ht [Hqu Hhead]]]]].
  split; [assumption|]. split; [assumption|].
  exists tr. split; [assumption|]. split; [now apply writes_quiet|].
  destruct Hq as [-> | [-> Hnil]].
  - now apply retry_run_quiet.
  - destruct (Hhead Hnil) as [x [tr' ->]].
    change (0 * time.Millisecond)%Z with 0%Z. simpl.
    apply retry_run_quiet. unfold quiet in *. simpl in Hqu. exact Hqu.
Qed.

End SenderFacts.

Section ConnectFacts.
Import Target TargetSpec MoreSpec.

(** [Connect] by the outcome of its dial. *)
Lemma Connect_ok (a : Z) (h : Host) (w : World.t) :
  World.dial_ok w (World.ndial w) = true ->
  Connect a h w
  = (set_Available true
       (set_Conn (Connection_New (length (World.socks w)) (bufSize h)
                    (World.now (World.tick (snd (World.Dial w))))) h),
     World.tick (snd (World.Dial w))).
Proof.
  intros Hd. unfold Connect, getConnectionToHost, World.Dial.
  rewrite Hd. reflexivity.
Qed.

Lemma Connect_fail (a : Z) (h : Host) (w : World.t) :
  World.dial_ok w (World.ndial w) = false ->
  Connect a h w
  = (if (a =? 1)%Z && Available h
     then inc_stateChangesTotal
            (inc_stateChanges (set_Available false (set_cConn None h)))
     else set_cConn None h,
     snd (World.Dial w)).
Proof.
  intros Hd. unfold Connect, getConnectionToHost, World.Dial.
  rewrite Hd. destruct h. unfold Available_CAS. simpl.
  destruct (a =? 1)%Z; [destruct Available0|]; reflexivity.
Qed.

(** The world after a dial. *)
Lemma Dial_ok_facts (w : World.t) :
  World.dial_ok w (World.ndial w) = true ->
  World.socks (snd (World.Dial w)) = World.socks w ++ [World.MkSock true []]
  /\ World.is_open (length (World.socks w)) (snd (World.Dial w)) = true
  /\ delivered_on (length (World.socks w)) (snd (World.Dial w)) = [].
Proof.
  intros Hd. unfold World.Dial. rewrite Hd.
  unfold World.is_open, delivered_on. simpl.
  rewrite nth_error_app2, Nat.sub_diag by lia. auto.
Qed.

Lemma Connect_evolves (a : Z) (h h' : Host) (w w' : World.t) :
  Connect a h w = (h', w') ->
  exists tr, evolves w w' tr /\ closes tr = [].
Proof.
  destruct (World.dial_ok w (World.ndial w)) eqn:Hd.
  - rewrite (Connect_ok a h w Hd). intros H; inversion H; subst.
    destruct (World.Dial w) as [x w1] eqn:Ed. simpl.
    apply evolves_Dial in Ed.
    eexists. split; [exact (evolves_trans Ed (evolves_tick w1))|].
    reflexivity.
  - rewrite (Connect_fail a h w Hd). intros H; inversion H; subst.
    destruct (World.Dial w) as [x w1] eqn:Ed. simpl.
    apply evolves_Dial in Ed.
    eexists. split; [exact Ed | reflexivity].
Qed.

Lemma Connect_config (a : Z) (h h' : Host) (w w' : World.t) :
  Connect a h w = (h', w') ->
  config h' = config h /\ refresh_frame h' = refresh_frame h.
Proof.
  destruct (World.dial_ok w (World.ndial w)) eqn:Hd.
  - rewrite (Connect_ok a h w Hd). intros H; inversion H; subst.
    destruct h; split; reflexivity.
  - rewrite (Connect_fail a h w Hd). intros H; inversion H; subst.
    destruct h as [? ? ? av ? ? ? ? ? ? ? ? ? ? ? ? ? ? ? ? ? ? ?].
    destruct (a =? 1)%Z, av; split; reflexivity.
Qed.

Lemma ensureConnection_loop_evolves (fuel : nat) :
  forall wait a h w h' w',
  ensureConnection_loop fuel wait a h w = Ret (h', w') ->
  config h' = config h /\ refresh_frame h' = refresh_frame h
  /\ exists tr, evolves w w' tr /\ closes tr = [].
Proof.
  induction fuel as [|fuel IH]; intros wait a h w h' w' H; simpl in H;
    destruct (cConn (Conn h)) eqn:Ec; try discriminate.
  - inversion H; subst. split; [reflexivity|]. split; [reflexivity|].
    exists []. split; [apply evolves_refl | reflexivity].
  - inversion H; subst. split; [reflexivity|]. split; [reflexivity|].
    exists []. split; [apply evolves_refl | reflexivity].
  - destruct (Connect a h (World.Sleep (wait * time.Millisecond) w))
      as [h1 w2] eqn:Econ.
    pose proof (Connect_config _ _ _ Econ) as [Hcf Hrf].
    apply Connect_evolves in Econ. destruct Econ as [t1 [Ht1 Hc1]].
    apply IH in H. destruct H as [Hcf' [Hrf' [t2 [Ht2 Hc2]]]].
    split; [congruence|]. split; [congruence|].
    exists ([World.EvSleep (wait * time.Millisecond)] ++ t1 ++ t2).
    split.
    + apply (evolves_trans (evolves_Sleep _ w)).
      exact (evolves_trans Ht1 Ht2).
    + simpl. rewrite closes_app, Hc1, Hc2. reflexivity.
Qed.

Lemma ensureConnection_loop_connected (fuel : nat) (wait a : Z) (h : Host)
      (w : World.t) (c : nat) :
  cConn (Conn h) = Some c ->
  ensureConnection_loop fuel wait a h w = Ret (h, w).
Proof. intros Hc. destruct fuel; simpl; now rewrite Hc. Qed.

(** The connection a returning [ensureConnection] had to make: it is
    new, open, has been sent nothing and comes with an empty writer
    bound to it. *)
Lemma ensureConnection_loop_fresh (fuel : nat) :
  forall wait a h w h' w',
  cConn (Conn h) = None ->
  ensureConnection_loop fuel wait a h w = Ret (h', w') ->
  exists c b,
    cConn (Conn h') = Some c /\ W (Conn h') = Some b
    /\ bufio.wr b = c /\ bufio.buf b = [] /\ bufio.err b = false
    /\ length (World.socks w) <= c /\ c < length (World.socks w')
    /\ World.is_open c w' = true /\ delivered_on c w' = []
    /\ LastConnUse (Conn h') = World.now w'.
Proof.
  induction fuel as [|fuel IH]; intros wait a h w h' w' Hc H; simpl in H;
    rewrite Hc in H; [discriminate|].
  set (ws := World.Sleep (wait * time.Millisecond) w) in *.
  destruct (World.dial_ok ws (World.ndial ws)) eqn:Hd.
  - rewrite (Connect_ok a h ws Hd) in H.
    rewrite (@ensureConnection_loop_connected fuel _ _ _ _
               (length (World.socks ws))) in H by (destruct h; reflexivity).
    inversion H; subst h' w'. clear H.
    destruct (Dial_ok_facts ws Hd) as [Hs [Ho Hdl]].
    exists (length (World.socks w)),
      (bufio.NewWriterSize (length (World.socks w)) (bufSize h)).
    split; [destruct h; reflexivity|]. split; [destruct h; reflexivity|].
    split; [reflexivity|]. split; [reflexivity|]. split; [reflexivity|].
    split; [lia|].
    split; [change (World.socks (World.tick (snd (World.Dial ws))))
              with (World.socks (snd (World.Dial ws)));
            rewrite Hs, length_app; simpl; lia|].
    split; [exact Ho|]. split; [exact Hdl|].
    destruct h; reflexivity.
  - rewrite (Connect_fail a h ws Hd) in H.
    apply IH in H;
      [|destruct h as [? ? ? av ? ? ? ? ? ? ? ? ? ? ? ? ? ? ? ? ? ? ?];
        destruct (a =? 1)%Z, av; reflexivity].
    destruct H as [c [b [H1 [H2 [H3 [H4 [H5 [H6 H7]]]]]]]].
    exists c, b. repeat (split; [assumption|]).
    split; [|exact H7].
    assert (Hl : length (World.socks w)
                 <= length (World.socks (snd (World.Dial ws)))).
    { unfold World.Dial. rewrite Hd. simpl. lia. }
    lia.
Qed.

(** A connection that is kept has been dialled. *)
Lemma ensureConnection_loop_dialled (fuel : nat) (wait a : Z)
      (h h' : Host) (w w' : World.t) :
  dialled h w ->
  ensureConnection_loop fuel wait a h w = Ret (h', w') ->
  dialled h' w'.
Proof.
  intros Hwf H. destruct (cConn (Conn h)) as [c|] eqn:Ec.
  - rewrite (ensureConnection_loop_connected _ _ _ _ _ Ec) in H.
    inversion H; subst. exact Hwf.
  - destruct (ensureConnection_loop_fresh _ _ _ _ _ Ec H)
      as [c [b [H1 [_ [_ [_ [_ [_ [H7 _]]]]]]]]].
    intros x Hx. congruence.
Qed.

End ConnectFacts.

Section SenderLoop.
Import Target TargetSpec MoreSpec.

Variable fuel : nat.
Variable r : rec.Rec.

(** [keepConnectionFresh] on a host with a connection: it reads the
    clock at most once and closes at most the host's connection, which
    it keeps in place with its writer; nothing is dialled, written or
    counted but the refresh. *)
Lemma keepConnectionFresh_kept (h h' : Host) (w w' : World.t) (c : nat) :
  cConn (Conn h) = Some c ->
  keepConnectionFresh fuel h w = Ret (h', w') ->
  exists tr,
    evolves w w' tr /\ quiet tr /\ dials tr = []
    /\ (forall x, In x (closes tr) -> x = c /\ World.is_open c w' = false)
    /\ Conn h' = Conn h
    /\ send_frame h' = send_frame h /\ config h' = config h
    /\ queue_frame h' = queue_frame h
    /\ (Available h', stateChanges h', stateChangesTotal h')
       = (Available h, stateChanges h, stateChangesTotal h)
    /\ (forall x, delivered_on x w' = delivered_on x w)
    /\ length (World.socks w') = length (World.socks w)
    /\ (TCPOutConnectionRefreshPeriodSec h = 0%Z -> h' = h /\ w' = w).
Proof.
  intros Hc H.
  destruct (@keepConnectionFresh_cases fuel h w c Hc)
    as [[Hp E] | [[Hp [Hd E]] | [Hd E]]];
    rewrite E in H; inversion H; subst h' w'; clear H E.
  - exists []. split; [apply evolves_refl|].
    repeat (split; [reflexivity|]).
    split; [intros x []|]. repeat (split; [reflexivity|]). auto.
  - exists [World.EvNow (World.now (World.tick w))].
    split; [apply evolves_tick|].
    repeat (split; [reflexivity|]).
    split; [intros x []|]. do 7 (split; [reflexivity|]).
    intros Hp'. congruence.
  - exists ([World.EvNow (World.now (World.tick w))] ++ [World.EvClose c]).
    split; [exact (evolves_trans (evolves_tick w)
                     (evolves_Close c (World.tick w)))|].
    repeat (split; [reflexivity|]).
    split; [intros x [<-|[]]; split; [reflexivity|];
            apply is_open_Close_same|].
    split; [destruct h; reflexivity|]. split; [destruct h; reflexivity|].
    split; [destruct h; reflexivity|]. split; [destruct h; reflexivity|].
    split; [destruct h; reflexivity|].
    split; [intros x; rewrite delivered_on_Close; reflexivity|].
    split; [simpl; apply length_update|].
    intros Hp. unfold refresh_due in Hd. rewrite Hp in Hd. discriminate.
Qed.

(** One round of the retry loop, unfolded. *)
Lemma tryToSend_loop_S (n : nat) (h : Host) (w : World.t) :
  tryToSend_loop fuel (S n) r h w
  = ('(h1, w1) <- ensureConnection fuel h w ;;
     '(h2, w2) <- keepConnectionFresh fuel h1 w1 ;;
     match cConn (Conn h2), W (Conn h2) with
     | Some c, Some b =>
         let '(b1, err, w4) :=
           bufio.Write b (rec.Serialize r)
             (World.SetWriteDeadline c
                (World.now (World.tick w2) + SendTimeoutSec h2 * time.Second)
                (World.tick w2)) in
         if negb err then
           Ret (set_LastConnUse (World.now (World.tick (World.tick w4)))
                  (observe_processingDuration
                     (World.now (World.tick w4) - rec.Received r)
                     (inc_outRecsTotal (inc_outRecs (set_W (Some b1) h2)))),
                World.tick (World.tick w4))
         else tryToSend_loop fuel n r (set_cConn None (set_W (Some b1) h2))
                (World.Close c w4)
     | _, _ => Panic
     end).
Proof. reflexivity. Qed.

(** What comes before the write in a round: a connection is there,
    either the one the host had, untouched but for a close when it was
    refreshed, or a new one with an empty writer. *)
Lemma tryToSend_prelude (h h1 h2 : Host) (w w1 w2 : World.t)
      (q : RetryState) :
  q = Idle None \/ (q = Closed /\ cConn (Conn h) = None) ->
  ensureConnection fuel h w = Ret (h1, w1) ->
  keepConnectionFresh fuel h1 w1 = Ret (h2, w2) ->
  exists tp c,
    evolves w w2 tp /\ writes tp = []
    /\ retry_run q tp = Some (Idle None)
    /\ cConn (Conn h2) = Some c
    /\ (dialled h w -> c < length (World.socks w2))
    /\ (forall x, In x (closes tp) -> x = c /\ World.is_open c w2 = false)
    /\ send_frame h2 = send_frame h /\ config h2 = config h
    /\ match cConn (Conn h) with
       | Some c0 =>
           c = c0 /\ W (Conn h2) = W (Conn h)
           /\ forall x, delivered_on x w2 = delivered_on x w
       | None =>
           length (World.socks w) <= c
           /\ (exists b, W (Conn h2) = Some b /\ bufio.wr b = c
                         /\ bufio.buf b = [] /\ bufio.err b = false)
           /\ delivered_on c w2 = []
           /\ (TCPOutConnectionRefreshPeriodSec h = 0%Z ->
               World.is_open c w2 = true)
       end.
Proof.
  intros Hq E1 E2.
  destruct (@ensureConnection_retry fuel h h1 w w1 q Hq E1)
    as [Hf1 [Hc1 [t1 [Ht1 [Hw1 Hr1]]]]].
  unfold ensureConnection in E1.
  pose proof (fun Hwf => @ensureConnection_loop_dialled fuel 0 1 h h1 w w1
                           Hwf E1) as Hwf1.
  pose proof E1 as E1'. apply ensureConnection_loop_evolves in E1'.
  destruct E1' as [Hcf1 [_ [t1' [Hev1 Hcl1]]]].
  assert (t1' = t1)
    by (eapply extends_inj; [apply evolves_extends; eassumption | exact Ht1]).
  subst t1'.
  destruct (cConn (Conn h1)) as [c|] eqn:Ec1; [|congruence].
  destruct (@keepConnectionFresh_kept h1 h2 w1 w2 c Ec1 E2)
    as [t2 [Hev2 [Hq2 [_ [Hcl2 [HC [Hf2 [Hcf2 [_ [_ [Hdl [Hlen Hoff]]]]]]]]]]]].
  exists (t1 ++ t2), c.
  split; [exact (evolves_trans Hev1 Hev2)|].
  split; [rewrite writes_app, Hw1, (writes_quiet Hq2); reflexivity|].
  split; [rewrite retry_run_app, Hr1; now apply retry_run_quiet|].
  split; [rewrite HC; exact Ec1|].
  split; [intros Hwf; rewrite Hlen; apply (Hwf1 Hwf); exact Ec1|].
  split; [intros x Hx; rewrite closes_app, Hcl1 in Hx; now apply Hcl2|].
  split; [congruence|]. split; [congruence|].
  destruct (cConn (Conn h)) as [c0|] eqn:Ec.
  - rewrite (ensureConnection_loop_connected _ _ _ _ _ Ec) in E1.
    inversion E1; subst h1 w1.
    split; [congruence|]. split; [rewrite HC; reflexivity | exact Hdl].
  - destruct (ensureConnection_loop_fresh _ _ _ _ _ Ec E1)
      as [c' [b [G1 [G2 [G3 [G4 [G5 [G6 [G7 [G8 [G9 _]]]]]]]]]]].
    assert (Hcc : c' = c) by congruence. rewrite Hcc in *. clear Hcc.
    split; [exact G6|].
    split; [exists b; rewrite HC; auto|].
    split; [rewrite Hdl; exact G9|].
    intros Hp. destruct Hoff as [_ ->]; [|exact G8].
    unfold config in Hcf1. congruence.
Qed.

(** The retry loop, from rest or right after the close that follows a
    failed write: the calls it makes, what it counts, and where the
    record is when it returns. *)
Lemma tryToSend_loop_spec (n : nat) :
  forall h w q h' w',
  q = Idle None \/ (q = Closed /\ cConn (Conn h) = None) ->
  tryToSend_loop fuel n r h w = Ret (h', w') ->
  exists tr k c b' tr0 t0 tw t1 t2,
    evolves w w' tr
    /\ writes tr
       = repeat (rec.Serialize r, true) k ++ [(rec.Serialize r, false)]
    /\ retry_run q tr = Some (Idle (Some c))
    /\ (dialled h w ->
        c < length (World.socks w')
        /\ forall x, In x (closes tr) -> World.is_open x w' = false)
    /\ tr = tr0
            ++ [World.EvNow t0;
                World.EvSetWriteDeadline c
                  (t0 + SendTimeoutSec h * time.Second)]
            ++ tw
            ++ [World.EvWrite (rec.Serialize r) false;
                World.EvNow t1; World.EvNow t2]
    /\ quiet tw /\ closes tw = []
    /\ processingDuration h'
       = processingDuration h ++ [(t1 - rec.Received r)%Z]
    /\ LastConnUse (Conn h') = t2 /\ World.now w' = t2
    /\ outRecs h' = S (outRecs h) /\ outRecsTotal h' = S (outRecsTotal h)
    /\ cConn (Conn h') = Some c /\ W (Conn h') = Some b'
    /\ bufio.err b' = false
    /\ match cConn (Conn h), k with
       | Some c0, 0 =>
           c = c0
           /\ exists b,
                W (Conn h) = Some b /\ bufio.wr b' = bufio.wr b
                /\ delivered_on (bufio.wr b) w' ++ bufio.buf b'
                   = delivered_on (bufio.wr b) w ++ bufio.buf b
                     ++ rec.Serialize r
       | _, _ =>
           bufio.wr b' = c /\ length (World.socks w) <= c
           /\ delivered_on c w' ++ bufio.buf b' = rec.Serialize r
           /\ (TCPOutConnectionRefreshPeriodSec h = 0%Z ->
               World.is_open c w' = true)
       end.
Proof.
  induction n as [|n IH]; intros h w q h' w' Hq H; [discriminate|].
  rewrite tryToSend_loop_S in H.
  destruct (ensureConnection fuel h w) as [[h1 w1]| |] eqn:E1;
    cbn [bind] in H; try discriminate.
  destruct (keepConnectionFresh fuel h1 w1) as [[h2 w2]| |] eqn:E2;
    cbn [bind] in H; try discriminate.
  destruct (@tryToSend_prelude h h1 h2 w w1 w2 q Hq E1 E2)
    as [tp [c [Hevp [Hwp [Hrp [Hc2 [Hlt [Hclp [Hfp [Hcfp Hcase]]]]]]]]]].
  rewrite Hc2 in H.
  destruct (W (Conn h2)) as [b|] eqn:Eb; [|discriminate].
  set (t0 := World.now (World.tick w2)) in *.
  set (d := World.EvSetWriteDeadline c
              (t0 + SendTimeoutSec h2 * time.Second)) in *.
  destruct (bufio.Write b (rec.Serialize r)
              (World.SetWriteDeadline c
                 (t0 + SendTimeoutSec h2 * time.Second) (World.tick w2)))
    as [[b1 err] w4] eqn:E3.
  destruct (Write_conserves _ _ _ E3)
    as [Hwr [_ [Herr [Hcons [_ [Hop [t3 [Hev3 [Hcl3 Hq3]]]]]]]]].
  set (pre := tp ++ [World.EvNow t0; d] ++ t3).
  assert (Hevr : evolves w2 w4
                   (([World.EvNow t0; d] ++ t3)
                    ++ [World.EvWrite (rec.Serialize r) err])).
  { rewrite <- app_assoc.
    exact (evolves_trans (evolves_tick w2)
             (evolves_trans (@evolves_log d (World.tick w2) eq_refl) Hev3)). }
  assert (Hev : evolves w w4
                  (pre ++ [World.EvWrite (rec.Serialize r) err])).
  { unfold pre. rewrite <- app_assoc. exact (evolves_trans Hevp Hevr). }
  assert (Hrun : retry_run q pre = Some (Idle (Some c))).
  { unfold pre. rewrite retry_run_app, Hrp. simpl.
    now apply retry_run_quiet. }
  assert (Hwrites : writes pre = []).
  { unfold pre. rewrite writes_app, Hwp. simpl. now apply writes_quiet. }
  assert (Hcloses : closes pre = closes tp).
  { unfold pre. rewrite closes_app. simpl. rewrite Hcl3. apply app_nil_r. }
  assert (Hlen4 : length (World.socks w2) <= length (World.socks w4))
    by (destruct Hevr as [_ [_ [Hl _]]]; exact Hl).
  assert (Hlen2 : length (World.socks w) <= length (World.socks w2))
    by (destruct Hevp as [_ [_ [Hl _]]]; exact Hl).
  unfold send_frame in Hfp.
  destruct err; cbn [negb] in H.
  - (* the write failed: close, forget the connection, go round again *)
    set (h5 := set_cConn None (set_W (Some b1) h2)) in *.
    assert (E5 : cConn (Conn h5) = None) by (destruct h2; reflexivity).
    apply (IH _ _ Closed) in H; [|right; split; [reflexivity | exact E5]].
    destruct H as [t4 [k [c' [b' [tr0 [t0' [tw [t1 [t2 [Hev4 [Hw4 [Hr4
      [Hwf4 [Htl [Hqw [Hcw [Hpd [Hlu [Hnow [Ho [Hot [Hc' [HW'
      [He' Hcase']]]]]]]]]]]]]]]]]]]]]]]].
    assert (Hst : SendTimeoutSec h5 = SendTimeoutSec h).
    { unfold config in Hcfp. unfold h5. destruct h2; simpl in *.
      congruence. }
    rewrite Hst in Htl.
    rewrite E5 in Hcase'. destruct Hcase' as [K1 [K2 [K3 K4]]].
    destruct Hwf4 as [Hlt' Hcl4];
      [intros x Hx; rewrite E5 in Hx; discriminate|].
    assert (Hc5 : dialled h w -> World.is_open c w' = false).
    { intros Hwf. specialize (Hlt Hwf).
      destruct Hev4 as [_ [_ [_ [Hm _]]]]. apply Hm.
      - simpl. rewrite length_update. lia.
      - apply is_open_Close_same. }
    exists ((pre ++ [World.EvWrite (rec.Serialize r) true])
            ++ [World.EvClose c] ++ t4),
      (S k), c', b',
      ((pre ++ [World.EvWrite (rec.Serialize r) true])
       ++ [World.EvClose c] ++ tr0), t0', tw, t1, t2.
    split; [exact (evolves_trans Hev
                     (evolves_trans (evolves_Close c w4) Hev4))|].
    split; [rewrite !writes_app, Hwrites; simpl; rewrite Hw4; reflexivity|].
    split; [rewrite !retry_run_app, Hrun; simpl; rewrite Nat.eqb_refl;
            exact Hr4|].
    split.
    { intros Hwf. split; [exact Hlt'|].
      intros x Hx. rewrite !closes_app, Hcloses in Hx. simpl in Hx.
      rewrite app_nil_r in Hx. apply in_app_or in Hx.
      destruct Hx as [Hx | [<- | Hx]].
      - destruct (Hclp x Hx) as [-> _]. exact (Hc5 Hwf).
      - exact (Hc5 Hwf).
      - now apply Hcl4. }
    split; [rewrite Htl, <- !app_assoc; reflexivity|].
    split; [exact Hqw|]. split; [exact Hcw|].
    split; [rewrite Hpd; destruct h2; simpl in *; congruence|].
    split; [exact Hlu|]. split; [exact Hnow|].
    split; [rewrite Ho; destruct h2; simpl in *; congruence|].
    split; [rewrite Hot; destruct h2; simpl in *; congruence|].
    split; [exact Hc'|]. split; [exact HW'|]. split; [exact He'|].
    assert (Hrest : bufio.wr b' = c' /\ length (World.socks w) <= c'
                    /\ delivered_on c' w' ++ bufio.buf b' = rec.Serialize r
                    /\ (TCPOutConnectionRefreshPeriodSec h = 0%Z ->
                        World.is_open c' w' = true)).
    { split; [exact K1|].
      split; [simpl in K2; rewrite length_update in K2; lia|].
      split; [exact K3|].
      intros Hp. apply K4. unfold config in Hcfp.
      destruct h2; simpl in *. congruence. }
    destruct (cConn (Conn h)); exact Hrest.
  - (* the write went through *)
    inversion H; subst h' w'. clear H.
    set (t1 := World.now (World.tick w4)).
    set (t2 := World.now (World.tick (World.tick w4))).
    assert (Hev' : evolves w2 (World.tick (World.tick w4))
                     ((([World.EvNow t0; d] ++ t3)
                       ++ [World.EvWrite (rec.Serialize r) false])
                      ++ [World.EvNow t1; World.EvNow t2])).
    { exact (evolves_trans Hevr
               (evolves_trans (evolves_tick w4)
                  (evolves_tick (World.tick w4)))). }
    assert (Hcl : dialled h w -> forall x, In x (closes tp) ->
                  World.is_open x (World.tick (World.tick w4)) = false).
    { intros Hwf x Hx. destruct (Hclp x Hx) as [-> Hcx].
      destruct Hev' as [_ [_ [_ [Hm _]]]].
      apply Hm; [exact (Hlt Hwf) | exact Hcx]. }
    assert (Hst : SendTimeoutSec h2 = SendTimeoutSec h)
      by (unfold config in Hcfp; congruence).
    exists ((pre ++ [World.EvWrite (rec.Serialize r) false])
            ++ [World.EvNow t1; World.EvNow t2]),
      0, c, b1, tp, t0, t3, t1, t2.
    split; [exact (evolves_trans Hev
                     (evolves_trans (evolves_tick w4)
                        (evolves_tick (World.tick w4))))|].
    split; [rewrite !writes_app, Hwrites; reflexivity|].
    split; [rewrite !retry_run_app, Hrun; reflexivity|].
    split.
    { intros Hwf. specialize (Hlt Hwf).
      split; [change (c < length (World.socks w4)); lia|].
      intros x Hx; rewrite !closes_app, Hcloses in Hx; simpl in Hx;
        rewrite !app_nil_r in Hx; now apply Hcl. }
    split; [unfold pre, d; rewrite Hst, <- !app_assoc; reflexivity|].
    split; [exact Hq3|]. split; [exact Hcl3|].
    split; [unfold t1; destruct h2; simpl in *; congruence|].
    split; [destruct h2; reflexivity|]. split; [reflexivity|].
    split; [destruct h2; simpl in *; congruence|].
    split; [destruct h2; simpl in *; congruence|].
    split; [destruct h2; simpl in *; congruence|].
    split; [destruct h2; reflexivity|]. split; [exact Herr|].
    specialize (Hcons eq_refl).
    change (delivered_on (bufio.wr b)
              (World.SetWriteDeadline c
                 (t0 + SendTimeoutSec h2 * time.Second) (World.tick w2)))
      with (delivered_on (bufio.wr b) w2) in Hcons.
    destruct (cConn (Conn h)) as [c0|].
    + destruct Hcase as [-> [HW Hdl]].
      split; [reflexivity|]. exists b.
      split; [congruence|]. split; [exact Hwr|].
      change (delivered_on (bufio.wr b) (World.tick (World.tick w4)))
        with (delivered_on (bufio.wr b) w4).
      rewrite Hcons, Hdl. reflexivity.
    + destruct Hcase as [Hge [[b0 [HW0 [Hwr0 [Hb0 He0]]]] [Hdl Hopen]]].
      assert (b0 = b) by congruence. subst b0.
      split; [congruence|]. split; [exact Hge|].
      split.
      * change (delivered_on c (World.tick (World.tick w4)))
          with (delivered_on c w4).
        rewrite <- Hwr0, Hcons, Hwr0, Hdl, Hb0. reflexivity.
      * intros Hp.
        change (World.is_open c (World.tick (World.tick w4)))
          with (World.is_open c w4).
        rewrite Hop. exact (Hopen Hp).
Qed.

(** The failed writes of a run of failures and one success. *)
Lemma failed_writes_retries (tr : list World.Event) (p : bytes) (k : nat) :
  writes tr = repeat (p, true) k ++ [(p, false)] ->
  failed_writes tr = k.
Proof.
  unfold failed_writes. intros ->. rewrite filter_app. simpl.
  rewrite app_nil_r.
  induction k as [|k IH]; simpl; [reflexivity | now rewrite IH].
Qed.


End SenderLoop.

(** C5.  Whenever [tryToSend] returns, the calls it made are a run of
    failed writes of the serialized record followed by one write of it
    that succeeded, after which only the clock is read, twice; that
    write comes after a reading of the clock and the setting of the
    write deadline, the send timeout later, on the connection the host
    holds on return, with nothing in between but what the writer does
    on the network.  Each failed write is followed at once by the close
    of the connection it was attempted on and then by a dial after a
    sleep of zero, made because the connection field had been set to
    nil, before the same record is written again; the dials logged are
    dials made.  On return
    [outRecs] and its total have grown by exactly one, the time from the
    record's receipt to the first of the two readings has been observed
    into the histogram, and the connection's last use is the second
    reading, the time it is now.  The host holds the connection the last
    write deadline was set on, and a writer without error: when the host
    had a connection and the first write succeeded, it is that connection
    and that writer, and what the connection has got followed by what the
    writer holds has grown by exactly the record; otherwise it is a
    connection dialled during the call, the writer is bound to it, and
    what the connection has got followed by what the writer holds is
    exactly the record (the connection being open when the refresh of
    connections is off).  When the connection the host came with had
    been dialled, every connection closed during the call is closed on
    return. *)
Theorem tryToSend_retries_until_written
        (fuel : nat) (r : rec.Rec) (h h' : Target.Host) (w w' : World.t) :
  Target.tryToSend fuel r h w = Target.Ret (h', w') ->
  let p := rec.Serialize r in
  let tr := TargetSpec.events_since w w' in
  let k := TargetSpec.failed_writes tr in
  World.trace w' = World.trace w ++ tr
  /\ TargetSpec.writes tr = repeat (p, true) k ++ [(p, false)]
  /\ TargetSpec.retry_discipline tr = true
  /\ World.ndial w' = World.ndial w + length (TargetSpec.dials tr)
  /\ Target.outRecs h' = S (Target.outRecs h)
  /\ Target.outRecsTotal h' = S (Target.outRecsTotal h)
  /\ exists c b' tr0 t0 tw t1 t2,
       Target.cConn (Target.Conn h') = Some c
       /\ tr = tr0
               ++ [World.EvNow t0;
                   World.EvSetWriteDeadline c
                     (t0 + Target.SendTimeoutSec h * time.Second)]
               ++ tw
               ++ [World.EvWrite p false; World.EvNow t1; World.EvNow t2]
       /\ TargetSpec.writes tw = [] /\ TargetSpec.closes tw = []
       /\ Target.processingDuration h'
          = Target.processingDuration h ++ [(t1 - rec.Received r)%Z]
       /\ Target.LastConnUse (Target.Conn h') = t2
       /\ World.now w' = t2
       /\ TargetSpec.retry_run (TargetSpec.Idle None) tr
          = Some (TargetSpec.Idle (Some c))
       /\ Target.W (Target.Conn h') = Some b'
       /\ bufio.err b' = false
       /\ (TargetSpec.dialled h w ->
           c < length (World.socks w')
           /\ forall x, In x (TargetSpec.closes tr) ->
                        World.is_open x w' = false)
       /\ match Target.cConn (Target.Conn h), k with
          | Some c0, 0 =>
              c = c0
              /\ exists b,
                   Target.W (Target.Conn h) = Some b
                   /\ bufio.wr b' = bufio.wr b
                   /\ MoreSpec.delivered_on (bufio.wr b) w' ++ bufio.buf b'
                      = MoreSpec.delivered_on (bufio.wr b) w
                        ++ bufio.buf b ++ p
          | _, _ =>
              bufio.wr b' = c
              /\ length (World.socks w) <= c
              /\ MoreSpec.delivered_on c w' ++ bufio.buf b' = p
              /\ (Target.TCPOutConnectionRefreshPeriodSec h = 0%Z ->
                  World.is_open c w' = true)
          end.
Proof.
  intros H. cbv zeta. unfold Target.tryToSend in H.
  apply (@tryToSend_loop_spec fuel r fuel h w (TargetSpec.Idle None)) in H;
    [|now left].
  destruct H as [tr [k [c [b' [tr0 [t0 [tw [t1 [t2 [Hev [Hw [Hr [Hwf [Htl
    [Hqw [Hcw [Hpd [Hlu [Hnow [Ho [Hot [Hc [HW [He Hcase]]]]]]]]]]]]]]]]]]]]]]]].
  rewrite (events_since_extends (evolves_extends Hev)).
  rewrite (@failed_writes_retries tr (rec.Serialize r) k Hw).
  split; [exact (evolves_extends Hev)|]. split; [exact Hw|].
  split; [unfold TargetSpec.retry_discipline; now rewrite Hr|].
  split; [destruct Hev as [_ [Hn _]]; exact Hn|].
  split; [exact Ho|]. split; [exact Hot|].
  exists c, b', tr0, t0, tw, t1, t2.
  split; [exact Hc|]. split; [exact Htl|].
  split; [now apply writes_quiet|]. split; [exact Hcw|].
  split; [exact Hpd|]. split; [exact Hlu|]. split; [exact Hnow|].
  split; [exact Hr|]. split; [exact HW|]. split; [exact He|].
  split; [exact Hwf | exact Hcase].
Qed.

(** The statement above on a run with one failed write: the output
    buffer holds 4 bytes, so the record goes straight to the network,
    which fails the first write after 3 bytes and accepts the second.
    Two connections are dialled; the first has got 3 bytes and is
    closed, the second has got the record and is open. *)
Lemma tryToSend_retries_until_written_witness :
  let h := Target.NewHost "c1"%string (TargetSpec.sample_cfg 1000 10 0 4)
             TargetSpec.sample_host in
  let w := World.init 7 (fun _ => true) (TargetSpec.script [Some 3] None) in
  let p := rec.Serialize TargetSpec.sample_rec in
  match Target.tryToSend 2 TargetSpec.sample_rec h w with
  | Target.Ret (h', w') =>
      TargetSpec.failed_writes (TargetSpec.events_since w w') = 1
      /\ TargetSpec.writes (TargetSpec.events_since w w')
         = repeat (p, true) 1 ++ [(p, false)]
      /\ TargetSpec.retry_discipline (TargetSpec.events_since w w') = true
      /\ TargetSpec.dials (TargetSpec.events_since w w') = [true; true]
      /\ TargetSpec.closes (TargetSpec.events_since w w') = [0]
      /\ World.ndial w' = 2
      /\ Target.outRecs h' = 1
      /\ Target.cConn (Target.Conn h') = Some 1
      /\ map World.delivered (World.socks w')
         = [String.list_byte_of_string "a.b"%string; p]
      /\ map World.sopen (World.socks w') = [false; true]
  | _ => False
  end.
Proof.
  intros h w p.
  destruct (Target.tryToSend 2 TargetSpec.sample_rec h w)
    as [[h' w']| |] eqn:E.
  - pose proof (@tryToSend_retries_until_written 2 TargetSpec.sample_rec
                  h h' w w' E) as T.
    cbv zeta in T.
    destruct T as [_ [Hw [Hd [Hn [Ho _]]]]].
    vm_compute in E. inversion E; subst h' w'. clear E.
    split; [vm_compute; reflexivity|].
    split; [etransitivity; [exact Hw | vm_compute; reflexivity]|].
    split; [exact Hd|].
    split; [vm_compute; reflexivity|]. split; [vm_compute; reflexivity|].
    split; [etransitivity; [exact Hn | vm_compute; reflexivity]|].
    split; [etransitivity; [exact Ho | vm_compute; reflexivity]|].
    split; [vm_compute; reflexivity|].
    split; vm_compute; reflexivity.
  - vm_compute in E. discriminate E.
  - vm_compute in E. discriminate E.
Defined.


(** C4 at the failing input: a refresh period of 10 seconds and a
    network that accepts every dial and every write.  A host from
    [NewHost] sends one record, which is buffered on an open connection;
    one second later the flusher runs.  It counts a refresh and closes
    the connection (the period is compared as 10 nanoseconds), dials
    nothing, and flushes to the closed connection: the write is refused,
    the connection and the writer are set to nil, and the buffered record
    has reached no connection. *)
Theorem tryToFlushIfNecessary_refresh_drops_buffer :
  let cfg := TargetSpec.sample_cfg 1000 10 10 4096 in
  let h0 := Target.NewHost "c1"%string cfg TargetSpec.sample_host in
  let w0 := World.init 7 (fun _ => true) (fun _ => None) in
  let p := rec.Serialize TargetSpec.sample_rec in
  match Target.tryToSend 2 TargetSpec.sample_rec h0 w0 with
  | Target.Ret (h, w) =>
      let w1 := World.elapse (1 * time.Second) w in
      Target.cConn (Target.Conn h) = Some 0
      /\ Target.W (Target.Conn h) = Some (bufio.MkWriter 0 p 4096 false)
      /\ World.is_open 0 w1 = true
      /\ MoreSpec.delivered_on 0 w1 = []
      /\ TargetSpec.healthy w1
      /\ World.Since (Target.LastConnUse (Target.Conn h)) w1
         = (1 * time.Second)%Z
      /\ (1 * time.Second
          <? Target.TCPOutConnectionRefreshPeriodSec h * time.Second)%Z = true
      /\ match TargetSpec.Flush_tick 2 h w1 with
         | Target.Ret (h', w') =>
             Target.oldConnectionRefresh h' = 1
             /\ TargetSpec.events_since w1 w'
                = [World.EvNow 1000000013; World.EvClose 0;
                   World.EvConnWrite 0 p 0 true; World.EvFlush true;
                   World.EvNow 1000000014]
             /\ World.ndial w' = World.ndial w1
             /\ map World.sopen (World.socks w') = [false]
             /\ map World.delivered (World.socks w') = [[]]
             /\ Target.cConn (Target.Conn h') = None
             /\ Target.W (Target.Conn h') = None
         | _ => False
         end
  | _ => False
  end.
Proof.
  vm_compute. repeat split; try reflexivity; intros k Hk; reflexivity.
Qed.

Section FlusherFacts.
Import Target TargetSpec MoreSpec.

(** One call of [tryToFlushIfNecessary] with something to flush,
    unfolded. *)
Lemma tryToFlushIfNecessary_S (fuel : nat) (h : Host) (w : World.t)
      (b : bufio.Writer) :
  W (Conn h) = Some b -> bufio.buf b <> [] ->
  tryToFlushIfNecessary fuel h w
  = ('(h1, w1) <- match cConn (Conn h) with
                  | None => ensureConnection fuel h w
                  | Some _ => keepConnectionFresh fuel h w
                  end ;;
     match W (Conn h1) with
     | Some b1 =>
         let '(b2, err, w2) := bufio.Flush b1 w1 in
         Ret (set_LastConnUse (World.now (World.tick w2))
                (if err then set_W None (set_cConn None (set_W (Some b2) h1))
                 else set_W (Some b2) h1),
              World.tick w2)
     | None => Panic
     end).
Proof.
  intros HW Hb. unfold tryToFlushIfNecessary. rewrite HW.
  unfold bufio.Buffered. destruct (bufio.buf b); [congruence|].
  reflexivity.
Qed.

End FlusherFacts.

(** X14.  When the flusher runs with a writer that holds at least one
    byte and has not failed, bound to the host's connection, and the
    test of [keepConnectionFresh] fails at its reading of the clock (or
    the option is 0, and the clock is not read for it), it makes one
    write of exactly the buffered bytes to that connection, and stamps
    the last use with a reading of the clock.  If the write is accepted
    the buffer is empty afterwards and the connection is kept; on a
    flush error the connection and the writer are both set to nil.  The
    connection has got the bytes the write took.  No counter moves. *)
Theorem tryToFlushIfNecessary_flushes_buffer
        (fuel : nat) (h : Target.Host) (w : World.t)
        (b : bufio.Writer) (c : nat) :
  Target.W (Target.Conn h) = Some b ->
  bufio.buf b <> [] ->
  bufio.err b = false ->
  bufio.wr b = c ->
  Target.cConn (Target.Conn h) = Some c ->
  TargetSpec.refresh_due h (World.tick w) = false ->
  let w0 := if (Target.TCPOutConnectionRefreshPeriodSec h =? 0)%Z
            then w else World.tick w in
  exists n e h' w',
    TargetSpec.Flush_tick fuel h w = Target.Ret (h', w')
    /\ World.trace w'
       = World.trace w0
         ++ [World.EvConnWrite c (bufio.buf b) n e; World.EvFlush e;
             World.EvNow (World.now w')]
    /\ Target.LastConnUse (Target.Conn h') = World.now w'
    /\ TargetSpec.counters h' = TargetSpec.counters h
    /\ MoreSpec.delivered_on c w'
       = MoreSpec.delivered_on c w ++ firstn n (bufio.buf b)
    /\ (if e
        then Target.cConn (Target.Conn h') = None
             /\ Target.W (Target.Conn h') = None
        else n = length (bufio.buf b)
             /\ Target.cConn (Target.Conn h') = Some c
             /\ Target.W (Target.Conn h')
                = Some (bufio.MkWriter c [] (bufio.size b) false)).
Proof.
  intros HW Hbuf Herr Hwr Hc Hdue w0.
  unfold TargetSpec.Flush_tick.
  rewrite (tryToFlushIfNecessary_S fuel h w HW Hbuf), Hc.
  assert (Ek : Target.keepConnectionFresh fuel h w = Target.Ret (h, w0)).
  { unfold w0. destruct (Target.TCPOutConnectionRefreshPeriodSec h =? 0)%Z
      eqn:Ep.
    - apply keepConnectionFresh_off. now apply Z.eqb_eq.
    - apply (@keepConnectionFresh_not_due fuel h w c Hc); [|exact Hdue].
      now apply Z.eqb_neq. }
  rewrite Ek. cbn [Target.bind]. rewrite HW.
  assert (Hd0 : forall x, MoreSpec.delivered_on x w0
                          = MoreSpec.delivered_on x w).
  { intros x. unfold w0.
    destruct (Target.TCPOutConnectionRefreshPeriodSec h =? 0)%Z;
      reflexivity. }
  unfold bufio.Flush, bufio.flush. rewrite Herr, Hwr.
  destruct (bufio.buf b) as [|x l] eqn:Eb; [congruence|].
  destruct (World.ConnWrite c (x :: l) w0) as [[n e] w1] eqn:Ew.
  pose proof (@ConnWrite_extends c (x :: l) w0 w1 n e Ew) as Ht.
  unfold TargetSpec.extends in Ht.
  pose proof (ConnWrite_conserves _ _ _ Ew) as [Hdl [_ Hn]].
  exists n, e.
  destruct e; eexists; eexists; (split; [reflexivity|]).
  - split; [simpl; rewrite Ht, <- !app_assoc; reflexivity|].
    split; [destruct h; reflexivity|].
    split; [destruct h; reflexivity|].
    split; [|destruct h; split; reflexivity].
    change (MoreSpec.delivered_on c
              (World.tick (World.log (World.EvFlush true) w1)))
      with (MoreSpec.delivered_on c w1).
    rewrite Hdl, Hd0. reflexivity.
  - split; [simpl; rewrite Ht, <- !app_assoc; reflexivity|].
    split; [destruct h; reflexivity|].
    split; [destruct h; reflexivity|].
    split; [|destruct h; simpl in *; auto].
    change (MoreSpec.delivered_on c
              (World.tick (World.log (World.EvFlush false) w1)))
      with (MoreSpec.delivered_on c w1).
    rewrite Hdl, Hd0. reflexivity.
Qed.

(** The statement above on a host that has just buffered one record on
    a new connection, one second later, with the refresh off. *)
Lemma tryToFlushIfNecessary_flushes_buffer_witness :
  let h0 := Target.NewHost "c1"%string (TargetSpec.sample_cfg 1000 10 0 4096)
              TargetSpec.sample_host in
  let w0 := World.init 7 (fun _ => true) (fun _ => None) in
  let p := rec.Serialize TargetSpec.sample_rec in
  match Target.tryToSend 2 TargetSpec.sample_rec h0 w0 with
  | Target.Ret (h, w) =>
      Target.W (Target.Conn h) = Some (bufio.MkWriter 0 p 4096 false)
      /\ exists n e h' w',
           TargetSpec.Flush_tick 2 h (World.elapse time.Second w)
           = Target.Ret (h', w')
           /\ World.trace w'
              = World.trace (World.elapse time.Second w)
                ++ [World.EvConnWrite 0 p n e; World.EvFlush e;
                    World.EvNow (World.now w')]
           /\ MoreSpec.delivered_on 0 w' = [] ++ firstn n p
           /\ (if e
               then Target.cConn (Target.Conn h') = None
                    /\ Target.W (Target.Conn h') = None
               else n = length p
                    /\ Target.cConn (Target.Conn h') = Some 0
                    /\ Target.W (Target.Conn h')
                       = Some (bufio.MkWriter 0 [] 4096 false))
  | _ => False
  end.
Proof.
  intros h0 w0 p.
  destruct (Target.tryToSend 2 TargetSpec.sample_rec h0 w0)
    as [[h w]| |] eqn:E;
    vm_compute in E; try discriminate E.
  inversion E; subst h w; clear E.
  split; [reflexivity|].
  match goal with
  | |- context [TargetSpec.Flush_tick 2 ?h ?w] =>
      destruct (@tryToFlushIfNecessary_flushes_buffer 2 h w
                  (bufio.MkWriter 0 p 4096 false) 0)
        as [n [e [h' [w' [H1 [H2 [_ [_ [H5 H6]]]]]]]]]
  end.
  - reflexivity.
  - vm_compute. discriminate.
  - reflexivity.
  - reflexivity.
  - reflexivity.
  - reflexivity.
  - exists n, e, h', w'.
    split; [exact H1|]. split; [exact H2|]. split; [exact H5 | exact H6].
Defined.

(* ================================================================== *)
(** * The availability flag *)

Section FlagFacts.
Import Target TargetSpec MoreSpec.







Lemma flush_ndial (b b' : bufio.Writer) (w w' : World.t) (e : bool) :
  bufio.flush b w = (b', e, w') -> World.ndial w' = World.ndial w.
Proof.
  unfold bufio.flush. destruct (bufio.err b).
  - intros H; inversion H; reflexivity.
  - destruct (bufio.buf b) as [|x l].
    + intros H; inversion H; reflexivity.
    + destruct (World.ConnWrite (bufio.wr b) (x :: l) w) as [[n e1] w1] eqn:Ew.
      apply ConnWrite_socks in Ew. destruct Ew as [_ [Hn _]].
      destruct e1; intros H; inversion H; subst; exact Hn.
Qed.













End FlagFacts.



(* ================================================================== *)
(** * When the methods return *)

Section Returning.
Import Target TargetSpec.


Lemma healthy_Sleep (d : Z) (w : World.t) :
  healthy w -> healthy (World.Sleep d w).
Proof. intros H. exact H. Qed.








(** What one [Connect] does, by the outcome of its dial. *)
Lemma Connect_dial_ok (a : Z) (h : Host) (w : World.t) :
  World.dial_ok w (World.ndial w) = true ->
  exists h1 w1 b,
    Connect a h w = (h1, w1)
    /\ cConn (Conn h1) = Some (length (World.socks w))
    /\ W (Conn h1) = Some b
    /\ bufio.buf b = [] /\ bufio.err b = false
    /\ bufio.wr b = length (World.socks w)
    /\ LastConnUse (Conn h1) = World.now w1
    /\ World.is_open (length (World.socks w)) w1 = true
    /\ TCPOutConnectionRefreshPeriodSec h1 = TCPOutConnectionRefreshPeriodSec h
    /\ World.ndial w1 = S (World.ndial w)
    /\ World.nwrite w1 = World.nwrite w
    /\ World.dial_ok w1 = World.dial_ok w
    /\ World.write_res w1 = World.write_res w.
Proof.
  intros Hd. unfold Connect, getConnectionToHost, World.Dial. rewrite Hd.
  destruct h. simpl.
  eexists. eexists. eexists. split; [reflexivity|]. simpl.
  repeat split.
  unfold World.is_open. simpl.
  rewrite nth_error_app2, Nat.sub_diag by lia. reflexivity.
Qed.

Lemma Connect_dial_fail (a : Z) (h : Host) (w : World.t) :
  World.dial_ok w (World.ndial w) = false ->
  exists h1 w1,
    Connect a h w = (h1, w1)
    /\ cConn (Conn h1) = None
    /\ World.ndial w1 = S (World.ndial w)
    /\ World.dial_ok w1 = World.dial_ok w.
Proof.
  intros Hd. unfold Connect, getConnectionToHost, World.Dial. rewrite Hd.
  destruct h. unfold Available_CAS. simpl.
  destruct (a =? 1)%Z; [destruct Available0|]; simpl;
    eexists; eexists; (split; [reflexivity|]); simpl; auto.
Qed.

(** [ensureConnection] returns as soon as a dial succeeds: when the dial
    [k] attempts from now is accepted, [k+1] rounds are enough. *)
Lemma ensureConnection_loop_returns (k : nat) :
  forall fuel wait a h w,
  World.dial_ok w (World.ndial w + k) = true -> k < fuel ->
  exists h' w', ensureConnection_loop fuel wait a h w = Ret (h', w').
Proof.
  induction k as [|k IH]; intros fuel wait a h w Hd Hk;
    (destruct fuel as [|fuel]; [lia|]); simpl;
    (destruct (cConn (Conn h)) eqn:Ec; [eauto|]).
  - rewrite Nat.add_0_r in Hd.
    destruct (@Connect_dial_ok a h (World.Sleep (wait * time.Millisecond) w) Hd)
      as [h1 [w1 [b [E [Hc _]]]]].
    rewrite E. rewrite (ensureConnection_loop_connected _ _ _ _ _ Hc). eauto.
  - destruct (World.dial_ok w (World.ndial w)) eqn:E0.
    + destruct (@Connect_dial_ok a h (World.Sleep (wait * time.Millisecond) w) E0)
        as [h1 [w1 [b [E [Hc _]]]]].
      rewrite E. rewrite (ensureConnection_loop_connected _ _ _ _ _ Hc). eauto.
    + destruct (@Connect_dial_fail a h (World.Sleep (wait * time.Millisecond) w) E0)
        as [h1 [w1 [E [Hc [Hn Hf]]]]].
      rewrite E. apply IH; [|lia].
      rewrite Hf, Hn. simpl. rewrite <- Hd. f_equal. lia.
Qed.

(** Against a target that refuses every dial, [ensureConnection] never
    returns, whatever the number of rounds. *)
Lemma ensureConnection_loop_refused (fuel : nat) :
  forall wait a h w,
  (forall k, World.dial_ok w k = false) ->
  cConn (Conn h) = None ->
  ensureConnection_loop fuel wait a h w = OutOfFuel.
Proof.
  induction fuel as [|fuel IH]; intros wait a h w Hd Hc; simpl; rewrite Hc;
    [reflexivity|].
  destruct (@Connect_dial_fail a h (World.Sleep (wait * time.Millisecond) w)
              (Hd _)) as [h1 [w1 [E [Hc1 [_ Hf]]]]].
  rewrite E. apply IH; [|assumption].
  intros k. rewrite Hf. apply Hd.
Qed.




End Returning.

(* ================================================================== *)
(** * The sender with the refresh of connections on *)

Section Starving.
Import Target TargetSpec.

(** [ensureConnection] waits or returns; it dereferences nothing. *)
Lemma ensureConnection_loop_no_panic (fuel : nat) :
  forall wait a h w, ensureConnection_loop fuel wait a h w <> Panic.
Proof.
  induction fuel as [|fuel IH]; intros wait a h w; simpl;
    destruct (cConn (Conn h)); try discriminate.
  destruct (Connect a h (World.Sleep (wait * time.Millisecond) w))
    as [h1 w2].
  apply IH.
Qed.

(** The writer that comes with the connection a returning
    [ensureConnection] had to make, and the stamp of that connection:
    the last reading of the clock. *)
Lemma ensureConnection_loop_writer (fuel : nat) :
  forall wait a h w h' w',
  cConn (Conn h) = None ->
  ensureConnection_loop fuel wait a h w = Ret (h', w') ->
  exists c,
    cConn (Conn h') = Some c
    /\ W (Conn h') = Some (bufio.NewWriterSize c (bufSize h))
    /\ LastConnUse (Conn h') = World.now w'.
Proof.
  induction fuel as [|fuel IH]; intros wait a h w h' w' Hc H; simpl in H;
    rewrite Hc in H; [discriminate|].
  set (ws := World.Sleep (wait * time.Millisecond) w) in *.
  destruct (World.dial_ok ws (World.ndial ws)) eqn:Hd.
  - rewrite (Connect_ok a h ws Hd) in H.
    rewrite (@ensureConnection_loop_connected fuel _ _ _ _
               (length (World.socks ws))) in H by (destruct h; reflexivity).
    inversion H; subst h' w'. clear H.
    exists (length (World.socks w)).
    destruct h; repeat split; reflexivity.
  - rewrite (Connect_fail a h ws Hd) in H.
    apply IH in H;
      [|destruct h as [? ? ? av ? ? ? ? ? ? ? ? ? ? ? ? ? ? ? ? ? ? ?];
        destruct (a =? 1)%Z, av; reflexivity].
    destruct H as [c [H1 [H2 H3]]]. exists c.
    split; [exact H1|]. split; [|exact H3].
    rewrite H2. destruct h as [? ? ? av ? ? ? ? ? ? ? ? ? ? ? ? ? ? ? ? ? ? ?].
    destruct (a =? 1)%Z, av; reflexivity.
Qed.

(** A record larger than the buffer goes from an empty writer straight
    to the connection; when that one is closed the write fails. *)
Lemma Write_closed (b : bufio.Writer) (p : bytes) (w : World.t) :
  World.is_open (bufio.wr b) w = false ->
  bufio.buf b = [] -> bufio.err b = false ->
  bufio.size b < length p ->
  bufio.Write b p w
  = (bufio.MkWriter (bufio.wr b) [] (bufio.size b) true, true,
     World.log (World.EvWrite p true)
       (World.log (World.EvConnWrite (bufio.wr b) p 0 true) w)).
Proof.
  destruct b as [c bf s e]. simpl. intros Ho -> -> Hs.
  assert (Hlt : (s - 0 <? length p) = true) by (apply Nat.ltb_lt; lia).
  unfold bufio.Write, bufio.write_loop, bufio.Available.
  cbn [bufio.buf bufio.size bufio.err bufio.wr length].
  rewrite Hlt. cbn [negb andb]. unfold World.ConnWrite. rewrite Ho.
  cbn [skipn bufio.buf bufio.size bufio.err bufio.wr length].
  rewrite Hlt. cbn [negb andb]. reflexivity.
Qed.

(** The retry loop never comes to a write that succeeds when the
    refresh is on, the clock moves by more than the refresh option
    counted in nanoseconds between two readings, and the record is
    larger than the buffer: the connection just dialled is closed by
    [keepConnectionFresh] and not replaced, the write on it fails, and
    the next round starts the same. *)
Lemma tryToSend_loop_starves (fuel : nat) (r : rec.Rec) :
  forall n h w,
  TCPOutConnectionRefreshPeriodSec h <> 0%Z ->
  (forall k, (TCPOutConnectionRefreshPeriodSec h
              < Z.of_N (World.lapse w k))%Z) ->
  cConn (Conn h) = None ->
  bufio.size (bufio.NewWriterSize 0 (bufSize h))
  < length (rec.Serialize r) ->
  tryToSend_loop fuel n r h w = OutOfFuel.
Proof.
  induction n as [|n IH]; intros h w Hp Hl Hc Hs; [reflexivity|].
  rewrite tryToSend_loop_S.
  destruct (ensureConnection fuel h w) as [[h1 w1]| |] eqn:E1;
    [|reflexivity|exfalso; exact (ensureConnection_loop_no_panic _ _ _ _ _ E1)].
  cbn [bind]. unfold ensureConnection in E1.
  destruct (ensureConnection_loop_evolves _ _ _ _ _ E1)
    as [Hcf [_ [tr [Hev _]]]].
  destruct (ensureConnection_loop_writer _ _ _ _ _ Hc E1)
    as [c [Hc1 [HW1 Hu1]]].
  assert (Hp1 : TCPOutConnectionRefreshPeriodSec h1
                = TCPOutConnectionRefreshPeriodSec h)
    by (unfold config in Hcf; congruence).
  assert (Hb1 : bufSize h1 = bufSize h)
    by (unfold config in Hcf; congruence).
  assert (Hl1 : World.lapse w1 = World.lapse w)
    by (destruct Hev as [_ [_ [_ [_ [_ [_ Hl1]]]]]]; exact Hl1).
  assert (Hd : refresh_due h1 (World.tick w1) = true).
  { unfold refresh_due. rewrite Hp1.
    apply andb_true_iff. split.
    - apply negb_true_iff. now apply Z.eqb_neq.
    - unfold World.Since. rewrite Hu1. simpl. rewrite Hl1.
      pose proof (Hl (World.nclock w1)). apply Z.gtb_lt. lia. }
  rewrite (@keepConnectionFresh_due fuel h1 w1 c Hc1 Hd). cbn [bind].
  replace (cConn (Conn (inc_oldConnectionRefreshTotal
                          (inc_oldConnectionRefresh h1))))
    with (Some c) by (destruct h1; exact (eq_sym Hc1)).
  replace (W (Conn (inc_oldConnectionRefreshTotal
                      (inc_oldConnectionRefresh h1))))
    with (Some (bufio.NewWriterSize c (bufSize h)))
    by (destruct h1; exact (eq_sym HW1)).
  rewrite Write_closed;
    [|apply is_open_Close_same|reflexivity|reflexivity|exact Hs].
  cbn [negb]. apply IH.
  - rewrite <- Hp1 in Hp. destruct h1; exact Hp.
  - intros k. specialize (Hl k). rewrite <- Hp1, <- Hl1 in Hl.
    destruct h1; exact Hl.
  - destruct h1; reflexivity.
  - rewrite <- Hb1 in Hs. destruct h1; exact Hs.
Qed.

(** X15.  With the refresh of connections on, [tryToSend] does not
    return, whatever the network does, from a host without a connection
    when the record is larger than the output buffer and every reading
    of the clock finds it more than the refresh option, counted in
    nanoseconds, later: each connection it dials is closed by
    [keepConnectionFresh] before the write. *)
Theorem tryToSend_starves_when_refresh_on
        (fuel : nat) (r : rec.Rec) (h : Host) (w : World.t) :
  TCPOutConnectionRefreshPeriodSec h <> 0%Z ->
  (forall k, (TCPOutConnectionRefreshPeriodSec h
              < Z.of_N (World.lapse w k))%Z) ->
  cConn (Conn h) = None ->
  bufio.size (bufio.NewWriterSize 0 (bufSize h))
  < length (rec.Serialize r) ->
  tryToSend fuel r h w = OutOfFuel.
Proof. intros. now apply tryToSend_loop_starves. Qed.

Lemma tryToSend_starves_when_refresh_on_witness :
  let h := NewHost "c1"%string (sample_cfg 1000 10 10 4) sample_host in
  let w := World.with_lapse (fun _ => 11%N)
             (World.init 7 (fun _ => true) (fun _ => None)) in
  healthy w /\ tryToSend 50 sample_rec h w = OutOfFuel.
Proof.
  split.
  - split; intros; reflexivity.
  - apply tryToSend_starves_when_refresh_on.
    + discriminate.
    + intros k. reflexivity.
    + reflexivity.
    + vm_compute. lia.
Defined.

End Starving.

(* ================================================================== *)
(** * The writer goes with the connection *)

Section Pairing.
Import Target TargetSpec MoreSpec.

Lemma paired_Conn (h h' : Host) : Conn h' = Conn h -> paired h' = paired h.
Proof. unfold paired. now intros ->. Qed.

Lemma paired_made (h : Host) (c : nat) (b : bufio.Writer) :
  cConn (Conn h) = Some c -> W (Conn h) = Some b -> bufio.wr b = c ->
  paired h = true.
Proof.
  intros Hc Hw Hb. unfold paired. rewrite Hc, Hw, Hb. apply Nat.eqb_refl.
Qed.

Lemma paired_inv (h : Host) :
  paired h = true ->
  (cConn (Conn h) = None /\ W (Conn h) = None)
  \/ exists c b,
       cConn (Conn h) = Some c /\ W (Conn h) = Some b /\ bufio.wr b = c.
Proof.
  unfold paired.
  destruct (cConn (Conn h)) as [c|], (W (Conn h)) as [b|];
    intros H; try discriminate; [right|left; auto].
  exists c, b. apply Nat.eqb_eq in H. auto.
Qed.

(** [keepConnectionFresh] returns, and leaves the connection field and
    the writer as they are. *)
Lemma keepConnectionFresh_returns (fuel : nat) (h : Host) (w : World.t) :
  exists h' w',
    keepConnectionFresh fuel h w = Ret (h', w')
    /\ Conn h' = Conn h /\ World.ndial w' = World.ndial w.
Proof.
  destruct (cConn (Conn h)) as [c|] eqn:Ec.
  - destruct (@keepConnectionFresh_cases fuel h w c Ec)
      as [[_ E] | [[_ [_ E]] | [_ E]]]; rewrite E.
    + exists h, w. auto.
    + exists h, (World.tick w). auto.
    + eexists _, _. split; [reflexivity|].
      split; [destruct h; reflexivity | reflexivity].
  - rewrite (keepConnectionFresh_nil fuel h w Ec). exists h, w. auto.
Qed.

Lemma ensureConnection_loop_pairs (fuel : nat) (wait a : Z)
      (h h' : Host) (w w' : World.t) :
  cConn (Conn h) = None \/ paired h = true ->
  ensureConnection_loop fuel wait a h w = Ret (h', w') ->
  paired h' = true /\ cConn (Conn h') <> None.
Proof.
  intros Hi H. destruct (cConn (Conn h)) as [c|] eqn:Ec.
  - rewrite (ensureConnection_loop_connected _ _ _ _ _ Ec) in H.
    inversion H; subst h' w'. destruct Hi as [Hi|Hi]; [congruence|].
    split; [exact Hi | congruence].
  - destruct (ensureConnection_loop_fresh _ _ _ _ _ Ec H)
      as [c [b [H1 [H2 [H3 _]]]]].
    split; [exact (@paired_made h' c b H1 H2 H3) | congruence].
Qed.

(** The retry loop starts each round with the host's connection and
    writer paired or with no connection; it dereferences a writer that
    is there, and returns with the two paired. *)
Lemma tryToSend_loop_pairs (fuel : nat) (r : rec.Rec) :
  forall n h w,
  cConn (Conn h) = None \/ paired h = true ->
  tryToSend_loop fuel n r h w <> Panic
  /\ forall h' w',
       tryToSend_loop fuel n r h w = Ret (h', w') ->
       paired h' = true /\ cConn (Conn h') <> None.
Proof.
  induction n as [|n IH]; intros h w Hi;
    [split; [discriminate | intros ? ? H; discriminate]|].
  rewrite tryToSend_loop_S.
  destruct (ensureConnection fuel h w) as [[h1 w1]| |] eqn:E1;
    [|split; [discriminate | intros ? ? H; discriminate]
     |exfalso; exact (ensureConnection_loop_no_panic _ _ _ _ _ E1)].
  cbn [bind]. unfold ensureConnection in E1.
  apply (@ensureConnection_loop_pairs fuel 0%Z 1%Z h h1 w w1 Hi) in E1.
  destruct E1 as [Hp1 Hc1].
  destruct (keepConnectionFresh_returns fuel h1 w1)
    as [h2 [w2 [E2 [HC2 _]]]].
  rewrite E2. cbn [bind].
  rewrite <- (@paired_Conn h1 h2 HC2) in Hp1.
  destruct (@paired_inv h2 Hp1) as [[Hn _] | [c [b [Hc2 [Hw2 Hb2]]]]];
    [rewrite HC2 in Hn; congruence|].
  rewrite Hc2, Hw2.
  destruct (bufio.Write b (rec.Serialize r) _) as [[b1 err] w4] eqn:E3.
  apply Write_conserves in E3. destruct E3 as [Hwr _].
  destruct err; cbn [negb].
  - apply IH. left. destruct h2; reflexivity.
  - split; [discriminate|]. intros h' w' H. inversion H; subst h' w'.
    split.
    + apply (@paired_made _ c b1);
        [destruct h2; exact Hc2 | destruct h2; reflexivity | congruence].
    + destruct h2; simpl in *; congruence.
Qed.

(** The flusher on a host whose writer goes with its connection: it
    dereferences a writer that is there, dials nothing, and leaves the
    two paired. *)
Lemma tryToFlushIfNecessary_pairs (fuel : nat) (h : Host) (w : World.t) :
  paired h = true ->
  exists h' w',
    tryToFlushIfNecessary fuel h w = Ret (h', w')
    /\ paired h' = true /\ World.ndial w' = World.ndial w.
Proof.
  intros Hp.
  destruct (@paired_inv h Hp) as [[Hn Hw] | [c [b [Hc [Hw Hb]]]]].
  - unfold tryToFlushIfNecessary. rewrite Hw. exists h, w. auto.
  - destruct (bufio.buf b) as [|x l] eqn:Eb.
    + unfold tryToFlushIfNecessary, bufio.Buffered. rewrite Hw, Eb.
      exists h, w. auto.
    + rewrite (@tryToFlushIfNecessary_S fuel h w b Hw)
        by (rewrite Eb; discriminate).
      rewrite Hc.
      destruct (keepConnectionFresh_returns fuel h w)
        as [h1 [w1 [E1 [HC1 Hn1]]]].
      rewrite E1. cbn [bind]. rewrite HC1, Hw.
      unfold bufio.Flush.
      destruct (bufio.flush b w1) as [[b2 e] w2] eqn:Ef.
      pose proof (flush_ndial _ _ Ef) as Hn2.
      apply flush_conserves in Ef. destruct Ef as [Hwr _].
      eexists _, _. split; [reflexivity|]. split.
      * destruct e.
        -- destruct h1; reflexivity.
        -- apply (@paired_made _ c b2);
             [destruct h1; simpl in *; rewrite HC1; exact Hc
             |destruct h1; reflexivity | congruence].
      * simpl. congruence.
Qed.

Lemma send_each_pairs (fuel : nat) (rs : list rec.Rec) :
  forall h w,
  paired h = true ->
  HostRun.send_each fuel rs h w <> Panic
  /\ forall h' w',
       HostRun.send_each fuel rs h w = Ret (h', w') -> paired h' = true.
Proof.
  induction rs as [|r rs IH]; intros h w Hp; simpl.
  - split; [discriminate|]. intros h' w' H. inversion H; subst. exact Hp.
  - destruct (@tryToSend_loop_pairs fuel r fuel h w (or_intror Hp))
      as [Hnp Hret].
    fold (tryToSend fuel r h w) in Hnp, Hret.
    destruct (tryToSend fuel r h w) as [[h1 w1]| |]; cbn [bind];
      [|split; [discriminate | intros ? ? H; discriminate]|congruence].
    apply IH. exact (proj1 (Hret h1 w1 eq_refl)).
Qed.

(** One call, whatever it is. *)
Lemma call_pairs (fuel : nat) (c : HostCalls.Call) (h : Host)
      (w : World.t) :
  paired h = true ->
  HostCalls.call fuel c h w <> Panic
  /\ forall h' w',
       HostCalls.call fuel c h w = Ret (h', w') -> paired h' = true.
Proof.
  intros Hp. destruct c as [r| | | |r| | | | |d]; cbn [HostCalls.call].
  - split; [discriminate|]. intros h' w' H. inversion H; subst.
    rewrite <- Hp. apply paired_Conn. unfold Push.
    destruct (Chan.try_send (Ch h) r); destruct h; reflexivity.
  - unfold HostRun.Stream_recv. destruct (Chan.buf (Ch h)) as [|r q].
    + split; [discriminate|]. intros h' w' H. inversion H; subst. exact Hp.
    + destruct (@tryToSend_loop_pairs fuel r fuel
                  (set_Ch (Chan.Make q (Chan.cap (Ch h))) h) w) as [Hnp Hret].
      { right. rewrite <- Hp. apply paired_Conn. destruct h; reflexivity. }
      split; [exact Hnp|]. intros h' w' H. exact (proj1 (Hret h' w' H)).
  - unfold HostRun.Flush_on_tick.
    destruct (TCPOutBufFlushPeriodSec h =? 0)%Z.
    + split; [discriminate|]. intros h' w' H. inversion H; subst. exact Hp.
    + destruct (@tryToFlushIfNecessary_pairs fuel h w Hp)
        as [h1 [w1 [E [Hp1 _]]]].
      rewrite E. split; [discriminate|].
      intros h' w' H. inversion H; subst. exact Hp1.
  - unfold HostRun.Stream_end.
    destruct (@send_each_pairs fuel (Chan.buf (Ch h))
                (set_Ch (Chan.Make [] (Chan.cap (Ch h))) h) w)
      as [Hnp Hret].
    { rewrite <- Hp. apply paired_Conn. destruct h; reflexivity. }
    destruct (HostRun.send_each fuel (Chan.buf (Ch h)) _ w)
      as [[h1 w1]| |]; cbn [bind];
      [|split; [discriminate | intros ? ? H; discriminate]|congruence].
    destruct (@tryToFlushIfNecessary_pairs fuel h1 w1 (Hret h1 w1 eq_refl))
      as [h2 [w2 [E [Hp2 _]]]].
    rewrite E. split; [discriminate|].
    intros h' w' H. inversion H; subst. exact Hp2.
  - destruct (@tryToSend_loop_pairs fuel r fuel h w (or_intror Hp))
      as [Hnp Hret].
    split; [exact Hnp|]. intros h' w' H. exact (proj1 (Hret h' w' H)).
  - destruct (@tryToFlushIfNecessary_pairs fuel h w Hp)
      as [h1 [w1 [E [Hp1 _]]]].
    rewrite E. split; [discriminate|].
    intros h' w' H. inversion H; subst. exact Hp1.
  - split; [discriminate|]. intros h' w' H. inversion H as [H1].
    rewrite <- Hp. apply paired_Conn.
    assert (F : Conn (fst (checkUpdateHostStatus h w)) = Conn h).
    { unfold checkUpdateHostStatus, getConnectionToHost, Available_CAS.
      destruct (World.Dial w) as [[x|] w1];
        destruct h as [? ? ? av ? ? ? ? ? ? ? ? ? ? ? ? ? ? ? ? ? ? ?];
        [reflexivity | destruct av; reflexivity]. }
    rewrite H1 in F. exact F.
  - destruct (keepConnectionFresh_returns fuel h w)
      as [h1 [w1 [E [HC _]]]].
    rewrite E. split; [discriminate|].
    intros h' w' H. inversion H; subst. rewrite <- Hp.
    now apply paired_Conn.
  - split; [apply ensureConnection_loop_no_panic|].
    intros h' w' H. unfold ensureConnection in H.
    exact (proj1 (@ensureConnection_loop_pairs fuel 0%Z 1%Z h h' w w' (or_intror Hp) H)).
  - split; [discriminate|]. intros h' w' H. inversion H; subst. exact Hp.
Qed.

Lemma calls_pairs (fuel : nat) (cs : list HostCalls.Call) :
  forall h w,
  paired h = true ->
  HostCalls.calls fuel cs h w <> Panic
  /\ forall h' w',
       HostCalls.calls fuel cs h w = Ret (h', w') -> paired h' = true.
Proof.
  induction cs as [|c cs IH]; intros h w Hp; simpl.
  - split; [discriminate|]. intros h' w' H. inversion H; subst. exact Hp.
  - destruct (@call_pairs fuel c h w Hp) as [Hnp Hret].
    destruct (HostCalls.call fuel c h w) as [[h1 w1]| |]; cbn [bind];
      [|split; [discriminate | intros ? ? H; discriminate]|congruence].
    apply IH. exact (Hret h1 w1 eq_refl).
Qed.

End Pairing.

(** X16.  The connection field and the writer of a host are nil
    together, and the writer writes to the connection in the field: so
    it is of a host from [NewHost], and so it stays over any sequence
    of calls.  On such a host no call dereferences a nil connection or
    writer, and the flusher always returns and dials nothing: its
    branch for a writer without a connection is not taken. *)
Theorem connection_and_writer_stay_paired :
  (forall name mainCfg hostCfg,
     TargetSpec.paired (Target.NewHost name mainCfg hostCfg) = true)
  /\ (forall fuel cs h w,
        TargetSpec.paired h = true ->
        HostCalls.calls fuel cs h w <> Target.Panic
        /\ forall h' w',
             HostCalls.calls fuel cs h w = Target.Ret (h', w') ->
             TargetSpec.paired h' = true)
  /\ (forall fuel h w,
        TargetSpec.paired h = true ->
        exists h' w',
          Target.tryToFlushIfNecessary fuel h w = Target.Ret (h', w')
          /\ World.ndial w' = World.ndial w).
Proof.
  split; [reflexivity|]. split.
  - intros fuel cs h w Hp. now apply calls_pairs.
  - intros fuel h w Hp.
    destruct (@tryToFlushIfNecessary_pairs fuel h w Hp)
      as [h' [w' [E [_ Hn]]]].
    eauto.
Qed.

Lemma connection_and_writer_stay_paired_witness :
  let h := Target.NewHost "c1"%string (TargetSpec.sample_cfg 1000 10 0 4)
             TargetSpec.sample_host in
  let w := World.init 7 (TargetSpec.script [false; true] true)
             (TargetSpec.script [Some 2] None) in
  let cs := [HostCalls.CPush TargetSpec.sample_rec; HostCalls.CProbe;
             HostCalls.CRecv; HostCalls.CTick;
             HostCalls.CSend TargetSpec.sample_rec; HostCalls.CStreamEnd] in
  TargetSpec.paired h = true
  /\ HostCalls.calls 5 cs h w <> Target.Panic
  /\ (exists h' w', HostCalls.calls 5 cs h w = Target.Ret (h', w')
                    /\ TargetSpec.paired h' = true
                    /\ World.ndial w' = 3).
Proof.
  split; [reflexivity|]. split.
  - apply (proj1 (proj2 connection_and_writer_stay_paired)). reflexivity.
  - eexists _, _. split; [vm_compute; reflexivity|].
    split; reflexivity.
Defined.

(* ================================================================== *)
(** * The backoff that hosts built by NewHost follow *)

Section BackoffOfNewHost.
Import Target TargetSpec.

Lemma sleeps_ms_app (t1 t2 : list World.Event) :
  sleeps_ms (t1 ++ t2) = sleeps_ms t1 ++ sleeps_ms t2.
Proof.
  induction t1 as [|e t1 IH]; simpl; [reflexivity|].
  destruct e; simpl; now rewrite ?IH.
Qed.

(** With the delta equal to the cap, the wait goes to the cap at once. *)
Lemma next_wait_delta_is_max (h : Host) :
  ReconnectPeriodDeltaMs h = MaxReconnectPeriodMs h ->
  (0 <= MaxReconnectPeriodMs h < 2 ^ 32)%Z ->
  next_wait h 0 = MaxReconnectPeriodMs h
  /\ next_wait h (MaxReconnectPeriodMs h) = MaxReconnectPeriodMs h.
Proof.
  intros Hd Hm. unfold next_wait, u32. rewrite Hd. simpl.
  rewrite Z.mod_small by lia. split.
  - destruct (0 <? MaxReconnectPeriodMs h)%Z eqn:E1;
      destruct (_ >=? _)%Z eqn:E2; lia.
  - rewrite Z.ltb_irrefl. destruct (_ >=? _)%Z eqn:E2; lia.
Qed.

Lemma Connect_keeps_backoff_fields (a : Z) (h h' : Host) (w w' : World.t) :
  Connect a h w = (h', w') ->
  MaxReconnectPeriodMs h' = MaxReconnectPeriodMs h
  /\ ReconnectPeriodDeltaMs h' = ReconnectPeriodDeltaMs h.
Proof.
  unfold Connect, getConnectionToHost.
  destruct (World.Dial w) as [x w1].
  destruct h. unfold Available_CAS. simpl. intros H.
  destruct x as [c|].
  - inversion H; subst. split; reflexivity.
  - destruct (a =? 1)%Z; [destruct Available0|]; simpl in H;
      inversion H; subst; split; reflexivity.
Qed.

(** The waits of a run of [ensureConnection] on a host whose delta is
    its cap: the current wait, then the cap at every further attempt.
    The sequence is monotone and bounded by the cap. *)
Lemma ensureConnection_loop_sleeps (fuel : nat) :
  forall wait a h w h' w',
  ensureConnection_loop fuel wait a h w = Ret (h', w') ->
  ReconnectPeriodDeltaMs h = MaxReconnectPeriodMs h ->
  (0 <= MaxReconnectPeriodMs h < 2 ^ 32)%Z ->
  wait = 0%Z \/ wait = MaxReconnectPeriodMs h ->
  exists tr k,
    extends w w' tr
    /\ sleeps_ms tr
       = match cConn (Conn h) with
         | Some _ => []
         | None => wait :: repeat (MaxReconnectPeriodMs h) k
         end.
Proof.
  induction fuel as [|fuel IH]; intros wait a h w h' w' H Hd Hm Hw;
    simpl in H; destruct (cConn (Conn h)) eqn:Ec; try discriminate.
  - inversion H; subst. exists [], 0. split; [apply extends_refl | reflexivity].
  - inversion H; subst. exists [], 0. split; [apply extends_refl | reflexivity].
  - destruct (Connect a h (World.Sleep (wait * time.Millisecond) w))
      as [h1 w2] eqn:Econ.
    destruct (Connect_keeps_backoff_fields _ _ _ Econ) as [Hmax Hdelta].
    apply Connect_spec in Econ. destruct Econ as [_ [x [tn [Hx Hn]]]].
    destruct (next_wait_delta_is_max h Hd Hm) as [N0 N1].
    apply IH in H; try congruence.
    + destruct H as [tr [k [Ht Hs]]].
      exists (World.EvSleep (wait * time.Millisecond) :: World.EvDial x
              :: tn ++ tr).
      exists (match cConn (Conn h1) with Some _ => 0 | None => S k end).
      split.
      * unfold extends in *. rewrite Ht, Hx. simpl.
        rewrite <- !app_assoc. reflexivity.
      * simpl. rewrite Z.div_mul by (unfold time.Millisecond; lia).
        rewrite sleeps_ms_app, (now_sleeps_ms _ Hn), Hs. simpl. f_equal.
        destruct (cConn (Conn h1)); [reflexivity|].
        simpl. destruct Hw as [-> | ->]; rewrite ?N0, ?N1, Hmax; reflexivity.
    + right. destruct Hw as [-> | ->]; rewrite ?N0, ?N1; congruence.
Qed.

End BackoffOfNewHost.

(* ================================================================== *)
(** * More on the listeners *)

Section QueueFacts.
Import Listener ListenerSpec MoreSpec.

Lemma full_room (st : State) : Chan.full (queue st) = true <-> room st = 0.
Proof.
  unfold Chan.full, room. rewrite Nat.leb_le. lia.
Qed.

End QueueFacts.

(** X1.  Sending a batch of lines to the main queue enqueues, in order,
    as many of the first lines as the queue has room for and drops all the
    others; [InRecs] grows by the number enqueued and [ThrottledRecs] by
    the number dropped.  The queue keeps its capacity and what it held. *)
Theorem send_all_fills_room (ls : list bytes) :
  forall st : Listener.State,
  let st' := ListenerSpec.send_all ls st in
  let k := Nat.min (MoreSpec.room st) (length ls) in
  Chan.buf (Listener.queue st')
  = Chan.buf (Listener.queue st) ++ firstn (MoreSpec.room st) ls
  /\ Chan.cap (Listener.queue st') = Chan.cap (Listener.queue st)
  /\ Listener.InRecs (Listener.ms st') = Listener.InRecs (Listener.ms st) + k
  /\ Listener.ThrottledRecs (Listener.ms st')
     = Listener.ThrottledRecs (Listener.ms st) + (length ls - k).
Proof.
  induction ls as [|l ls IH]; intros st.
  - simpl. rewrite firstn_nil, app_nil_r, Nat.min_0_r. repeat split; lia.
  - cbv zeta. unfold ListenerSpec.send_all. simpl fold_left.
    fold (ListenerSpec.send_all ls (Listener.sendToMainQ l st)).
    specialize (IH (Listener.sendToMainQ l st)). cbv zeta in IH.
    destruct IH as [Hb [Hc [Hi Ht]]].
    rewrite Hb, Hc, Hi, Ht. clear Hb Hc Hi Ht.
    unfold Listener.sendToMainQ, Chan.try_send.
    destruct (Chan.full (Listener.queue st)) eqn:Ef.
    + apply full_room in Ef. unfold MoreSpec.room in *. simpl.
      rewrite Ef. simpl. repeat split; lia.
    + assert (Hr : MoreSpec.room st <> 0).
      { intros E. apply full_room in E. congruence. }
      unfold MoreSpec.room in *. simpl.
      rewrite length_app. simpl.
      destruct (Chan.cap (Listener.queue st)
                - length (Chan.buf (Listener.queue st))) as [|r] eqn:Er;
        [congruence|].
      replace (Chan.cap (Listener.queue st)
               - (length (Chan.buf (Listener.queue st)) + 1)) with r by lia.
      simpl. rewrite <- app_assoc. simpl. repeat split; lia.
Qed.

(** X2.  The read loop of the UDP listener, over everything it reads,
    sends to the main queue the complete lines of the datagrams in the
    order the datagrams arrive; a read error is skipped, and the error of
    a closed connection ends the loop, so that nothing read after it is
    sent. *)
Theorem listenUDP_sends_received_lines (reads : list Listener.ReadResult) :
  forall st : Listener.State,
  Listener.listenUDP reads st
  = ListenerSpec.send_all (MoreSpec.received_lines reads) st.
Proof.
  induction reads as [|rd reads IH]; intros st; [reflexivity|].
  destruct rd as [d|[|]]; simpl.
  - rewrite IH, listenUDP_datagram_send_all, send_all_app. reflexivity.
  - reflexivity.
  - apply IH.
Qed.

Section ScannerTail.
Import Listener ListenerSpec.

Variable limit : nat.

(** An unfinished last line that fits is a token when the input ends,
    unless it is empty. *)
Lemma scan_lines_tail (tail : bytes) :
  forall cur n,
  has_LF tail = false -> n + length tail < limit ->
  scan_lines limit cur n tail
  = (match rev cur ++ tail with
     | [] => []
     | _ :: _ => [dropCR (rev cur ++ tail)]
     end, ScanEOF).
Proof.
  induction tail as [|b tail IH]; intros cur n Hl Hn.
  - simpl. rewrite app_nil_r. destruct cur as [|a cur]; [reflexivity|].
    simpl. destruct (rev cur ++ [a]) eqn:E; [|reflexivity].
    apply app_eq_nil in E. destruct E; discriminate.
  - simpl in Hl. apply orb_false_iff in Hl. destruct Hl as [Hb Hl].
    simpl. rewrite Hb.
    assert (Hlim : (limit <=? S n) = false)
      by (apply Nat.leb_gt; simpl in Hn; lia).
    rewrite Hlim, IH by (simpl in *; auto; lia).
    simpl. rewrite <- app_assoc. reflexivity.
Qed.

End ScannerTail.

(** X3.  On a TCP connection that sends lines shorter than the largest
    token, each ended by LF, followed by a last piece without LF, every
    line is sent to the main queue in order with one trailing CR removed,
    and the last piece, when it is not empty, is sent as a line too once
    the connection ends (the UDP listener drops such a piece). *)
Theorem scanForRecordsTCP_sends_every_line
        (pre : list bytes) (tail : bytes) (st : Listener.State) :
  forallb ListenerSpec.short_line pre = true ->
  ListenerSpec.short_line tail = true ->
  Listener.scanForRecordsTCP (unlines pre ++ tail) None st
  = ListenerSpec.send_all
      (map Listener.dropCR pre
       ++ match tail with
          | [] => []
          | _ :: _ => [Listener.dropCR tail]
          end) st.
Proof.
  intros Hpre Htail.
  unfold ListenerSpec.short_line in Htail.
  apply andb_true_iff in Htail. destruct Htail as [Hno Hlen].
  apply negb_true_iff in Hno. apply Nat.ltb_lt in Hlen.
  unfold Listener.scanForRecordsTCP, Listener.Scanner_tokens.
  rewrite scan_lines_pre by exact Hpre.
  rewrite scan_lines_tail by (auto; lia).
  reflexivity.
Qed.

(** The statement above on two lines, the first with a CR, and an
    unfinished third. *)
Lemma scanForRecordsTCP_sends_every_line_witness :
  let l1 := String.list_byte_of_string "a 1 1"%string ++ [CR] in
  let l2 := String.list_byte_of_string "b 2 2"%string in
  let l3 := String.list_byte_of_string "c 3"%string in
  Chan.buf (Listener.queue
              (Listener.scanForRecordsTCP (unlines [l1; l2] ++ l3) None
                 (Listener.Listen_queue 8)))
  = [String.list_byte_of_string "a 1 1"%string; l2; l3].
Proof.
  intros l1 l2 l3.
  rewrite (@scanForRecordsTCP_sends_every_line [l1; l2] l3
             (Listener.Listen_queue 8)).
  - reflexivity.
  - vm_compute. reflexivity.
  - vm_compute. reflexivity.
Defined.

(** X4.  [parseListenOption] returns no error exactly when the option
    splits into a host part and a port part, the port part is a number
    for [Atoi] that lies between 0 and 65535, and the host part is either
    empty, in which case the address is nil (listen on all addresses), or
    an address that [net.ParseIP] accepts, which is then returned.  The
    port returned is the number parsed. *)
Theorem parseListenOption_ok
        (SplitHostPort : bytes -> option (bytes * bytes))
        (ParseIP : bytes -> option bytes)
        (listenOption : bytes) (ip : option bytes) (port : Z) :
  ListenOption.parseListenOption SplitHostPort ParseIP listenOption
  = (ip, port, None)
  <->
  exists ipStr portStr,
    SplitHostPort listenOption = Some (ipStr, portStr)
    /\ strconv.Atoi portStr = (port, None)
    /\ (0 <= port <= 65535)%Z
    /\ ((ipStr = [] /\ ip = None)
        \/ (ipStr <> [] /\ ParseIP ipStr = ip /\ ip <> None)).
Proof.
  unfold ListenOption.parseListenOption. split.
  - destruct (SplitHostPort listenOption) as [[ipStr portStr]|] eqn:Es;
      [|discriminate].
    destruct (strconv.Atoi portStr) as [p [e|]] eqn:Ea; [discriminate|].
    destruct ((p <? 0) || (p >? 65535))%Z eqn:Er; [discriminate|].
    apply orb_false_iff in Er. destruct Er as [E1 E2].
    apply Z.ltb_ge in E1. rewrite Z.gtb_ltb in E2. apply Z.ltb_ge in E2.
    destruct ipStr as [|b ipStr].
    + intros H; inversion H; subst. exists [], portStr.
      split; [reflexivity|]. split; [exact Ea|]. split; [lia|].
      left. split; reflexivity.
    + destruct (ParseIP (b :: ipStr)) as [a|] eqn:Ep; [|discriminate].
      intros H; inversion H; subst. exists (b :: ipStr), portStr.
      split; [reflexivity|]. split; [exact Ea|]. split; [lia|].
      right. split; [discriminate|]. split; [exact Ep | discriminate].
  - intros [ipStr [portStr [Hs [Ha [Hr Hip]]]]].
    rewrite Hs, Ha.
    assert (Er : ((port <? 0) || (port >? 65535))%Z = false).
    { apply orb_false_iff. split; [apply Z.ltb_ge; lia|].
      rewrite Z.gtb_ltb. apply Z.ltb_ge. lia. }
    rewrite Er.
    destruct Hip as [[-> ->] | [Hne [Hp Hn]]]; [reflexivity|].
    destruct ipStr as [|b ipStr]; [congruence|].
    rewrite Hp. destruct ip; [reflexivity | congruence].
Qed.

(** The statement above, right to left, for the option [:2003] with the
    text cut at its colon. *)
Lemma parseListenOption_ok_witness :
  ListenOption.parseListenOption MoreSpec.split_at_colon (fun _ => None)
    (String.list_byte_of_string ":2003"%string)
  = (None, 2003%Z, None).
Proof.
  apply (proj2 (parseListenOption_ok MoreSpec.split_at_colon (fun _ => None)
                  (String.list_byte_of_string ":2003"%string) None 2003)).
  exists [], (String.list_byte_of_string "2003"%string).
  split; [reflexivity|]. split; [vm_compute; reflexivity|].
  split; [lia|]. left. split; reflexivity.
Defined.

(* ================================================================== *)
(** * More on the host: connecting *)

Section Connecting.
Import Target TargetSpec MoreSpec.

Lemma next_wait_bounded (h : Host) (wait : Z) :
  (0 <= MaxReconnectPeriodMs h)%Z ->
  (0 <= next_wait h wait <= MaxReconnectPeriodMs h)%Z.
Proof.
  intros Hm. unfold next_wait, u32.
  pose proof (Z.mod_pos_bound (wait * 2 + ReconnectPeriodDeltaMs h) (2 ^ 32)
                ltac:(lia)) as Hu.
  destruct (wait <? MaxReconnectPeriodMs h)%Z eqn:E1.
  - destruct (_ >=? _)%Z eqn:E2; lia.
  - destruct (wait >=? MaxReconnectPeriodMs h)%Z eqn:E2; lia.
Qed.

Lemma ensureConnection_loop_sleeps_bounded (fuel : nat) :
  forall wait a h w h' w',
  ensureConnection_loop fuel wait a h w = Ret (h', w') ->
  (0 <= MaxReconnectPeriodMs h)%Z ->
  (0 <= wait <= MaxReconnectPeriodMs h)%Z ->
  exists tr,
    extends w w' tr
    /\ forallb (fun d => (0 <=? d)%Z && (d <=? MaxReconnectPeriodMs h)%Z)
         (sleeps_ms tr) = true
    /\ (cConn (Conn h) = None -> exists rest, sleeps_ms tr = wait :: rest).
Proof.
  induction fuel as [|fuel IH]; intros wait a h w h' w' H Hm Hw;
    simpl in H; destruct (cConn (Conn h)) eqn:Ec; try discriminate.
  - inversion H; subst. exists []. split; [apply extends_refl|].
    split; [reflexivity | discriminate].
  - inversion H; subst. exists []. split; [apply extends_refl|].
    split; [reflexivity | discriminate].
  - destruct (Connect a h (World.Sleep (wait * time.Millisecond) w))
      as [h1 w2] eqn:Econ.
    destruct (Connect_keeps_backoff_fields _ _ _ Econ) as [Hmax _].
    apply Connect_spec in Econ. destruct Econ as [_ [x [tn [Hx Hn]]]].
    apply IH in H; rewrite ?Hmax; auto using next_wait_bounded.
    destruct H as [tr [Ht [Hs _]]].
    exists (World.EvSleep (wait * time.Millisecond) :: World.EvDial x
            :: tn ++ tr).
    split; [|split].
    + unfold extends in *. rewrite Ht, Hx. simpl.
      rewrite <- !app_assoc. reflexivity.
    + simpl. rewrite Z.div_mul by (unfold time.Millisecond; lia).
      rewrite sleeps_ms_app, (now_sleeps_ms _ Hn). simpl.
      rewrite Hmax in Hs. rewrite Hs, andb_true_r.
      apply andb_true_iff. split; apply Z.leb_le; lia.
    + intros _. simpl. rewrite Z.div_mul by (unfold time.Millisecond; lia).
      eauto.
Qed.

End Connecting.

(** X5.  Whatever the delta and the cap of a host (the cap not negative),
    a run of [ensureConnection] that returns sleeps before each dial, the
    first sleep is 0 when a connection had to be made, and no sleep is
    negative or longer than [MaxReconnectPeriodMs], the 32-bit wrap of the
    doubled wait included. *)
Theorem ensureConnection_sleeps_within_cap
        (fuel : nat) (h h' : Target.Host) (w w' : World.t) :
  Target.ensureConnection fuel h w = Target.Ret (h', w') ->
  (0 <= Target.MaxReconnectPeriodMs h)%Z ->
  exists tr,
    World.trace w' = World.trace w ++ tr
    /\ forallb (fun d => (0 <=? d)%Z
                         && (d <=? Target.MaxReconnectPeriodMs h)%Z)
         (TargetSpec.sleeps_ms tr) = true
    /\ (Target.cConn (Target.Conn h) = None ->
        exists rest, TargetSpec.sleeps_ms tr = 0%Z :: rest).
Proof.
  intros H Hm. unfold Target.ensureConnection in H.
  apply ensureConnection_loop_sleeps_bounded in H; [exact H | exact Hm | lia].
Qed.

(** The statement above on a host whose doubled wait wraps around: cap
    4000000000 ms, delta 3000000000 ms, two refused dials. *)
Lemma ensureConnection_sleeps_within_cap_witness :
  let h := Target.set_Conn (Target.MkConnection None 0 None)
             (Target.MkHost "h1"%string 2004 (Chan.make rec.Rec 4) true
                (Target.MkConnection None 0 None) 5 5 1
                4000000000 3000000000 3000 2 0 0 0 0 0 0 0 0 0 [] 4096) in
  let w := World.init 0 (TargetSpec.script [false; false] true)
             (fun _ => None) in
  match Target.ensureConnection 3 h w with
  | Target.Ret (h', w') =>
      exists tr,
        World.trace w' = World.trace w ++ tr
        /\ forallb (fun d => (0 <=? d)%Z
                             && (d <=? Target.MaxReconnectPeriodMs h)%Z)
             (TargetSpec.sleeps_ms tr) = true
        /\ (Target.cConn (Target.Conn h) = None ->
            exists rest, TargetSpec.sleeps_ms tr = 0%Z :: rest)
  | _ => False
  end.
Proof.
  intros h w.
  destruct (Target.ensureConnection 3 h w) as [[h' w']| |] eqn:E.
  - apply (@ensureConnection_sleeps_within_cap 3 h h' w w' E).
    vm_compute. discriminate.
  - vm_compute in E. discriminate E.
  - vm_compute in E. discriminate E.
Defined.

Section DialFacts.
Import Target TargetSpec.

Lemma Connect_fail_facts (a : Z) (h : Host) (w : World.t) :
  World.dial_ok w (World.ndial w) = false ->
  cConn (Conn (fst (Connect a h w))) = None
  /\ World.ndial (snd (Connect a h w)) = S (World.ndial w)
  /\ World.dial_ok (snd (Connect a h w)) = World.dial_ok w
  /\ World.socks (snd (Connect a h w)) = World.socks w
  /\ Available (fst (Connect a h w))
     = (if (a =? 1)%Z then false else Available h)
  /\ stateChanges (fst (Connect a h w))
     = stateChanges h + (if (a =? 1)%Z && Available h then 1 else 0).
Proof.
  intros Hd. unfold Connect, getConnectionToHost, World.Dial. rewrite Hd.
  destruct h. unfold Available_CAS. simpl.
  destruct (a =? 1)%Z; [destruct Available0|]; simpl; repeat split; lia.
Qed.

Lemma Connect_ok_facts (a : Z) (h : Host) (w : World.t) :
  World.dial_ok w (World.ndial w) = true ->
  cConn (Conn (fst (Connect a h w))) = Some (length (World.socks w))
  /\ World.ndial (snd (Connect a h w)) = S (World.ndial w)
  /\ World.is_open (length (World.socks w)) (snd (Connect a h w)) = true
  /\ Available (fst (Connect a h w)) = true
  /\ stateChanges (fst (Connect a h w)) = stateChanges h.
Proof.
  intros Hd. unfold Connect, getConnectionToHost, World.Dial. rewrite Hd.
  destruct h. simpl. repeat split.
  unfold World.is_open. simpl.
  rewrite nth_error_app2, Nat.sub_diag by lia. reflexivity.
Qed.

Lemma ensureConnection_loop_first_success (k : nat) :
  forall fuel wait a h w,
  cConn (Conn h) = None ->
  (1 <= a)%Z ->
  (forall j, j < k -> World.dial_ok w (World.ndial w + j) = false) ->
  World.dial_ok w (World.ndial w + k) = true ->
  k < fuel ->
  exists h' w',
    ensureConnection_loop fuel wait a h w = Ret (h', w')
    /\ World.ndial w' = World.ndial w + S k
    /\ cConn (Conn h') = Some (length (World.socks w))
    /\ World.is_open (length (World.socks w)) w' = true
    /\ Available h' = true
    /\ stateChanges h'
       = stateChanges h
         + (if (a =? 1)%Z && Available h && (0 <? k) then 1 else 0).
Proof.
  induction k as [|k IH]; intros fuel wait a h w Hc Ha Hfail Hok Hk;
    (destruct fuel as [|fuel]; [lia|]); simpl; rewrite Hc.
  - rewrite Nat.add_0_r in Hok.
    pose proof (@Connect_ok_facts a h
                  (World.Sleep (wait * time.Millisecond) w) Hok)
      as [F1 [F2 [F3 [F4 F5]]]].
    destruct (Connect a h (World.Sleep (wait * time.Millisecond) w))
      as [h1 w1]. simpl in *.
    rewrite (ensureConnection_loop_connected _ _ _ _ _ F1).
    exists h1, w1. rewrite andb_false_r.
    repeat split; auto; lia.
  - assert (H0 : World.dial_ok w (World.ndial w) = false).
    { rewrite <- (Nat.add_0_r (World.ndial w)). apply Hfail. lia. }
    pose proof (@Connect_fail_facts a h
                  (World.Sleep (wait * time.Millisecond) w) H0)
      as [F1 [F2 [F3 [F4 [F5 F6]]]]].
    destruct (Connect a h (World.Sleep (wait * time.Millisecond) w))
      as [h1 w1]. simpl in *.
    destruct (IH fuel (next_wait h wait) (a + 1)%Z h1 w1)
      as [h' [w' [E [N [C [O [A S']]]]]]]; auto; try lia.
    + intros j Hj. rewrite F3, F2.
      replace (S (World.ndial w) + j) with (World.ndial w + S j) by lia.
      apply Hfail. lia.
    + rewrite F3, F2.
      replace (S (World.ndial w) + k) with (World.ndial w + S k) by lia.
      exact Hok.
    + rewrite F4 in C, O. rewrite F2 in N. rewrite F6 in S'.
      replace (a + 1 =? 1)%Z with false in S'
        by (symmetry; apply Z.eqb_neq; lia).
      simpl in S'. rewrite Nat.add_0_r in S'.
      exists h', w'. rewrite andb_true_r.
      split; [exact E|]. split; [lia|]. split; [exact C|].
      split; [exact O|]. split; [exact A | exact S'].
Qed.

End DialFacts.

(** X6.  A host without a connection whose target refuses the next [k]
    dials and accepts the one after: [ensureConnection] returns after
    exactly [k+1] dials, with the new connection in place and open and
    the host available; one state change is counted when the host was
    available and the first dial failed, none otherwise. *)
Theorem ensureConnection_stops_at_first_success
        (k fuel : nat) (h : Target.Host) (w : World.t) :
  Target.cConn (Target.Conn h) = None ->
  (forall j, j < k -> World.dial_ok w (World.ndial w + j) = false) ->
  World.dial_ok w (World.ndial w + k) = true ->
  k < fuel ->
  exists h' w',
    Target.ensureConnection fuel h w = Target.Ret (h', w')
    /\ World.ndial w' = World.ndial w + S k
    /\ Target.cConn (Target.Conn h') = Some (length (World.socks w))
    /\ World.is_open (length (World.socks w)) w' = true
    /\ Target.Available h' = true
    /\ Target.stateChanges h'
       = Target.stateChanges h
         + (if Target.Available h && (0 <? k) then 1 else 0).
Proof.
  intros Hc Hfail Hok Hk. unfold Target.ensureConnection.
  destruct (@ensureConnection_loop_first_success k fuel 0 1 h w
              Hc ltac:(lia) Hfail Hok Hk) as [h' [w' H]].
  exists h', w'. exact H.
Qed.

(** The statement above on a fresh host whose target refuses two dials. *)
Lemma ensureConnection_stops_at_first_success_witness :
  let h := Target.NewHost "c1"%string (TargetSpec.sample_cfg 1000 10 0 4096)
             TargetSpec.sample_host in
  let w := World.init 0 (TargetSpec.script [false; false] true)
             (fun _ => None) in
  exists h' w',
    Target.ensureConnection 3 h w = Target.Ret (h', w')
    /\ World.ndial w' = World.ndial w + 3
    /\ Target.cConn (Target.Conn h') = Some (length (World.socks w))
    /\ World.is_open (length (World.socks w)) w' = true
    /\ Target.Available h' = true
    /\ Target.stateChanges h'
       = Target.stateChanges h
         + (if Target.Available h && (0 <? 2) then 1 else 0).
Proof.
  intros h w.
  apply (@ensureConnection_stops_at_first_success 2 3 h w).
  - reflexivity.
  - intros [|[|j]] Hj; [reflexivity | reflexivity | lia].
  - reflexivity.
  - lia.
Defined.

(** X7.  While the target refuses every dial, [ensureConnection] on a
    host without a connection does not return, whatever the number of
    rounds it is given, and neither does [tryToSend]: the record is never
    counted as sent. *)
Theorem refused_dials_never_return
        (fuel : nat) (r : rec.Rec) (h : Target.Host) (w : World.t) :
  (forall k, World.dial_ok w k = false) ->
  Target.cConn (Target.Conn h) = None ->
  Target.ensureConnection fuel h w = Target.OutOfFuel
  /\ Target.tryToSend fuel r h w = Target.OutOfFuel.
Proof.
  intros Hd Hc.
  assert (He : Target.ensureConnection fuel h w = Target.OutOfFuel).
  { unfold Target.ensureConnection.
    now apply ensureConnection_loop_refused. }
  split; [exact He|].
  unfold Target.tryToSend. destruct fuel as [|fuel]; [reflexivity|].
  cbn [Target.tryToSend_loop]. rewrite He. reflexivity.
Qed.

(** The statement above on a fresh host, with five rounds. *)
Lemma refused_dials_never_return_witness :
  let h := Target.NewHost "c1"%string (TargetSpec.sample_cfg 1000 10 0 4096)
             TargetSpec.sample_host in
  let w := World.init 0 (fun _ => false) (fun _ => None) in
  Target.ensureConnection 5 h w = Target.OutOfFuel
  /\ Target.tryToSend 5 TargetSpec.sample_rec h w = Target.OutOfFuel.
Proof.
  intros h w.
  apply (@refused_dials_never_return 5 TargetSpec.sample_rec h w).
  - intros k. reflexivity.
  - reflexivity.
Defined.


(* ================================================================== *)
(** * More on the host: queue, sender and flusher together *)

Section Frames.
Import Target TargetSpec MoreSpec.

Lemma Connect_queue_frame (a : Z) (h h' : Host) (w w' : World.t) :
  Connect a h w = (h', w') -> queue_frame h' = queue_frame h.
Proof.
  unfold Connect, getConnectionToHost.
  destruct (World.Dial w) as [x w1].
  destruct h. unfold Available_CAS. simpl. intros H.
  destruct x as [c|].
  - inversion H; subst. reflexivity.
  - destruct (a =? 1)%Z; [destruct Available0|]; simpl in H;
      inversion H; subst; reflexivity.
Qed.

Lemma ensureConnection_loop_queue_frame (fuel : nat) :
  forall wait a h w h' w',
  ensureConnection_loop fuel wait a h w = Ret (h', w') ->
  queue_frame h' = queue_frame h.
Proof.
  induction fuel as [|fuel IH]; intros wait a h w h' w' H; simpl in H;
    destruct (cConn (Conn h)); try discriminate;
    try (inversion H; subst; reflexivity).
  destruct (Connect a h (World.Sleep (wait * time.Millisecond) w))
    as [h1 w2] eqn:Econ.
  apply Connect_queue_frame in Econ. apply IH in H. congruence.
Qed.

(** [keepConnectionFresh] counts no record and leaves the queue alone;
    it makes no write through the writer. *)
Lemma keepConnectionFresh_frames (fuel : nat) (h h' : Host) (w w' : World.t) :
  keepConnectionFresh fuel h w = Ret (h', w') ->
  queue_frame h' = queue_frame h
  /\ send_frame h' = send_frame h
  /\ exists tr, extends w w' tr /\ quiet tr.
Proof.
  intros H. destruct (cConn (Conn h)) as [c|] eqn:Ec.
  - destruct (@keepConnectionFresh_kept fuel h h' w w' c Ec H)
      as [tr [Hev [Hq [_ [_ [_ [Hf [_ [Hqf _]]]]]]]]].
    split; [exact Hqf|]. split; [exact Hf|].
    exists tr. split; [now apply evolves_extends | exact Hq].
  - rewrite (keepConnectionFresh_nil fuel h w Ec) in H.
    inversion H; subst. split; [reflexivity|]. split; [reflexivity|].
    exists []. split; [apply extends_refl | reflexivity].
Qed.

Lemma tryToSend_loop_queue_frame (fuel : nat) (r : rec.Rec) (n : nat) :
  forall h w h' w',
  tryToSend_loop fuel n r h w = Ret (h', w') ->
  queue_frame h' = queue_frame h.
Proof.
  induction n as [|n IH]; intros h w h' w' H; simpl in H; [discriminate|].
  destruct (ensureConnection fuel h w) as [[h1 w1]| |] eqn:E1;
    simpl in H; try discriminate.
  unfold ensureConnection in E1.
  apply ensureConnection_loop_queue_frame in E1.
  destruct (keepConnectionFresh fuel h1 w1) as [[h2 w2]| |] eqn:E2;
    simpl in H; try discriminate.
  apply keepConnectionFresh_frames in E2. destruct E2 as [E2 _].
  destruct (cConn (Conn h2)) as [c|]; [|discriminate].
  destruct (W (Conn h2)) as [b|]; [|discriminate].
  destruct (bufio.Write b (rec.Serialize r) _) as [[b1 err] w4].
  destruct err; simpl in H.
  - apply IH in H. rewrite H, <- E1, <- E2. destruct h2; reflexivity.
  - inversion H; subst. rewrite <- E1, <- E2. destruct h2; reflexivity.
Qed.

(** [tryToFlushIfNecessary] counts no record, leaves the queue alone and
    makes no [W.Write]. *)
Lemma tryToFlushIfNecessary_frames (fuel : nat) (h h' : Host)
      (w w' : World.t) :
  tryToFlushIfNecessary fuel h w = Ret (h', w') ->
  queue_frame h' = queue_frame h
  /\ send_frame h' = send_frame h
  /\ exists tr, extends w w' tr /\ quiet tr.
Proof.
  unfold tryToFlushIfNecessary.
  destruct (W (Conn h)) as [b|];
    [|intros H; inversion H; subst; repeat split;
      exists []; split; [apply extends_refl | reflexivity]].
  destruct (negb (bufio.Buffered b =? 0));
    [|intros H; inversion H; subst; repeat split;
      exists []; split; [apply extends_refl | reflexivity]].
  assert (Hpre : forall h1 w1,
            match cConn (Conn h) with
            | Some _ => keepConnectionFresh fuel h w
            | None => ensureConnection fuel h w
            end = Ret (h1, w1) ->
            queue_frame h1 = queue_frame h /\ send_frame h1 = send_frame h
            /\ exists tr, extends w w1 tr /\ quiet tr).
  { intros h1 w1 H. destruct (cConn (Conn h)).
    - now apply (@keepConnectionFresh_frames fuel).
    - unfold ensureConnection in H.
      pose proof (ensureConnection_loop_queue_frame _ _ _ _ _ H) as Hq.
      apply ensureConnection_loop_spec in H.
      destruct H as [Hf [_ [tr [Ht [Hqu _]]]]]. eauto. }
  destruct (match cConn (Conn h) with
            | Some _ => keepConnectionFresh fuel h w
            | None => ensureConnection fuel h w
            end) as [[h1 w1]| |] eqn:E; simpl; try discriminate.
  destruct (Hpre h1 w1 eq_refl) as [Hq [Hf [t1 [Ht1 Hq1]]]].
  destruct (W (Conn h1)) as [b1|]; [|discriminate].
  unfold bufio.Flush.
  destruct (bufio.flush b1 w1) as [[b2 e] w2] eqn:Ef.
  apply flush_extends in Ef. destruct Ef as [t2 [Ht2 Hq2]].
  intros H; inversion H; subst h' w'. clear H.
  split; [|split].
  - rewrite <- Hq. destruct h1, e; reflexivity.
  - rewrite <- Hf. destruct h1, e; reflexivity.
  - exists (t1 ++ t2 ++ [World.EvFlush e]
            ++ [World.EvNow
                  (World.now (World.tick (World.log (World.EvFlush e) w2)))]).
    split.
    + eapply extends_trans; [exact Ht1|].
      eapply extends_trans; [exact Ht2|].
      eapply extends_trans; [apply extends_log | apply tick_extends].
    + apply quiet_app; [exact Hq1|]. apply quiet_app; [exact Hq2 | reflexivity].
Qed.

Lemma sent_app (t1 t2 : list World.Event) :
  sent (t1 ++ t2) = sent t1 ++ sent t2.
Proof.
  induction t1 as [|e t1 IH]; simpl; [reflexivity|].
  destruct e; simpl; try exact IH.
  destruct err; simpl; now rewrite ?IH.
Qed.

Lemma sent_no_writes (tr : list World.Event) : writes tr = [] -> sent tr = [].
Proof.
  induction tr as [|e tr IH]; intros H; [reflexivity|].
  destruct e; simpl in *; try (apply IH; exact H). discriminate.
Qed.

(** Failed writes of a record and then one that succeeds: the record is
    sent once. *)
Lemma sent_after_retries (tr : list World.Event) (p : bytes) :
  forall k,
  writes tr = repeat (p, true) k ++ [(p, false)] -> sent tr = [p].
Proof.
  induction tr as [|e tr IH]; intros k H.
  - destruct k; discriminate.
  - destruct e; simpl in *; try (apply (IH k); exact H).
    destruct k as [|k]; simpl in H; inversion H; subst.
    + rewrite (sent_no_writes tr) by assumption. reflexivity.
    + apply (IH k). assumption.
Qed.

(** One record through [tryToSend]. *)
Lemma tryToSend_sends_once (fuel : nat) (r : rec.Rec) (h h' : Host)
      (w w' : World.t) :
  tryToSend fuel r h w = Ret (h', w') ->
  queue_frame h' = queue_frame h
  /\ outRecs h' = S (outRecs h)
  /\ exists tr, extends w w' tr /\ sent tr = [rec.Serialize r].
Proof.
  intros H. unfold tryToSend in H.
  pose proof (tryToSend_loop_queue_frame _ _ _ _ _ H) as Hq.
  apply (@tryToSend_loop_spec fuel r fuel h w (Idle None)) in H; [|now left].
  destruct H as [tr [k [c [b' [tr0 [t0 [tw [t1 [t2 [Ht [Hw [_ [_ [_ [_ [_
    [_ [_ [_ [Ho _]]]]]]]]]]]]]]]]]]]].
  split; [exact Hq|]. split; [exact Ho|].
  exists tr. split; [now apply evolves_extends|].
  exact (@sent_after_retries tr _ k Hw).
Qed.

End Frames.

Section Running.
Import Target TargetSpec MoreSpec HostRun.

Lemma send_each_spec (fuel : nat) (rs : list rec.Rec) :
  forall h w h' w',
  send_each fuel rs h w = Ret (h', w') ->
  queue_frame h' = queue_frame h
  /\ outRecs h' = outRecs h + length rs
  /\ exists tr, extends w w' tr /\ sent tr = map rec.Serialize rs.
Proof.
  induction rs as [|r rs IH]; intros h w h' w' H; simpl in H.
  - inversion H; subst. split; [reflexivity|]. split; [simpl; lia|].
    exists []. split; [apply extends_refl | reflexivity].
  - destruct (tryToSend fuel r h w) as [[h1 w1]| |] eqn:E1;
      simpl in H; try discriminate.
    apply tryToSend_sends_once in E1.
    destruct E1 as [Hq1 [Ho1 [t1 [Ht1 Hs1]]]].
    apply IH in H. destruct H as [Hq [Ho [t2 [Ht2 Hs2]]]].
    split; [congruence|]. split; [simpl; lia|].
    exists (t1 ++ t2). split; [eapply extends_trans; eauto|].
    rewrite sent_app, Hs1, Hs2. reflexivity.
Qed.

(** The host's run against its queue taken alone. *)
Lemma run_spec (fuel : nat) (acts : list Action) :
  forall h w h' w',
  run fuel acts h w = Ret (h', w') ->
  let q := Chan.buf (Ch h) in
  let cap := Chan.cap (Ch h) in
  Chan.buf (Ch h') = []
  /\ Chan.cap (Ch h') = cap
  /\ outRecs h' = outRecs h + length (handed acts q cap)
  /\ throttled h' = throttled h + refused acts q cap
  /\ exists tr,
       extends w w' tr
       /\ sent tr = map rec.Serialize (handed acts q cap).
Proof.
  induction acts as [|a acts IH]; intros h w h' w' H; cbv zeta.
  - simpl in H. unfold Stream_end in H.
    destruct (send_each fuel (Chan.buf (Ch h)) _ w) as [[h1 w1]| |] eqn:E1;
      simpl in H; try discriminate.
    apply send_each_spec in E1. destruct E1 as [Hq1 [Ho1 [t1 [Ht1 Hs1]]]].
    apply tryToFlushIfNecessary_frames in H.
    destruct H as [Hq [Hf [t2 [Ht2 Hq2]]]].
    unfold queue_frame, send_frame in *.
    assert (HCh : Ch h' = Chan.Make [] (Chan.cap (Ch h))).
    { transitivity (Ch h1); [congruence|].
      transitivity (Ch (set_Ch (Chan.Make [] (Chan.cap (Ch h))) h));
        [congruence | destruct h; reflexivity]. }
    rewrite HCh. simpl.
    split; [reflexivity|]. split; [reflexivity|].
    split; [|split].
    + replace (outRecs h') with (outRecs h1) by congruence.
      rewrite Ho1. destruct h; reflexivity.
    + replace (throttled h') with (throttled h1) by congruence.
      replace (throttled h1)
        with (throttled (set_Ch (Chan.Make [] (Chan.cap (Ch h))) h))
        by congruence.
      destruct h; simpl; lia.
    + exists (t1 ++ t2). split; [eapply extends_trans; eauto|].
      rewrite sent_app, Hs1, (sent_no_writes t2 (writes_quiet Hq2)).
      apply app_nil_r.
  - simpl in H.
    destruct (step fuel a h w) as [[h1 w1]| |] eqn:E1;
      simpl in H; try discriminate.
    apply IH in H. cbv zeta in H.
    destruct H as [Hb [Hc [Ho [Hth [t2 [Ht2 Hs2]]]]]].
    destruct a as [r| |]; simpl in E1.
    + (* a push *)
      inversion E1; subst h1 w1. clear E1.
      unfold Push, Chan.try_send, Chan.full in *.
      simpl handed. simpl refused.
      destruct (Chan.cap (Ch h) <=? length (Chan.buf (Ch h))) eqn:Ef.
      * destruct h; simpl in *.
        repeat split; try assumption; try lia. eauto.
      * destruct h; simpl in *.
        repeat split; try assumption; try lia. eauto.
    + (* a receive *)
      unfold Stream_recv in E1. simpl handed. simpl refused.
      destruct (Chan.buf (Ch h)) as [|r q] eqn:Eq.
      * inversion E1; subst h1 w1. rewrite Eq in *. simpl.
        repeat split; try assumption. eauto.
      * apply tryToSend_sends_once in E1.
        destruct E1 as [Hq1 [Ho1 [t1 [Ht1 Hs1]]]].
        unfold queue_frame in Hq1.
        assert (HCh : Ch h1 = Chan.Make q (Chan.cap (Ch h))).
        { transitivity (Ch (set_Ch (Chan.Make q (Chan.cap (Ch h))) h));
            [congruence | destruct h; reflexivity]. }
        rewrite HCh in *. simpl in *.
        split; [exact Hb|]. split; [exact Hc|]. split; [|split].
        -- rewrite Ho, Ho1. destruct h; simpl; lia.
        -- rewrite Hth.
           replace (throttled h1)
             with (throttled (set_Ch (Chan.Make q (Chan.cap (Ch h))) h))
             by congruence.
           destruct h; reflexivity.
        -- exists (t1 ++ t2). split; [eapply extends_trans; eauto|].
           rewrite sent_app, Hs1, Hs2. reflexivity.
    + (* a tick *)
      unfold Flush_on_tick in E1. simpl handed. simpl refused.
      destruct (TCPOutBufFlushPeriodSec h =? 0)%Z.
      * inversion E1; subst h1 w1.
        repeat split; try assumption. eauto.
      * apply tryToFlushIfNecessary_frames in E1.
        destruct E1 as [Hq1 [Hf1 [t1 [Ht1 Hqu1]]]].
        unfold queue_frame, send_frame in *.
        replace (Ch h) with (Ch h1) by congruence.
        replace (outRecs h) with (outRecs h1) by congruence.
        replace (throttled h) with (throttled h1) by congruence.
        repeat split; try assumption.
        exists (t1 ++ t2). split; [eapply extends_trans; eauto|].
        rewrite sent_app, (sent_no_writes t1 (writes_quiet Hqu1)).
        exact Hs2.
Qed.

(** Nothing is lost in the queue's books: what is handed to the sender
    and what is refused make up what the queue held and what was
    pushed. *)
Lemma handed_refused_count (acts : list Action) (cap : nat) :
  forall q,
  length (handed acts q cap) + refused acts q cap
  = length q + length (pushed acts).
Proof.
  induction acts as [|a acts IH]; intros q; simpl; [lia|].
  destruct a as [r| |].
  - destruct (cap <=? length q).
    + rewrite <- plus_n_Sm, IH. simpl. lia.
    + rewrite IH, length_app. simpl. lia.
  - destruct q as [|r q]; simpl; rewrite IH; simpl; lia.
  - apply IH.
Qed.


End Running.

(** X8.  However pushes, receives of the sender and ticks of the
    flusher follow each other, when [Stream] returns after its queue is
    closed the queue is empty, and every record that was in the queue or
    was pushed has been either written through the writer exactly once
    ([outRecs] counts it) or refused by a full queue ([throttled] counts
    it); the writes that succeeded are the records handed over by the
    queue, in its order. *)
Theorem run_sends_or_throttles_every_record
        (fuel : nat) (acts : list HostRun.Action)
        (h h' : Target.Host) (w w' : World.t) :
  HostRun.run fuel acts h w = Target.Ret (h', w') ->
  let q := Chan.buf (Target.Ch h) in
  let cap := Chan.cap (Target.Ch h) in
  Chan.buf (Target.Ch h') = []
  /\ (Target.outRecs h' - Target.outRecs h)
     + (Target.throttled h' - Target.throttled h)
     = length q + length (MoreSpec.pushed acts)
  /\ Target.throttled h' - Target.throttled h = MoreSpec.refused acts q cap
  /\ exists tr,
       World.trace w' = World.trace w ++ tr
       /\ MoreSpec.sent tr
          = map rec.Serialize (MoreSpec.handed acts q cap).
Proof.
  intros H q cap.
  apply run_spec in H. cbv zeta in H. fold q cap in H.
  destruct H as [Hb [_ [Ho [Ht Htr]]]].
  pose proof (handed_refused_count acts cap q) as Hcount.
  split; [exact Hb|]. split; [lia|]. split; [lia | exact Htr].
Qed.

(** The statement above on a queue of capacity 4 that is pushed six
    records before the sender receives, against a network that fails the
    first write. *)
Lemma run_sends_or_throttles_every_record_witness :
  let h := Target.NewHost "c1"%string (TargetSpec.sample_cfg 1000 10 0 4)
             TargetSpec.sample_host in
  let w := World.init 7 (fun _ => true) (TargetSpec.script [Some 3] None) in
  let r := TargetSpec.sample_rec in
  let acts := [HostRun.APush r; HostRun.APush r; HostRun.APush r;
               HostRun.APush r; HostRun.APush r; HostRun.APush r;
               HostRun.ARecv; HostRun.ATick; HostRun.APush r] in
  match HostRun.run 2 acts h w with
  | Target.Ret (h', w') =>
      Chan.buf (Target.Ch h') = []
      /\ (Target.outRecs h' - Target.outRecs h)
         + (Target.throttled h' - Target.throttled h)
         = 0 + 7
      /\ Target.throttled h' - Target.throttled h = 2
  | _ => False
  end.
Proof.
  intros h w r acts.
  destruct (HostRun.run 2 acts h w) as [[h' w']| |] eqn:E.
  - destruct (@run_sends_or_throttles_every_record 2 acts h h' w w' E)
      as [H1 [H2 [H3 _]]].
    split; [exact H1|]. split; [exact H2 | exact H3].
  - vm_compute in E. discriminate E.
  - vm_compute in E. discriminate E.
Defined.

(* ================================================================== *)
(** * More on the host: the bytes that reach the target *)

Section Conservation.
Import Target TargetSpec MoreSpec HostRun.






Lemma Dial_ok_world (w : World.t) :
  healthy w ->
  healthy (snd (World.Dial w))
  /\ World.is_open (length (World.socks w)) (snd (World.Dial w)) = true
  /\ delivered_on (length (World.socks w)) (snd (World.Dial w)) = [].
Proof.
  intros [Hd Hw]. unfold World.Dial. rewrite (Hd _ (Nat.le_refl _)).
  unfold World.is_open, delivered_on. simpl.
  rewrite nth_error_app2, Nat.sub_diag by lia. simpl.
  split; [|auto]. split; simpl; auto. intros k Hk. apply Hd. lia.
Qed.





End Conservation.

Section ConservationRun.
Import Target TargetSpec MoreSpec HostRun.





End ConservationRun.





(* ================================================================== *)
(** * More on the host: the probe and the flusher *)

(** X11.  The availability probe changes nothing of the host but the
    flag and the two counters of state changes: the connection cell, the
    options, the queue and its throttle counters, the counters and the
    histogram of the sender and the counters of the refreshes are as
    before.  The flag takes the outcome of the one dial the probe makes,
    and the state changes are counted when it goes from true to false.
    The probe writes nothing and closes the connection it dials before
    it returns: the connections that are open after it are the ones that
    were open before, and each has got what it had. *)
Theorem checkUpdateHostStatus_leaves_no_connection
        (h : Target.Host) (w : World.t) :
  let h' := fst (Target.checkUpdateHostStatus h w) in
  let w' := snd (Target.checkUpdateHostStatus h w) in
  Target.Conn h' = Target.Conn h
  /\ TargetSpec.config h' = TargetSpec.config h
  /\ MoreSpec.queue_frame h' = MoreSpec.queue_frame h
  /\ TargetSpec.send_frame h' = TargetSpec.send_frame h
  /\ TargetSpec.refresh_frame h' = TargetSpec.refresh_frame h
  /\ Target.Available h' = World.dial_ok w (World.ndial w)
  /\ Target.stateChanges h'
     = Target.stateChanges h
       + TargetSpec.down_edge (Target.Available h) (Target.Available h')
  /\ Target.stateChangesTotal h'
     = Target.stateChangesTotal h
       + TargetSpec.down_edge (Target.Available h) (Target.Available h')
  /\ World.ndial w' = S (World.ndial w)
  /\ World.nwrite w' = World.nwrite w
  /\ (forall c, World.is_open c w' = World.is_open c w)
  /\ forall c, MoreSpec.delivered_on c w' = MoreSpec.delivered_on c w.
Proof.
  unfold Target.checkUpdateHostStatus, Target.getConnectionToHost, World.Dial.
  destruct (World.dial_ok w (World.ndial w)).
  - assert (Hs : forall c,
              nth_error
                (World.update (World.socks w ++ [World.MkSock true []])
                   (length (World.socks w))
                   (fun s => World.MkSock false (World.delivered s))) c
              = match nth_error (World.socks w) c with
                | Some s => Some s
                | None => if c =? length (World.socks w)
                          then Some (World.MkSock false [])
                          else None
                end).
    { intros c.
      destruct (Nat.eq_dec c (length (World.socks w))) as [->|Hne].
      - rewrite nth_error_update_same, nth_error_app2, Nat.sub_diag by lia.
        rewrite Nat.eqb_refl.
        replace (nth_error (World.socks w) (length (World.socks w)))
          with (@None World.Sock); [reflexivity|].
        symmetry. apply nth_error_None. lia.
      - rewrite nth_error_update_other by congruence.
        replace (c =? length (World.socks w)) with false
          by (symmetry; now apply Nat.eqb_neq).
        destruct (Nat.lt_ge_cases c (length (World.socks w))) as [Hlt|Hge].
        + rewrite nth_error_app1 by exact Hlt.
          destruct (nth_error (World.socks w) c) eqn:En; [reflexivity|].
          apply nth_error_None in En. lia.
        + replace (nth_error (World.socks w ++ [World.MkSock true []]) c)
            with (@None World.Sock)
            by (symmetry; apply nth_error_None; rewrite length_app;
                simpl; lia).
          replace (nth_error (World.socks w) c) with (@None World.Sock)
            by (symmetry; apply nth_error_None; lia).
          reflexivity. }
    destruct h as [? ? ? av ? ? ? ? ? ? ? ? ? ? ? ? ? ? ? ? ? ? ?].
    unfold TargetSpec.down_edge. simpl. rewrite andb_false_r.
    repeat (split; [reflexivity || lia|]).
    split; intros c; unfold World.is_open, MoreSpec.delivered_on; simpl;
      rewrite Hs; destruct (nth_error (World.socks w) c);
      try reflexivity; destruct (c =? length (World.socks w)); reflexivity.
  - destruct h as [? ? ? av ? ? ? ? ? ? ? ? ? ? ? ? ? ? ? ? ? ? ?].
    unfold Target.Available_CAS, TargetSpec.down_edge. simpl.
    destruct av; simpl; repeat (split; [reflexivity || lia|]);
      split; reflexivity.
Qed.

(** X12.  A flush, by a tick or at the end of [Stream], never counts a
    record as sent, never touches the queue or its throttle counter and
    makes no [W.Write]; when there is no writer, or the writer holds
    nothing, it does nothing at all, not even a dial for a missing
    connection. *)
Theorem tryToFlushIfNecessary_touches_no_record
        (fuel : nat) (h h' : Target.Host) (w w' : World.t) :
  Target.tryToFlushIfNecessary fuel h w = Target.Ret (h', w') ->
  Target.Ch h' = Target.Ch h
  /\ Target.throttled h' = Target.throttled h
  /\ Target.outRecs h' = Target.outRecs h
  /\ Target.processingDuration h' = Target.processingDuration h
  /\ (exists tr,
        World.trace w' = World.trace w ++ tr /\ TargetSpec.writes tr = [])
  /\ match Target.W (Target.Conn h) with
     | None => h' = h /\ w' = w
     | Some b => if bufio.Buffered b =? 0 then h' = h /\ w' = w else True
     end.
Proof.
  intros H.
  pose proof (@tryToFlushIfNecessary_frames fuel h h' w w' H)
    as [Hq [Hf [tr [Ht Hqu]]]].
  unfold MoreSpec.queue_frame, TargetSpec.send_frame in *.
  split; [congruence|]. split; [congruence|]. split; [congruence|].
  split; [congruence|].
  split; [exists tr; split; [exact Ht | now apply writes_quiet]|].
  unfold Target.tryToFlushIfNecessary in H.
  destruct (Target.W (Target.Conn h)) as [b|].
  - destruct (bufio.Buffered b =? 0); [|exact I].
    simpl in H. inversion H; subst. auto.
  - inversion H; subst. auto.
Qed.

(** The statement above on the flush that follows one buffered record. *)
Lemma tryToFlushIfNecessary_touches_no_record_witness :
  let h0 := Target.NewHost "c1"%string (TargetSpec.sample_cfg 1000 10 0 4096)
              TargetSpec.sample_host in
  let w0 := World.init 7 (fun _ => true) (fun _ => None) in
  match Target.tryToSend 2 TargetSpec.sample_rec h0 w0 with
  | Target.Ret (h, w) =>
      match Target.tryToFlushIfNecessary 2 h w with
      | Target.Ret (h', w') =>
          Target.Ch h' = Target.Ch h
          /\ Target.throttled h' = Target.throttled h
          /\ Target.outRecs h' = Target.outRecs h
          /\ Target.processingDuration h' = Target.processingDuration h
      | _ => False
      end
  | _ => False
  end.
Proof.
  intros h0 w0.
  destruct (Target.tryToSend 2 TargetSpec.sample_rec h0 w0)
    as [[h w]| |] eqn:E0; try (vm_compute in E0; discriminate E0).
  destruct (Target.tryToFlushIfNecessary 2 h w) as [[h' w']| |] eqn:E.
  - destruct (@tryToFlushIfNecessary_touches_no_record 2 h h' w w' E)
      as [H1 [H2 [H3 [H4 _]]]]. auto.
  - vm_compute in E0. inversion E0; subst h w.
    vm_compute in E. discriminate E.
  - vm_compute in E0. inversion E0; subst h w.
    vm_compute in E. discriminate E.
Defined.
